(** * ESP32-OS kernel core: task registry, instrumented allocator, facade

    A shallow embedding of [kernel/memory.cpp], [kernel/scheduler.cpp] and
    [kernel/kernel.cpp], followed by the command table of
    [shell/commands.cpp] and the line editor and parser of
    [shell/shell.cpp].  The target is the ESP32, so [size_t], [uint32_t]
    and pointers are 32-bit words; they are modelled as [Z] with the
    wrap-around of unsigned arithmetic written out.  [nullptr] is [0].

    Calls into FreeRTOS, the C heap and the serial port are external.  Each
    operation takes the answers of the external calls it may make as
    arguments (did the semaphore arrive before the timeout, what did
    [malloc] return, what does [millis()] read) and returns, next to its
    result and the new object state, the list of external calls it made,
    in program order. *)

From Stdlib Require Import ZArith Lia String Ascii.
From stdpp Require Import base tactics list strings.

Local Open Scope Z_scope.

(** ** Machine words *)

Definition wrap32 (z : Z) : Z := z mod 2 ^ 32.
Definition wrap16 (z : Z) : Z := z mod 2 ^ 16.

(** ** config.h *)

Definition MEMORY_ALIGNMENT : Z := 4.
Definition MAX_MEMORY_BLOCKS : nat := 64.
Definition MAX_TASKS : nat := 16.

(** ** C strings

    A [const char*] argument is [option string]: [None] is the null
    pointer, [Some s] points at the characters [s] followed by the
    terminator.  A [char buf[N]] field that only ever receives
    [strncpy (buf, src, N - 1)] and [memset (buf, 0, N)] keeps [buf[N-1] = 0],
    so it always holds a terminated string of at most [N - 1] characters and
    is modelled by that string. *)

Fixpoint str_take (n : nat) (s : string) : string :=
  match n, s with
  | O, _ => EmptyString
  | S _, EmptyString => EmptyString
  | S k, String c r => String c (str_take k r)
  end.

(** [strncpy (dst, src, n)]: the first [n] characters of [src], zero
    padded.  Every destination here is terminated after them: byte [n] of
    the field is zero, or [src] is shorter than [n]. *)
Definition strncpy (src : string) (n : nat) : string := str_take n src.

Global Arguments strncpy : simpl never.

(** ** External calls *)

Inductive Lock := SystemMutex | SchedulerMutex | MemoryMutex.

(** What is handed to one [Serial.print] call. *)
Inductive Printed :=
| PStr (s : string)
| PNum (z : Z)
| PHex (z : Z).

Inductive Event :=
| EvTake (l : Lock) (timeout : Z)        (* xSemaphoreTake (l, timeout) *)
| EvGive (l : Lock)                      (* xSemaphoreGive (l) *)
| EvMalloc (size ret : Z)                (* ret = malloc (size) *)
| EvFree (p : Z)                         (* ::free (p) *)
| EvMemcpy (dst src len : Z)
| EvTaskCreate (fn : Z) (name : string) (depth params prio : Z) (ret : option Z)
| EvTaskDelete (h : Z)
| EvTaskSuspend (h : Z)
| EvTaskResume (h : Z)
| EvPrint (p : Printed)                  (* Serial.print *)
| EvPrintln (p : Printed).               (* Serial.println *)

Definition is_malloc (e : Event) : bool :=
  match e with EvMalloc _ _ => true | _ => false end.
Definition is_free (e : Event) : bool :=
  match e with EvFree _ => true | _ => false end.
Definition is_task_create (e : Event) : bool :=
  match e with EvTaskCreate _ _ _ _ _ _ => true | _ => false end.
Definition is_take (l : Lock) (e : Event) : bool :=
  match e, l with
  | EvTake SystemMutex _, SystemMutex => true
  | EvTake SchedulerMutex _, SchedulerMutex => true
  | EvTake MemoryMutex _, MemoryMutex => true
  | _, _ => false
  end.

(** The ticks every bounded wait in the three files passes. *)
Definition LOCK_TIMEOUT : Z := 1000.

(** * memory.cpp *)

Module Mem.

Record MemoryBlock := {
  ptr : Z;
  size : Z;
  allocated : bool;
  timestamp : Z;
  tag : string
}.

Record MemoryManager := {
  blocks : list MemoryBlock;
  memoryMutex : bool;            (* the handle is non-null *)
  totalAllocated : Z;
  peakAllocated : Z;
  allocationCount : Z;
  freeCount : Z
}.

(** The state a slot has after the constructor and after [free]. *)
Definition cleared : MemoryBlock :=
  {| ptr := 0; size := 0; allocated := false; timestamp := 0;
     tag := EmptyString |}.

(** [MemoryManager::MemoryManager()] *)
Definition construct : MemoryManager :=
  {| blocks := replicate MAX_MEMORY_BLOCKS cleared;
     memoryMutex := false;
     totalAllocated := 0; peakAllocated := 0;
     allocationCount := 0; freeCount := 0 |}.

(** [MemoryManager::init()]; [created] says whether
    [xSemaphoreCreateMutex] returned a handle. *)
Definition init (m : MemoryManager) (created : bool)
  : bool * MemoryManager * list Event :=
  if created then
    (true,
     {| blocks := blocks m; memoryMutex := true;
        totalAllocated := totalAllocated m; peakAllocated := peakAllocated m;
        allocationCount := allocationCount m; freeCount := freeCount m |},
     [EvPrintln (PStr "MemoryManager: Memory manager initialized")])
  else
    (false, m, [EvPrintln (PStr "MemoryManager: Failed to create mutex")]).

(** [int findFreeBlock()]: the first slot that is not allocated. *)
Definition findFreeBlock (m : MemoryManager) : option nat :=
  fst <$> list_find (λ b, allocated b = false) (blocks m).

(** [int findBlockByPtr(void* ptr)]: the first allocated slot holding [p]. *)
Definition findBlockByPtr (m : MemoryManager) (p : Z)
  : option (nat * MemoryBlock) :=
  list_find (λ b, allocated b = true ∧ ptr b = p) (blocks m).

(** [(size + MEMORY_ALIGNMENT - 1) & ~(MEMORY_ALIGNMENT - 1)] on [size_t]. *)
Definition align_size (sz : Z) : Z :=
  Z.land (wrap32 (sz + MEMORY_ALIGNMENT - 1))
         (wrap32 (Z.lnot (MEMORY_ALIGNMENT - 1))).

Definition tag_or_unknown (t : option string) : string :=
  match t with Some s => s | None => "unknown"%string end.

(** Answers of the external calls of one [allocate]. *)
Record AllocEnv := {
  lock_ok : bool;     (* the semaphore arrived within the timeout *)
  malloc_ret : Z;     (* what malloc returns if it is called *)
  millis : Z          (* what millis() reads if it is called *)
}.

(** [void* allocate(size_t size, const char* tag)] *)
Definition allocate (m : MemoryManager) (sz : Z) (t : option string)
    (e : AllocEnv) : Z * MemoryManager * list Event :=
  if (sz =? 0) || negb (memoryMutex m) then (0, m, [])
  else
    let sz := align_size sz in
    if negb (lock_ok e) then (0, m, [EvTake MemoryMutex LOCK_TIMEOUT])
    else
      match findFreeBlock m with
      | None =>
          (0, m,
           [EvTake MemoryMutex LOCK_TIMEOUT; EvGive MemoryMutex;
            EvPrintln (PStr "MemoryManager: No free block slots available")])
      | Some slot =>
          let p := malloc_ret e in
          if p =? 0 then
            (0, m,
             [EvTake MemoryMutex LOCK_TIMEOUT; EvMalloc sz p;
              EvGive MemoryMutex;
              EvPrint (PStr "MemoryManager: Failed to allocate ");
              EvPrint (PNum sz); EvPrintln (PStr " bytes")])
          else
            let b := {| ptr := p; size := sz; allocated := true;
                        timestamp := millis e;
                        tag := strncpy (tag_or_unknown t) 15 |} in
            let total := wrap32 (totalAllocated m + sz) in
            (p,
             {| blocks := <[slot := b]> (blocks m);
                memoryMutex := memoryMutex m;
                totalAllocated := total;
                peakAllocated :=
                  if peakAllocated m <? total then total else peakAllocated m;
                allocationCount := wrap32 (allocationCount m + 1);
                freeCount := freeCount m |},
             [EvTake MemoryMutex LOCK_TIMEOUT; EvMalloc sz p;
              EvGive MemoryMutex;
              EvPrint (PStr "MemoryManager: Allocated ");
              EvPrint (PNum sz); EvPrint (PStr " bytes at 0x");
              EvPrint (PHex p); EvPrint (PStr " (tag: ");
              EvPrint (PStr (tag_or_unknown t)); EvPrintln (PStr ")")])
      end.

(** [void free(void* ptr)]; [lock] is the answer of the semaphore. *)
Definition free (m : MemoryManager) (p : Z) (lock : bool)
  : MemoryManager * list Event :=
  if (p =? 0) || negb (memoryMutex m) then (m, [])
  else if negb lock then (m, [EvTake MemoryMutex LOCK_TIMEOUT])
  else
    match findBlockByPtr m p with
    | None =>
        (m,
         [EvTake MemoryMutex LOCK_TIMEOUT; EvGive MemoryMutex;
          EvPrint (PStr "MemoryManager: Attempted to free untracked pointer 0x");
          EvPrintln (PHex p)])
    | Some (slot, b) =>
        ({| blocks := <[slot := cleared]> (blocks m);
            memoryMutex := memoryMutex m;
            totalAllocated := wrap32 (totalAllocated m - size b);
            peakAllocated := peakAllocated m;
            allocationCount := allocationCount m;
            freeCount := wrap32 (freeCount m + 1) |},
         [EvTake MemoryMutex LOCK_TIMEOUT; EvFree p;
          EvPrint (PStr "MemoryManager: Freed ");
          EvPrint (PNum (size b)); EvPrint (PStr " bytes at 0x");
          EvPrint (PHex p); EvPrint (PStr " (tag: ");
          EvPrint (PStr (tag b)); EvPrintln (PStr ")");
          EvGive MemoryMutex])
    end.

(** Answers of the external calls of one [reallocate]: [sem k] answers
    the [k]-th attempt on the semaphore (the lookup, the nested [allocate]
    and the nested [free] each make one), [heap_ret] is what [malloc]
    returns and [clock] what [millis()] reads. *)
Record ReallocEnv := {
  sem : nat → bool;
  heap_ret : Z;
  clock : Z
}.

Definition alloc_env (r : ReallocEnv) (k : nat) : AllocEnv :=
  {| lock_ok := sem r k; malloc_ret := heap_ret r; millis := clock r |}.

(** [void* reallocate(void* ptr, size_t newSize)].  The third branch passes
    [memoryMutex] to [xSemaphoreTake] without the null test the other entry
    points make; on a manager without a mutex it has no defined result
    ([None]). *)
Definition reallocate (m : MemoryManager) (p newSize : Z) (r : ReallocEnv)
  : option (Z * MemoryManager * list Event) :=
  if newSize =? 0 then
    let '(m', evs) := free m p (sem r 0) in Some (0, m', evs)
  else if p =? 0 then
    Some (allocate m newSize (Some "unknown"%string) (alloc_env r 0))
  else if negb (memoryMutex m) then None
  else if negb (sem r 0) then
    Some (0, m, [EvTake MemoryMutex LOCK_TIMEOUT])
  else
    match findBlockByPtr m p with
    | None => Some (0, m, [EvTake MemoryMutex LOCK_TIMEOUT; EvGive MemoryMutex])
    | Some (_, b) =>
        let oldSize := size b in
        let t := strncpy (tag b) 16 in
        let pre := [EvTake MemoryMutex LOCK_TIMEOUT; EvGive MemoryMutex] in
        let '(newPtr, m1, evs1) := allocate m newSize (Some t) (alloc_env r 1) in
        if newPtr =? 0 then Some (0, m1, pre ++ evs1)
        else
          let n := if oldSize <? newSize then oldSize else newSize in
          let '(m2, evs2) := free m1 p (sem r 2) in
          Some (newPtr, m2, pre ++ evs1 ++ [EvMemcpy newPtr p n] ++ evs2)
    end.

(** "Sum of [size] over the live records". *)
Definition live_bytes (bs : list MemoryBlock) : Z :=
  foldr (λ b acc, if allocated b then size b + acc else acc) 0 bs.

(** [r] is [sz] rounded up to the next multiple of [a]. *)
Definition next_multiple (a sz r : Z) : Prop :=
  r mod a = 0 ∧ sz ≤ r < sz + a.

End Mem.

(** * scheduler.cpp *)

Module Sched.

(** FreeRTOS [eTaskState], in the order of the enumeration ([eRunning] is
    the value [0]). *)
Inductive eTaskState :=
| eRunning | eReady | eBlocked | eSuspended | eDeleted | eInvalid.

Record TaskInfo := {
  name : string;
  handle : Z;
  stackSize : Z;
  priority : Z;
  state : eTaskState;
  stackHighWaterMark : Z;
  active : bool
}.

Record Scheduler := {
  tasks : list TaskInfo;
  taskCount : Z;                  (* uint16_t *)
  schedulerMutex : bool           (* the handle is non-null *)
}.

(** A slot with every field zero. *)
Definition zeroed : TaskInfo :=
  {| name := EmptyString; handle := 0; stackSize := 0; priority := 0;
     state := eRunning; stackHighWaterMark := 0; active := false |}.

(** What the constructor and [deleteTask] write into a slot: [active],
    [handle] and [name]; the other four fields keep what they held. *)
Definition clear_slot (t : TaskInfo) : TaskInfo :=
  {| name := EmptyString; handle := 0;
     stackSize := stackSize t; priority := priority t; state := state t;
     stackHighWaterMark := stackHighWaterMark t; active := false |}.

(** [Scheduler::Scheduler()].  The object comes from [new Scheduler()], so
    the fields the constructor does not assign hold whatever the memory
    held before: [prior i] is the previous content of slot [i]. *)
Definition construct (prior : nat → TaskInfo) : Scheduler :=
  {| tasks := (λ i, clear_slot (prior i)) <$> seq 0 MAX_TASKS;
     taskCount := 0;
     schedulerMutex := false |}.

(** [Scheduler::init()] *)
Definition init (s : Scheduler) (created : bool)
  : bool * Scheduler * list Event :=
  if created then
    (true,
     {| tasks := tasks s; taskCount := taskCount s; schedulerMutex := true |},
     [EvPrintln (PStr "Scheduler: Task scheduler initialized")])
  else (false, s, [EvPrintln (PStr "Scheduler: Failed to create mutex")]).

(** [int findTaskByName(const char* name)]: the first active slot whose
    stored name [strcmp]s equal to [n]. *)
Definition findTaskByName (s : Scheduler) (n : string)
  : option (nat * TaskInfo) :=
  list_find (λ t, active t = true ∧ name t = n) (tasks s).

(** [int findFreeTaskSlot()] *)
Definition findFreeTaskSlot (s : Scheduler) : option (nat * TaskInfo) :=
  list_find (λ t, active t = false) (tasks s).

(** [sizeof(StackType_t)]: the ESP32 port of FreeRTOS counts stacks in
    bytes. *)
Definition SIZEOF_STACKTYPE : Z := 1.

(** [bool createTask(name, taskFunction, stackSize, parameters, priority)];
    [lock] answers the semaphore, [created] is [Some h] when [xTaskCreate]
    returns [pdPASS] and stores [h] through its last argument, [None] when
    it fails (and stores nothing). *)
Definition createTask (s : Scheduler) (n : option string)
    (taskFunction stack parameters prio : Z)
    (lock : bool) (created : option Z) : bool * Scheduler * list Event :=
  match n with
  | None => (false, s, [])
  | Some nm =>
    if (taskFunction =? 0) || negb (schedulerMutex s) then (false, s, [])
    else if negb lock then (false, s, [EvTake SchedulerMutex LOCK_TIMEOUT])
    else
      match findTaskByName s nm with
      | Some _ =>
          (false, s,
           [EvTake SchedulerMutex LOCK_TIMEOUT; EvGive SchedulerMutex;
            EvPrint (PStr "Scheduler: Task '"); EvPrint (PStr nm);
            EvPrintln (PStr "' already exists")])
      | None =>
          match findFreeTaskSlot s with
          | None =>
              (false, s,
               [EvTake SchedulerMutex LOCK_TIMEOUT; EvGive SchedulerMutex;
                EvPrintln (PStr "Scheduler: No free task slots available")])
          | Some (slot, old) =>
              let call :=
                EvTaskCreate taskFunction nm (stack / SIZEOF_STACKTYPE)
                             parameters prio created in
              match created with
              | None =>
                  (false, s,
                   [EvTake SchedulerMutex LOCK_TIMEOUT; call;
                    EvGive SchedulerMutex;
                    EvPrint (PStr "Scheduler: Failed to create task '");
                    EvPrint (PStr nm); EvPrintln (PStr "'")])
              | Some h =>
                  let t := {| name := strncpy nm 31; handle := h;
                              stackSize := stack; priority := prio;
                              state := eReady;
                              stackHighWaterMark := stackHighWaterMark old;
                              active := true |} in
                  (true,
                   {| tasks := <[slot := t]> (tasks s);
                      taskCount := wrap16 (taskCount s + 1);
                      schedulerMutex := schedulerMutex s |},
                   [EvTake SchedulerMutex LOCK_TIMEOUT; call;
                    EvGive SchedulerMutex;
                    EvPrint (PStr "Scheduler: Task '"); EvPrint (PStr nm);
                    EvPrintln (PStr "' created successfully")])
              end
          end
      end
  end.

(** [bool deleteTask(const char* name)] *)
Definition deleteTask (s : Scheduler) (n : option string) (lock : bool)
  : bool * Scheduler * list Event :=
  match n with
  | None => (false, s, [])
  | Some nm =>
    if negb (schedulerMutex s) then (false, s, [])
    else if negb lock then (false, s, [EvTake SchedulerMutex LOCK_TIMEOUT])
    else
      match findTaskByName s nm with
      | None =>
          (false, s, [EvTake SchedulerMutex LOCK_TIMEOUT; EvGive SchedulerMutex])
      | Some (slot, t) =>
          (true,
           {| tasks := <[slot := clear_slot t]> (tasks s);
              taskCount := wrap16 (taskCount s - 1);
              schedulerMutex := schedulerMutex s |},
           [EvTake SchedulerMutex LOCK_TIMEOUT]
           ++ (if handle t =? 0 then [] else [EvTaskDelete (handle t)])
           ++ [EvGive SchedulerMutex;
               EvPrint (PStr "Scheduler: Task '"); EvPrint (PStr nm);
               EvPrintln (PStr "' deleted")])
      end
  end.

Definition with_state (t : TaskInfo) (st : eTaskState) : TaskInfo :=
  {| name := name t; handle := handle t; stackSize := stackSize t;
     priority := priority t; state := st;
     stackHighWaterMark := stackHighWaterMark t; active := active t |}.

(** The common body of [suspendTask] and [resumeTask]: they differ in the
    FreeRTOS call and in the state they cache. *)
Definition set_task_state (call : Z → Event) (st : eTaskState)
    (s : Scheduler) (n : option string) (lock : bool)
  : bool * Scheduler * list Event :=
  match n with
  | None => (false, s, [])
  | Some nm =>
    if negb (schedulerMutex s) then (false, s, [])
    else if negb lock then (false, s, [EvTake SchedulerMutex LOCK_TIMEOUT])
    else
      match findTaskByName s nm with
      | Some (slot, t) =>
          if handle t =? 0 then
            (false, s,
             [EvTake SchedulerMutex LOCK_TIMEOUT; EvGive SchedulerMutex])
          else
            (true,
             {| tasks := <[slot := with_state t st]> (tasks s);
                taskCount := taskCount s;
                schedulerMutex := schedulerMutex s |},
             [EvTake SchedulerMutex LOCK_TIMEOUT; call (handle t);
              EvGive SchedulerMutex])
      | None =>
          (false, s, [EvTake SchedulerMutex LOCK_TIMEOUT; EvGive SchedulerMutex])
      end
  end.

(** [bool suspendTask(const char* name)] *)
Definition suspendTask := set_task_state EvTaskSuspend eSuspended.

(** [bool resumeTask(const char* name)] *)
Definition resumeTask := set_task_state EvTaskResume eReady.

(** The stored names of the active records, in slot order. *)
Definition active_names (s : Scheduler) : list string :=
  name <$> filter (λ t, active t = true) (tasks s).

(** Every stored name fits [char name[32]] with its terminator. *)
Definition names_fit (s : Scheduler) : Prop :=
  Forall (λ t, (String.length (name t) ≤ 31)%nat) (tasks s).

(** A scheduler after its constructor, on memory that held zeros, and a
    successful [init()]. *)
Definition fresh : Scheduler := (init (construct (λ _, zeroed)) true).1.2.

End Sched.

(** * kernel.cpp *)

Module Kern.

Record Kernel := {
  scheduler : option Sched.Scheduler;
  memoryManager : option Mem.MemoryManager;
  systemMutex : bool;             (* the handle is non-null *)
  initialized : bool;
  healthy : bool;
  bootTime : Z;
  uptime : Z;
  totalTasks : Z;
  freeMem : Z;
  minFreeMem : Z
}.

Definition with_scheduler (k : Kernel) (s : Sched.Scheduler) (tt : Z) :=
  {| scheduler := Some s; memoryManager := memoryManager k;
     systemMutex := systemMutex k; initialized := initialized k;
     healthy := healthy k; bootTime := bootTime k; uptime := uptime k;
     totalTasks := tt; freeMem := freeMem k; minFreeMem := minFreeMem k |}.

Definition with_memory (k : Kernel) (m : Mem.MemoryManager) :=
  {| scheduler := scheduler k; memoryManager := Some m;
     systemMutex := systemMutex k; initialized := initialized k;
     healthy := healthy k; bootTime := bootTime k; uptime := uptime k;
     totalTasks := totalTasks k; freeMem := freeMem k;
     minFreeMem := minFreeMem k |}.

(** [Kernel::Kernel()] *)
Definition construct : Kernel :=
  {| scheduler := None; memoryManager := None; systemMutex := false;
     initialized := false; healthy := false; bootTime := 0; uptime := 0;
     totalTasks := 0; freeMem := 0; minFreeMem := 0 |}.

(** [bool Kernel::init()]; the three booleans say which
    [xSemaphoreCreateMutex] calls return a handle, [prior] is the memory
    the new [Scheduler] is built on, [now] is what [millis()] reads. *)
Definition init (k : Kernel) (sys_created mem_created sched_created : bool)
    (prior : nat → Sched.TaskInfo) (now : Z) : bool * Kernel * list Event :=
  let set s m mx ini h bt :=
    {| scheduler := s; memoryManager := m; systemMutex := mx;
       initialized := ini; healthy := h; bootTime := bt;
       uptime := uptime k; totalTasks := totalTasks k;
       freeMem := freeMem k; minFreeMem := minFreeMem k |} in
  if initialized k then (true, k, [])
  else if negb sys_created then
    (false,
     set (scheduler k) (memoryManager k) false false (healthy k) (bootTime k),
     [EvPrintln (PStr "Kernel: Failed to create system mutex")])
  else
    let '(okm, m, evm) := Mem.init Mem.construct mem_created in
    if negb okm then
      (false,
       set (scheduler k) (Some m) true false (healthy k) (bootTime k),
       evm ++ [EvPrintln (PStr "Kernel: Failed to initialize memory manager")])
    else
      let '(oks, s, evs) := Sched.init (Sched.construct prior) sched_created in
      if negb oks then
        (false, set (Some s) (Some m) true false (healthy k) (bootTime k),
         evm ++ evs
         ++ [EvPrintln (PStr "Kernel: Failed to initialize scheduler")])
      else
        (true, set (Some s) (Some m) true true true now,
         evm ++ evs
         ++ [EvPrintln (PStr "Kernel: Core system initialized successfully")]).

(** A kernel after its constructor and a successful [init()] at time [0],
    on memory that held zeros. *)
Definition booted : Kernel :=
  (init construct true true true (λ _, Sched.zeroed) 0).1.2.

(** [bool takeMutex(TickType_t timeout)]; [answer] is what
    [xSemaphoreTake] reports if it is called. *)
Definition takeMutex (k : Kernel) (timeout : Z) (answer : bool)
  : bool * list Event :=
  if negb (systemMutex k) then (false, [])
  else (answer, [EvTake SystemMutex timeout]).

(** [void giveMutex()] *)
Definition giveMutex (k : Kernel) : list Event :=
  if systemMutex k then [EvGive SystemMutex] else [].

(** [bool Kernel::createTask(...)]; [sys] answers the facade's semaphore,
    [lock] and [created] are passed on to the scheduler. *)
Definition createTask (k : Kernel) (n : option string)
    (taskFunction stack parameters prio : Z)
    (sys lock : bool) (created : option Z) : bool * Kernel * list Event :=
  if negb (initialized k) then (false, k, [])
  else
    match scheduler k with
    | None => (false, k, [])
    | Some s =>
        let '(got, evs0) := takeMutex k LOCK_TIMEOUT sys in
        if got then
          let '(result, s', evs) :=
            Sched.createTask s n taskFunction stack parameters prio
                             lock created in
          (result,
           with_scheduler k s'
             (if result then wrap32 (totalTasks k + 1) else totalTasks k),
           evs0 ++ evs ++ giveMutex k)
        else (false, k, evs0)
    end.

(** [bool Kernel::deleteTask(const char* name)] *)
Definition deleteTask (k : Kernel) (n : option string) (sys lock : bool)
  : bool * Kernel * list Event :=
  if negb (initialized k) then (false, k, [])
  else
    match scheduler k with
    | None => (false, k, [])
    | Some s =>
        let '(got, evs0) := takeMutex k LOCK_TIMEOUT sys in
        if got then
          let '(result, s', evs) := Sched.deleteTask s n lock in
          (result,
           with_scheduler k s'
             (if result then wrap32 (totalTasks k - 1) else totalTasks k),
           evs0 ++ evs ++ giveMutex k)
        else (false, k, evs0)
    end.

(** The common shape of [Kernel::suspendTask] and [Kernel::resumeTask]:
    [if (initialized && scheduler && takeMutex(1000)) { op; giveMutex(); }] *)
Definition guarded
    (op : Sched.Scheduler → option string → bool
          → bool * Sched.Scheduler * list Event)
    (k : Kernel) (n : option string) (sys lock : bool)
  : Kernel * list Event :=
  if negb (initialized k) then (k, [])
  else
    match scheduler k with
    | None => (k, [])
    | Some s =>
        let '(got, evs0) := takeMutex k LOCK_TIMEOUT sys in
        if got then
          let '(_, s', evs) := op s n lock in
          (with_scheduler k s' (totalTasks k), evs0 ++ evs ++ giveMutex k)
        else (k, evs0)
    end.

(** [void Kernel::suspendTask(const char* name)] *)
Definition suspendTask := guarded Sched.suspendTask.

(** [void Kernel::resumeTask(const char* name)] *)
Definition resumeTask := guarded Sched.resumeTask.

(** [void* Kernel::allocateMemory(size_t size)]: the tag is the default
    argument of [MemoryManager::allocate]. *)
Definition allocateMemory (k : Kernel) (sz : Z) (e : Mem.AllocEnv)
  : Z * Kernel * list Event :=
  if negb (initialized k) then (0, k, [])
  else
    match memoryManager k with
    | None => (0, k, [])
    | Some m =>
        let '(p, m', evs) := Mem.allocate m sz (Some "unknown"%string) e in
        (p, with_memory k m', evs)
    end.

(** [void Kernel::freeMemory(void* ptr)] *)
Definition freeMemory (k : Kernel) (p : Z) (lock : bool)
  : Kernel * list Event :=
  if negb (initialized k) then (k, [])
  else
    match memoryManager k with
    | None => (k, [])
    | Some m =>
        if p =? 0 then (k, [])
        else let '(m', evs) := Mem.free m p lock in (with_memory k m', evs)
    end.

End Kern.

(** * The C heap, as far as the allocator's clients can tell

    The ledger of the external allocator: the blocks [malloc] has handed
    out and [::free] has not yet taken back, as (address, size) pairs. *)

Module Heap.

Definition bytes (h : list (Z * Z)) : Z := foldr (λ b acc, b.2 + acc) 0 h.

(** Two blocks do not overlap. *)
Definition apart (b c : Z * Z) : Prop :=
  b.1 + b.2 ≤ c.1 ∨ c.1 + c.2 ≤ b.1.

(** Every block lies in the addresses [lo .. hi - 1]. *)
Definition within (lo hi : Z) (h : list (Z * Z)) : Prop :=
  Forall (λ b, lo ≤ b.1 ∧ 0 ≤ b.2 ∧ b.1 + b.2 ≤ hi) h.

(** No two blocks overlap. *)
Fixpoint disjoint (h : list (Z * Z)) : Prop :=
  match h with
  | [] => True
  | b :: rest => Forall (apart b) rest ∧ disjoint rest
  end.

(** What [malloc (n)] may answer when the ledger is [h]: null, or the
    address of [n] bytes inside the 32-bit address space that is not the
    address of a block handed out already and overlaps none of them. *)
Definition malloc_ok (h : list (Z * Z)) (n p : Z) : Prop :=
  p = 0
  ∨ (0 < p ∧ p + n ≤ 2 ^ 32 ∧ (p ∉ h.*1) ∧ Forall (apart (p, n)) h).

(** The ledger after one external call. *)
Definition step (h : list (Z * Z)) (e : Event) : list (Z * Z) :=
  match e with
  | EvMalloc n p => if p =? 0 then h else (p, n) :: h
  | EvFree p => filter (λ b, b.1 ≠ p) h
  | _ => h
  end.

Definition after (h : list (Z * Z)) (evs : list Event) : list (Z * Z) :=
  foldl step h evs.

(** The heap can have produced the answers recorded in [evs]. *)
Fixpoint admits (h : list (Z * Z)) (evs : list Event) : Prop :=
  match evs with
  | [] => True
  | e :: rest =>
      match e with EvMalloc n p => malloc_ok h n p | _ => True end
      ∧ admits (step h e) rest
  end.

End Heap.

(** ** Sequences of allocator calls *)

Module MemRun.

Inductive Op :=
| Allocate (sz : Z) (t : option string) (e : Mem.AllocEnv)
| Free (p : Z) (lock : bool).

(** The argument is a [size_t] or a pointer. *)
Definition in_range (op : Op) : Prop :=
  match op with
  | Allocate sz _ _ => 0 ≤ sz < 2 ^ 32
  | Free p _ => 0 ≤ p < 2 ^ 32
  end.

Definition run (m : Mem.MemoryManager) (op : Op)
  : Mem.MemoryManager * list Event :=
  match op with
  | Allocate sz t e => let '(_, m', evs) := Mem.allocate m sz t e in (m', evs)
  | Free p lock => Mem.free m p lock
  end.

(** The manager and the heap ledger after the calls [ops], in order. *)
Fixpoint run_all (m : Mem.MemoryManager) (h : list (Z * Z)) (ops : list Op)
  : Mem.MemoryManager * list (Z * Z) :=
  match ops with
  | [] => (m, h)
  | op :: rest =>
      let '(m', evs) := run m op in run_all m' (Heap.after h evs) rest
  end.

(** The arguments are in range and the heap can have given the answers
    the calls received. *)
Fixpoint feasible (m : Mem.MemoryManager) (h : list (Z * Z)) (ops : list Op)
  : Prop :=
  match ops with
  | [] => True
  | op :: rest =>
      in_range op ∧ Heap.admits h (run m op).2
      ∧ feasible (run m op).1 (Heap.after h (run m op).2) rest
  end.

(** A manager after its constructor and a successful [init()]. *)
Definition initial : Mem.MemoryManager := (Mem.init Mem.construct true).1.2.

(** The live records as (address, size) pairs, in slot order. *)
Definition live_pairs (bs : list Mem.MemoryBlock) : list (Z * Z) :=
  bs ≫= (λ b, if Mem.allocated b then [(Mem.ptr b, Mem.size b)] else []).

(** The record table and the counters agree with the heap ledger [h]: the
    live records are the blocks handed out, and the counter is their
    total. *)
Record accounted (m : Mem.MemoryManager) (h : list (Z * Z)) : Prop := {
  acc_records : live_pairs (Mem.blocks m) ≡ₚ h;
  acc_distinct : NoDup h.*1;
  acc_within : Heap.within 1 (2 ^ 32) h;
  acc_disjoint : Heap.disjoint h;
  acc_total : Mem.totalAllocated m = Heap.bytes h;
  acc_peak : Mem.totalAllocated m ≤ Mem.peakAllocated m
}.

End MemRun.

(** * Sample inputs *)

Module Sample.

(** The semaphore arrives, [malloc] returns [p], the clock reads [t]. *)
Definition env (p t : Z) : Mem.AllocEnv :=
  {| Mem.lock_ok := true; Mem.malloc_ret := p; Mem.millis := t |}.

(** The calls of the example of the specification. *)
Definition calls : list MemRun.Op :=
  [MemRun.Allocate 100 (Some "buf"%string) (env 4096 10);
   MemRun.Allocate 50 (Some "x"%string) (env 8192 20);
   MemRun.Free 4096 true].

(** [MAX_MEMORY_BLOCKS] allocations of eight bytes, sixteen bytes apart. *)
Definition fill : list MemRun.Op :=
  (λ i, MemRun.Allocate 8 None (env (4096 + 16 * Z.of_nat i) (Z.of_nat i)))
  <$> seq 0 MAX_MEMORY_BLOCKS.

(** A manager with every slot live. *)
Definition full : Mem.MemoryManager :=
  (MemRun.run_all MemRun.initial [] fill).1.

(** A manager tracking [4096] (100 bytes) and [8192] (52 bytes). *)
Definition two : Mem.MemoryManager :=
  (MemRun.run_all MemRun.initial [] (take 2 calls)).1.

(** Every attempt on the semaphore succeeds, [malloc] returns [12288]. *)
Definition renv : Mem.ReallocEnv :=
  {| Mem.sem := λ _, true; Mem.heap_ret := 12288; Mem.clock := 30 |}.

(** The largest [size_t]. *)
Definition SIZE_MAX : Z := 2 ^ 32 - 1.

(** A task name of 40 characters. *)
Definition long_name : string := "telemetry-uplink-retransmission-worker-0".

(** [createTask("worker", fn, 2048, null, 5)] on a fresh scheduler, with
    [fn] at address [64] and FreeRTOS returning the handle [101]. *)
Definition with_worker : bool * Sched.Scheduler * list Event :=
  Sched.createTask Sched.fresh (Some "worker"%string) 64 2048 0 5
                   true (Some 101).

End Sample.

(** * The rest of memory.cpp *)

Module MemAdmin.

(** [portMAX_DELAY]: wait for the semaphore without a timeout. *)
Definition PORT_MAX_DELAY : Z := 2 ^ 32 - 1.

(** One turn of the loop of [shutdown()]: a live block with a pointer is
    handed to [::free]; its [ptr] and [allocated] are reset, the other
    fields are left. *)
Definition release (b : Mem.MemoryBlock) : Mem.MemoryBlock * list Event :=
  if Mem.allocated b && negb (Mem.ptr b =? 0) then
    ({| Mem.ptr := 0; Mem.size := Mem.size b; Mem.allocated := false;
        Mem.timestamp := Mem.timestamp b; Mem.tag := Mem.tag b |},
     [EvFree (Mem.ptr b)])
  else (b, []).

(** [void MemoryManager::shutdown()].  The answer of [xSemaphoreTake] is
    not looked at; deleting the semaphore shows in the flag. *)
Definition shutdown (m : Mem.MemoryManager)
  : Mem.MemoryManager * list Event :=
  if Mem.memoryMutex m then
    let rs := release <$> Mem.blocks m in
    ({| Mem.blocks := rs.*1; Mem.memoryMutex := false;
        Mem.totalAllocated := Mem.totalAllocated m;
        Mem.peakAllocated := Mem.peakAllocated m;
        Mem.allocationCount := Mem.allocationCount m;
        Mem.freeCount := Mem.freeCount m |},
     [EvTake MemoryMutex PORT_MAX_DELAY] ++ mjoin rs.*2
     ++ [EvGive MemoryMutex])
  else (m, []).

(** The calls that reach the C heap: [malloc], [memcpy], [::free]. *)
Definition heap_call (e : Event) : bool :=
  match e with
  | EvMalloc _ _ | EvMemcpy _ _ _ | EvFree _ => true
  | _ => false
  end.

(** The live records, in slot order. *)
Definition live (bs : list Mem.MemoryBlock) : list Mem.MemoryBlock :=
  filter (λ b, Mem.allocated b = true) bs.

(** What the constructor establishes and every operation but [shutdown]
    keeps: the table has [MAX_MEMORY_BLOCKS] slots, a slot that is not live
    is cleared, a live slot holds a pointer and a tag that fits
    [char tag[16]]. *)
Record tidy (m : Mem.MemoryManager) : Prop := {
  tidy_length : length (Mem.blocks m) = MAX_MEMORY_BLOCKS;
  tidy_slots :
    Forall (λ b, if Mem.allocated b
                 then Mem.ptr b ≠ 0 ∧ (String.length (Mem.tag b) ≤ 15)%nat
                 else b = Mem.cleared) (Mem.blocks m)
}.

(** The two call counters differ by the number of live records. *)
Definition counts_live (m : Mem.MemoryManager) : Prop :=
  length (Mem.blocks m) = MAX_MEMORY_BLOCKS
  ∧ wrap32 (Mem.allocationCount m - Mem.freeCount m)
    = Z.of_nat (length (live (Mem.blocks m))).

End MemAdmin.

(** ** Sequences of allocator calls, with [reallocate] *)

Module MemRun3.

Inductive Op :=
| Allocate (sz : Z) (t : option string) (e : Mem.AllocEnv)
| Free (p : Z) (lock : bool)
| Reallocate (p newSize : Z) (r : Mem.ReallocEnv).

Definition in_range (op : Op) : Prop :=
  match op with
  | Allocate sz _ _ => 0 ≤ sz < 2 ^ 32
  | Free p _ => 0 ≤ p < 2 ^ 32
  | Reallocate p n _ => (0 ≤ p < 2 ^ 32) ∧ (0 ≤ n < 2 ^ 32)
  end.

(** [None] when the call has no defined result. *)
Definition run (m : Mem.MemoryManager) (op : Op)
  : option (Mem.MemoryManager * list Event) :=
  match op with
  | Allocate sz t e =>
      let '(_, m', evs) := Mem.allocate m sz t e in Some (m', evs)
  | Free p lock => Some (Mem.free m p lock)
  | Reallocate p n r =>
      match Mem.reallocate m p n r with
      | Some (_, m', evs) => Some (m', evs)
      | None => None
      end
  end.

Fixpoint run_all (m : Mem.MemoryManager) (h : list (Z * Z)) (ops : list Op)
  : option (Mem.MemoryManager * list (Z * Z)) :=
  match ops with
  | [] => Some (m, h)
  | op :: rest =>
      match run m op with
      | Some (m', evs) => run_all m' (Heap.after h evs) rest
      | None => None
      end
  end.

(** The arguments are in range and the heap can have given the answers
    the calls received. *)
Fixpoint feasible (m : Mem.MemoryManager) (h : list (Z * Z)) (ops : list Op)
  : Prop :=
  match ops with
  | [] => True
  | op :: rest =>
      in_range op
      ∧ match run m op with
        | Some (m', evs) =>
            Heap.admits h evs ∧ feasible m' (Heap.after h evs) rest
        | None => True
        end
  end.

End MemRun3.

(** * The rest of scheduler.cpp *)

(** Serial output that goes through [Serial.printf]. *)
Inductive PrintfArg :=
| AStr (s : string)
| AInt (z : Z).

Inductive Out :=
| Ev (e : Event)
| Printf (fmt : string) (args : list PrintfArg).

Module SchedAdmin.

(** One turn of the loop of [shutdown()]: an active task with a handle is
    deleted; [active] and [handle] are reset, the name stays. *)
Definition stop (t : Sched.TaskInfo) : Sched.TaskInfo * list Event :=
  if Sched.active t && negb (Sched.handle t =? 0) then
    ({| Sched.name := Sched.name t; Sched.handle := 0;
        Sched.stackSize := Sched.stackSize t;
        Sched.priority := Sched.priority t; Sched.state := Sched.state t;
        Sched.stackHighWaterMark := Sched.stackHighWaterMark t;
        Sched.active := false |},
     [EvTaskDelete (Sched.handle t)])
  else (t, []).

(** [void Scheduler::shutdown()]: no semaphore is taken. *)
Definition shutdown (s : Sched.Scheduler) : Sched.Scheduler * list Event :=
  let rs := stop <$> Sched.tasks s in
  ({| Sched.tasks := rs.*1; Sched.taskCount := 0;
      Sched.schedulerMutex := false |},
   mjoin rs.*2).

(** What FreeRTOS reports about a handle: [eTaskGetState] and
    [uxTaskGetStackHighWaterMark]. *)
Record TaskProbe := {
  task_state : Z → Sched.eTaskState;
  high_water : Z → Z
}.

Definition state_label (st : Sched.eTaskState) : string :=
  match st with
  | Sched.eReady => "Ready"
  | Sched.eRunning => "Running"
  | Sched.eBlocked => "Blocked"
  | Sched.eSuspended => "Suspended"
  | _ => "Unknown"
  end.

(** The update [listTasks()] makes to one slot. *)
Definition refresh (q : TaskProbe) (t : Sched.TaskInfo) : Sched.TaskInfo :=
  if Sched.active t && negb (Sched.handle t =? 0) then
    {| Sched.name := Sched.name t; Sched.handle := Sched.handle t;
       Sched.stackSize := Sched.stackSize t;
       Sched.priority := Sched.priority t;
       Sched.state := task_state q (Sched.handle t);
       Sched.stackHighWaterMark := high_water q (Sched.handle t);
       Sched.active := Sched.active t |}
  else t.

(** The line [listTasks()] prints for one slot; the format ends in a line
    feed. *)
Definition row (t : Sched.TaskInfo) : list Out :=
  if Sched.active t then
    [Printf ("%-16s %8d  %-8s %6d" +:+ String "010"%char EmptyString)
       [AStr (Sched.name t); AInt (Sched.priority t);
        AStr (state_label (Sched.state t));
        AInt (Sched.stackHighWaterMark t)]]
  else [].

(** [void Scheduler::listTasks()] *)
Definition listTasks (s : Sched.Scheduler) (lock : bool) (q : TaskProbe)
  : Sched.Scheduler * list Out :=
  if negb (Sched.schedulerMutex s) then (s, [])
  else if negb lock then (s, [Ev (EvTake SchedulerMutex LOCK_TIMEOUT)])
  else
    let ts := refresh q <$> Sched.tasks s in
    ({| Sched.tasks := ts; Sched.taskCount := Sched.taskCount s;
        Sched.schedulerMutex := Sched.schedulerMutex s |},
     [Ev (EvTake SchedulerMutex LOCK_TIMEOUT);
      Ev (EvPrintln (PStr "Active Tasks:"));
      Ev (EvPrintln (PStr "Name              Priority  State     Stack"));
      Ev (EvPrintln (PStr "----------------------------------------"))]
     ++ (ts ≫= row) ++ [Ev (EvGive SchedulerMutex)]).

(** [void Scheduler::printTaskStats()] *)
Definition printTaskStats (s : Sched.Scheduler) : list Event :=
  [EvPrint (PStr "Total Tasks: "); EvPrintln (PNum (Sched.taskCount s));
   EvPrint (PStr "Free Task Slots: ");
   EvPrintln (PNum (Z.of_nat MAX_TASKS - Sched.taskCount s))].

(** The active records, in slot order. *)
Definition active_tasks (s : Sched.Scheduler) : list Sched.TaskInfo :=
  filter (λ t, Sched.active t = true) (Sched.tasks s).

(** The table has [MAX_TASKS] slots and [taskCount] counts the active
    ones. *)
Record counted (s : Sched.Scheduler) : Prop := {
  counted_length : length (Sched.tasks s) = MAX_TASKS;
  counted_tasks : Sched.taskCount s = Z.of_nat (length (active_tasks s))
}.

(** Every active record has a handle. *)
Definition handled (s : Sched.Scheduler) : Prop :=
  Forall (λ t, Sched.active t = true → Sched.handle t ≠ 0) (Sched.tasks s).

(** The fields [listTasks()] and [suspendTask]/[resumeTask] never write. *)
Definition same_task (t t' : Sched.TaskInfo) : Prop :=
  Sched.name t' = Sched.name t ∧ Sched.handle t' = Sched.handle t
  ∧ Sched.stackSize t' = Sched.stackSize t
  ∧ Sched.priority t' = Sched.priority t
  ∧ Sched.active t' = Sched.active t.

Definition is_row (o : Out) : bool :=
  match o with Printf _ _ => true | Ev _ => false end.

End SchedAdmin.

(** ** Sequences of scheduler calls *)

Module SchedRun.

Inductive Op :=
| Create (n : option string) (fn stack params prio : Z)
         (lock : bool) (created : option Z)
| Delete (n : option string) (lock : bool)
| Suspend (n : option string) (lock : bool)
| Resume (n : option string) (lock : bool)
| List (lock : bool) (q : SchedAdmin.TaskProbe).

(** FreeRTOS never hands out the null handle for a task it created. *)
Definition answers_ok (op : Op) : Prop :=
  match op with
  | Create _ _ _ _ _ _ created => created ≠ Some 0
  | _ => True
  end.

Definition run (s : Sched.Scheduler) (op : Op) : Sched.Scheduler :=
  match op with
  | Create n fn stack params prio lock created =>
      (Sched.createTask s n fn stack params prio lock created).1.2
  | Delete n lock => (Sched.deleteTask s n lock).1.2
  | Suspend n lock => (Sched.suspendTask s n lock).1.2
  | Resume n lock => (Sched.resumeTask s n lock).1.2
  | List lock q => (SchedAdmin.listTasks s lock q).1
  end.

Definition run_all (s : Sched.Scheduler) (ops : list Op) : Sched.Scheduler :=
  foldl run s ops.

(** The name given to [createTask] fits [char name[32]]. *)
Definition short_name (op : Op) : Prop :=
  match op with
  | Create (Some nm) _ _ _ _ _ _ => (String.length nm ≤ 31)%nat
  | _ => True
  end.

End SchedRun.

(** * The rest of kernel.cpp *)

Module KernAdmin.

(** [uint32_t Kernel::getFreeMemory()]; [heap_free] is what
    [esp_get_free_heap_size()] reports. *)
Definition getFreeMemory (k : Kern.Kernel) (heap_free : Z) : Z :=
  if negb (Kern.initialized k) then 0 else heap_free.

(** [uint32_t Kernel::getMinFreeMemory()] *)
Definition getMinFreeMemory (k : Kern.Kernel) (heap_min : Z) : Z :=
  if negb (Kern.initialized k) then 0 else heap_min.

(** [void Kernel::updateSystemStats()]; [now] is what [millis()] reads. *)
Definition updateSystemStats (k : Kern.Kernel) (now heap_free heap_min : Z)
  : Kern.Kernel * list Event :=
  if negb (Kern.initialized k) then (k, [])
  else
    let fm := getFreeMemory k heap_free in
    let low := fm <? 10240 in
    ({| Kern.scheduler := Kern.scheduler k;
        Kern.memoryManager := Kern.memoryManager k;
        Kern.systemMutex := Kern.systemMutex k;
        Kern.initialized := Kern.initialized k;
        Kern.healthy := negb low;
        Kern.bootTime := Kern.bootTime k;
        Kern.uptime := wrap32 (now - Kern.bootTime k) / 1000;
        Kern.totalTasks := Kern.totalTasks k;
        Kern.freeMem := fm;
        Kern.minFreeMem := getMinFreeMemory k heap_min |},
     if low then [EvPrintln (PStr "WARNING: Low memory condition detected")]
     else []).

(** [void Kernel::shutdown()]: deleting the registries runs their
    destructors, which call their [shutdown()]. *)
Definition shutdown (k : Kern.Kernel) : Kern.Kernel * list Event :=
  if negb (Kern.initialized k) then (k, [])
  else
    ({| Kern.scheduler := None; Kern.memoryManager := None;
        Kern.systemMutex := false; Kern.initialized := false;
        Kern.healthy := false; Kern.bootTime := Kern.bootTime k;
        Kern.uptime := Kern.uptime k; Kern.totalTasks := Kern.totalTasks k;
        Kern.freeMem := Kern.freeMem k; Kern.minFreeMem := Kern.minFreeMem k |},
     match Kern.scheduler k with
     | Some s => (SchedAdmin.shutdown s).2
     | None => []
     end
     ++ match Kern.memoryManager k with
        | Some m => (MemAdmin.shutdown m).2
        | None => []
        end).

(** The facade's task calls. *)
Inductive Op :=
| Create (n : option string) (fn stack params prio : Z)
         (sys lock : bool) (created : option Z)
| Delete (n : option string) (sys lock : bool)
| Suspend (n : option string) (sys lock : bool)
| Resume (n : option string) (sys lock : bool).

Definition answers_ok (op : Op) : Prop :=
  match op with
  | Create _ _ _ _ _ _ _ created => created ≠ Some 0
  | _ => True
  end.

Definition run (k : Kern.Kernel) (op : Op) : Kern.Kernel :=
  match op with
  | Create n fn stack params prio sys lock created =>
      (Kern.createTask k n fn stack params prio sys lock created).1.2
  | Delete n sys lock => (Kern.deleteTask k n sys lock).1.2
  | Suspend n sys lock => (Kern.suspendTask k n sys lock).1
  | Resume n sys lock => (Kern.resumeTask k n sys lock).1
  end.

Definition run_all (k : Kern.Kernel) (ops : list Op) : Kern.Kernel :=
  foldl run k ops.

End KernAdmin.

(** * What the tables hold

    Conditions on the two record tables, stated on the slots, without the
    lookups of the code. *)

Module Table.

(** Slot [slot] holds the live record [b] of the pointer [p], and no lower
    slot holds a live record of [p]. *)
Definition tracks (m : Mem.MemoryManager) (p : Z)
    (slot : nat) (b : Mem.MemoryBlock) : Prop :=
  Mem.blocks m !! slot = Some b
  ∧ Mem.allocated b = true ∧ Mem.ptr b = p
  ∧ ∀ j x, Mem.blocks m !! j = Some x → (j < slot)%nat →
           ¬ (Mem.allocated x = true ∧ Mem.ptr x = p).

(** No live record holds the pointer [p]. *)
Definition untracked (m : Mem.MemoryManager) (p : Z) : Prop :=
  ∀ j x, Mem.blocks m !! j = Some x → Mem.allocated x = true → Mem.ptr x ≠ p.

(** [slot] is the lowest slot whose record is not live. *)
Definition lowest_free (m : Mem.MemoryManager) (slot : nat) : Prop :=
  (∃ x, Mem.blocks m !! slot = Some x ∧ Mem.allocated x = false)
  ∧ ∀ j x, Mem.blocks m !! j = Some x → (j < slot)%nat →
           Mem.allocated x = true.

(** Slot [slot] holds the active record [t] that stores the name [nm], and
    no lower slot holds an active record storing [nm]. *)
Definition stores (s : Sched.Scheduler) (nm : string)
    (slot : nat) (t : Sched.TaskInfo) : Prop :=
  Sched.tasks s !! slot = Some t
  ∧ Sched.active t = true ∧ Sched.name t = nm
  ∧ ∀ j x, Sched.tasks s !! j = Some x → (j < slot)%nat →
           ¬ (Sched.active x = true ∧ Sched.name x = nm).

(** No active record stores the name [nm]. *)
Definition unknown (s : Sched.Scheduler) (nm : string) : Prop :=
  ∀ j x, Sched.tasks s !! j = Some x → Sched.active x = true →
         Sched.name x ≠ nm.

End Table.

(** * shell/commands.cpp *)

(** What the shell does to the outside: serial output, and the call of
    the handler at an index of the command table with the arguments it
    is handed.  What a handler does is outside this model. *)
Inductive ShellOut :=
| Serial (e : Event)
| Handler (i : nat) (args : list string).

Module Cmd.

(** [tolower] in the C locale. *)
Definition tolower (c : ascii) : ascii :=
  let n := nat_of_ascii c in
  if ((65 <=? n) && (n <=? 90))%nat then ascii_of_nat (n + 32) else c.

Fixpoint lower (s : string) : string :=
  match s with
  | EmptyString => EmptyString
  | String c r => String (tolower c) (lower r)
  end.

(** [strcasecmp (a, b) == 0] *)
Definition strcasecmp_eq (a b : string) : bool :=
  String.eqb (lower a) (lower b).

(** [commandList]: name and description; the handler of an entry is
    identified by the entry's index. *)
Definition commandList : list (string * string) :=
  [("help", "Show available commands");
   ("ls", "List files and directories");
   ("ps", "Show running processes");
   ("free", "Show memory usage");
   ("reboot", "Restart the system");
   ("info", "Show system information");
   ("uptime", "Show system uptime");
   ("tasks", "Show task information");
   ("mem", "Show detailed memory information");
   ("clear", "Clear the screen");
   ("echo", "Echo text to output");
   ("sleep", "Sleep for specified seconds");
   ("led", "Control built-in LED");
   ("wifi", "WiFi management commands")]%string.

Definition commandCount : nat := length commandList.

(** The loop of [execute], [isValidCommand] and [getCommandDescription]:
    the first entry whose name is [cmd] up to letter case. *)
Definition find_command (cmd : string) : option (nat * (string * string)) :=
  list_find (λ e, strcasecmp_eq cmd e.1 = true) commandList.

(** [bool Commands::execute(const char* cmd, char args[][32], int argCount)];
    [args] holds the [argCount] arguments. *)
Definition execute (cmd : option string) (args : list string)
  : bool * list ShellOut :=
  match cmd with
  | None => (false, [])
  | Some c =>
      match find_command c with
      | Some (i, _) => (true, [Handler i args])
      | None => (false, [])
      end
  end.

(** [bool Commands::isValidCommand(const char* cmd)] *)
Definition isValidCommand (cmd : option string) : bool :=
  match cmd with
  | None => false
  | Some c => bool_decide (is_Some (find_command c))
  end.

(** [const char* Commands::getCommandDescription(const char* cmd)] *)
Definition getCommandDescription (cmd : option string) : option string :=
  match cmd with
  | None => None
  | Some c => (λ r, r.2.2) <$> find_command c
  end.

(** [void Commands::formatTime(unsigned long seconds, char* buffer,
    size_t bufferSize)]: [None] when nothing is written, otherwise the
    format and the arguments handed to [snprintf]; [buffer] tells whether
    the pointer is non-null.  [seconds] is unsigned, so not negative. *)
Definition formatTime (seconds : Z) (buffer : bool) (bufferSize : Z)
  : option (string * list PrintfArg) :=
  if negb buffer || (bufferSize <? 32) then None
  else
    let days := seconds / 86400 in
    let seconds := seconds mod 86400 in
    let hours := seconds / 3600 in
    let seconds := seconds mod 3600 in
    let minutes := seconds / 60 in
    let seconds := seconds mod 60 in
    if 0 <? days then
      Some ("%lu days, %02lu:%02lu:%02lu"%string,
            [AInt days; AInt hours; AInt minutes; AInt seconds])
    else
      Some ("%02lu:%02lu:%02lu"%string,
            [AInt hours; AInt minutes; AInt seconds]).

(** The handler [cmd_reboot], which restarts the chip and does not
    return. *)
Definition REBOOT : nat := 4.

End Cmd.

(** * shell/shell.cpp *)

Module Shell.

Definition SHELL_BUFFER_SIZE : nat := 256.
Definition SHELL_MAX_ARGS : nat := 16.
Definition SHELL_PROMPT : string := "esp32-os> ".

Definition NUL : ascii := "000"%char.
Definition BEL : ascii := "007"%char.
Definition BS : ascii := "008"%char.
Definition TAB : ascii := "009"%char.
Definition LF : ascii := "010"%char.
Definition CR : ascii := "013"%char.
Definition QUOTE : ascii := "034"%char.
Definition DEL : ascii := "127"%char.

(** [inputBuffer] is the array of [SHELL_BUFFER_SIZE] characters;
    [commands] tells whether the pointer is non-null. *)
Record Shell := {
  inputBuffer : list ascii;
  bufferPos : Z;
  echoEnabled : bool;
  commands : bool
}.

(** The string a character array holds: the characters before the first
    terminator. *)
Fixpoint c_str (buf : list ascii) : string :=
  match buf with
  | [] => EmptyString
  | c :: r => if (c =? NUL)%char then EmptyString else String c (c_str r)
  end.

(** A space or a tab. *)
Definition is_blank (c : ascii) : bool := (c =? " ")%char || (c =? TAB)%char.

(** The loops that step [ptr] over spaces and tabs. *)
Fixpoint skip_blank (s : string) : string :=
  match s with
  | String c r => if is_blank c then skip_blank r else s
  | EmptyString => s
  end.

(** The copy loop of an unquoted word with room for [n] more characters:
    the characters copied and what [ptr] is left at. *)
Fixpoint take_word (n : nat) (s : string) : string * string :=
  match n, s with
  | S k, String c r =>
      if is_blank c then (EmptyString, s)
      else let '(w, rest) := take_word k r in (String c w, rest)
  | _, _ => (EmptyString, s)
  end.

(** The copy loop of a quoted argument: the closing quote is stepped
    over, unless the room runs out before it is met. *)
Fixpoint take_quoted (n : nat) (s : string) : string * string :=
  match n, s with
  | S k, String c r =>
      if (c =? QUOTE)%char then (EmptyString, r)
      else let '(w, rest) := take_quoted k r in (String c w, rest)
  | _, _ => (EmptyString, s)
  end.

(** The argument loop, with [k] slots of [args] left. *)
Fixpoint parse_args (k : nat) (s : string) : list string :=
  match k, s with
  | S k', String c r =>
      let '(a, rest) :=
        if (c =? QUOTE)%char then take_quoted 31 r else take_word 31 s in
      a :: parse_args k' (skip_blank rest)
  | _, _ => []
  end.

(** [void Shell::parseCommand(const char* cmdLine, char* cmd,
    char args[][32], int* argCount)]: the command and the [argCount]
    arguments written. *)
Definition parseCommand (cmdLine : string) : string * list string :=
  let '(cmd, rest) := take_word 31 cmdLine in
  (cmd, parse_args SHELL_MAX_ARGS (skip_blank rest)).

Definition unknown_command (cmd : string) : list ShellOut :=
  [Serial (EvPrint (PStr "Unknown command: "));
   Serial (EvPrintln (PStr cmd));
   Serial (EvPrintln (PStr "Type 'help' for available commands"))].

(** [void Shell::processCommand(const char* cmdLine)] *)
Definition processCommand (s : Shell) (cmdLine : option string)
  : list ShellOut :=
  match cmdLine with
  | None => []
  | Some l =>
      if negb (commands s) then []
      else
        match skip_blank l with
        | EmptyString => []
        | l' =>
            let '(cmd, args) := parseCommand l' in
            let '(ok, evs) := Cmd.execute (Some cmd) args in
            if ok then evs else evs ++ unknown_command cmd
        end
  end.

(** [void Shell::clearBuffer()] *)
Definition clearBuffer (s : Shell) : Shell :=
  {| inputBuffer := replicate SHELL_BUFFER_SIZE NUL; bufferPos := 0;
     echoEnabled := echoEnabled s; commands := commands s |}.

Definition print_char (c : ascii) : ShellOut :=
  Serial (EvPrint (PStr (String c EmptyString))).

(** [void Shell::handleChar(char c)] *)
Definition handleChar (s : Shell) (c : ascii) : Shell * list ShellOut :=
  if bufferPos s <? Z.of_nat SHELL_BUFFER_SIZE - 1 then
    let pos := wrap16 (bufferPos s + 1) in
    ({| inputBuffer :=
          <[Z.to_nat pos := NUL]>
            (<[Z.to_nat (bufferPos s) := c]> (inputBuffer s));
        bufferPos := pos;
        echoEnabled := echoEnabled s; commands := commands s |},
     if echoEnabled s then [print_char c] else [])
  else (s, if echoEnabled s then [print_char BEL] else []).

(** [void Shell::handleBackspace()] *)
Definition handleBackspace (s : Shell) : Shell * list ShellOut :=
  if 0 <? bufferPos s then
    let pos := wrap16 (bufferPos s - 1) in
    ({| inputBuffer := <[Z.to_nat pos := NUL]> (inputBuffer s);
        bufferPos := pos;
        echoEnabled := echoEnabled s; commands := commands s |},
     if echoEnabled s
     then [Serial (EvPrint (PStr (String BS (String " " (String BS EmptyString)))))]
     else [])
  else (s, []).

(** A handler that does not return was called. *)
Definition halted (evs : list ShellOut) : bool :=
  existsb (λ o, match o with
                | Handler i _ => Nat.eqb i Cmd.REBOOT
                | Serial _ => false
                end) evs.

(** [void Shell::handleEnter()]; no shell is left when the command
    restarts the chip. *)
Definition handleEnter (s : Shell) : option Shell * list ShellOut :=
  let nl := if echoEnabled s then [Serial (EvPrintln (PStr EmptyString))]
            else [] in
  let run := if 0 <? bufferPos s
             then processCommand s (Some (c_str (inputBuffer s)))
             else [] in
  if halted run then (None, nl ++ run)
  else (Some (clearBuffer s),
        nl ++ run ++ [Serial (EvPrint (PStr SHELL_PROMPT))]).

(** [c >= 32 && c <= 126] *)
Definition printable (c : ascii) : bool :=
  ((32 <=? nat_of_ascii c) && (nat_of_ascii c <=? 126))%nat.

(** One turn of the loop of [processInput()]. *)
Definition dispatch (s : Shell) (c : ascii) : option Shell * list ShellOut :=
  if (c =? CR)%char || (c =? LF)%char then handleEnter s
  else if (c =? DEL)%char || (c =? BS)%char then
    (Some (handleBackspace s).1, (handleBackspace s).2)
  else if printable c then (Some (handleChar s c).1, (handleChar s c).2)
  else (Some s, []).

(** [void Shell::processInput()], with the characters the serial port
    has available. *)
Fixpoint processInput (s : Shell) (cs : list ascii)
  : option Shell * list ShellOut :=
  match cs with
  | [] => (Some s, [])
  | c :: r =>
      match dispatch s c with
      | (Some s', evs) =>
          let '(s'', evs') := processInput s' r in (s'', evs ++ evs')
      | (None, evs) => (None, evs)
      end
  end.

(** [Shell::Shell()] *)
Definition construct : Shell :=
  {| inputBuffer := replicate SHELL_BUFFER_SIZE NUL; bufferPos := 0;
     echoEnabled := true; commands := false |}.

(** The buffer holds a terminated string of [bufferPos] characters. *)
Record tidy (s : Shell) : Prop := {
  tidy_length : length (inputBuffer s) = SHELL_BUFFER_SIZE;
  tidy_pos : 0 ≤ bufferPos s < Z.of_nat SHELL_BUFFER_SIZE;
  tidy_str : String.length (c_str (inputBuffer s)) = Z.to_nat (bufferPos s)
}.

(** Words without blanks; words after which a plain argument ends. *)
Fixpoint no_blank (w : string) : bool :=
  match w with
  | EmptyString => true
  | String c r => negb (is_blank c) && no_blank r
  end.

Fixpoint no_quote (w : string) : bool :=
  match w with
  | EmptyString => true
  | String c r => negb (c =? QUOTE)%char && no_quote r
  end.

Fixpoint all_printable (w : string) : bool :=
  match w with
  | EmptyString => true
  | String c r => printable c && all_printable r
  end.

(** A word that reads back as one unquoted argument. *)
Definition plain (w : string) : Prop :=
  w ≠ EmptyString ∧ (String.length w ≤ 31)%nat
  ∧ no_blank w = true ∧ no_quote w = true.

(** The words, each after one space. *)
Definition spaced (ws : list string) : string :=
  foldr (λ w r, String " " (w +:+ r)) EmptyString ws.

Fixpoint str_concat (ws : list string) : string :=
  match ws with
  | [] => EmptyString
  | w :: r => w +:+ str_concat r
  end.

End Shell.

(** * More sample inputs *)

Module Sample2.

(** The semaphore arrives twice and then not: the final [free] of a
    [reallocate] is not carried out. *)
Definition late : Mem.ReallocEnv :=
  {| Mem.sem := λ k, bool_decide (k < 2)%nat; Mem.heap_ret := 12288;
     Mem.clock := 30 |}.

(** Allocate, move the block, free it. *)
Definition calls : list MemRun3.Op :=
  [MemRun3.Allocate 100 (Some "buf"%string) (Sample.env 4096 10);
   MemRun3.Reallocate 4096 200 Sample.renv;
   MemRun3.Free 12288 true].

(** Sixteen tasks, with the handles [101] to [116]. *)
Definition crowd : list (nat * string) :=
  zip (seq 101 16)
      ["a"; "b"; "c"; "d"; "e"; "f"; "g"; "h";
       "i"; "j"; "k"; "l"; "m"; "n"; "o"; "p"]%string.

Definition spawn (s : Sched.Scheduler) (t : nat * string) : Sched.Scheduler :=
  (Sched.createTask s (Some t.2) 64 2048 0 5 true (Some (Z.of_nat t.1))).1.2.

(** A scheduler with every slot active. *)
Definition crowded : Sched.Scheduler := foldl spawn Sched.fresh crowd.

(** The scheduler holding the task "worker". *)
Definition one : Sched.Scheduler := Sample.with_worker.1.2.

(** Create, suspend, list, delete and create again. *)
Definition sched_calls : list SchedRun.Op :=
  [SchedRun.Create (Some "worker"%string) 64 2048 0 5 true (Some 101);
   SchedRun.Suspend (Some "worker"%string) true;
   SchedRun.Delete (Some "worker"%string) true;
   SchedRun.Create (Some "worker"%string) 65 2048 0 1 true (Some 102);
   SchedRun.Create (Some "logger"%string) 66 4096 0 2 true (Some 103)].

(** The scheduler after [sched_calls]: "worker" in slot 0, "logger" in
    slot 1. *)
Definition pair : Sched.Scheduler := SchedRun.run_all Sched.fresh sched_calls.

(** A booted kernel with the task "worker" and one block of 100 bytes. *)
Definition busy : Kern.Kernel :=
  (Kern.allocateMemory
     (Kern.createTask Kern.booted (Some "worker"%string) 64 2048 0 5
        true true (Some 101)).1.2
     100 (Sample.env 4096 10)).1.2.

(** FreeRTOS reports every task blocked, with 300 words of stack to
    spare. *)
Definition probe : SchedAdmin.TaskProbe :=
  {| SchedAdmin.task_state := λ _, Sched.eBlocked;
     SchedAdmin.high_water := λ _, 300 |}.

(** A shell after [init()]: the command table is there, the buffer is
    clear. *)
Definition ready : Shell.Shell :=
  {| Shell.inputBuffer := replicate Shell.SHELL_BUFFER_SIZE Shell.NUL;
     Shell.bufferPos := 0; Shell.echoEnabled := true;
     Shell.commands := true |}.

End Sample2.

(** * Properties *)

(** ** Alignment *)

Lemma wrap32_range z : 0 ≤ wrap32 z < 2 ^ 32.
Proof. unfold wrap32. apply Z.mod_pos_bound. lia. Qed.

Lemma wrap32_small z : 0 ≤ z < 2 ^ 32 → wrap32 z = z.
Proof. intros. unfold wrap32. by apply Z.mod_small. Qed.

(** Masking a 32-bit word with [~3] clears its two low bits. *)
Lemma land_mask_low2 x :
  0 ≤ x < 2 ^ 32 → Z.land x (wrap32 (Z.lnot 3)) = 4 * (x / 4).
Proof.
  intros Hx.
  change (wrap32 (Z.lnot 3)) with (Z.land (Z.ones 32) (Z.lnot (Z.ones 2))).
  rewrite Z.land_assoc, Z.land_ones by lia.
  rewrite (Z.mod_small x) by lia.
  rewrite <- Z.ldiff_land, Z.ldiff_ones_r by lia.
  rewrite Z.shiftl_mul_pow2, Z.shiftr_div_pow2 by lia.
  change (2 ^ 2) with 4. lia.
Qed.

Lemma align_size_eq sz :
  Mem.align_size sz = 4 * (wrap32 (sz + 3) / 4).
Proof.
  unfold Mem.align_size, MEMORY_ALIGNMENT.
  replace (sz + 4 - 1) with (sz + 3) by lia.
  change (4 - 1) with 3.
  apply land_mask_low2, wrap32_range.
Qed.

Lemma align_size_range sz : 0 ≤ Mem.align_size sz < 2 ^ 32.
Proof.
  rewrite align_size_eq. pose proof (wrap32_range (sz + 3)) as H.
  pose proof (Z.mul_div_le (wrap32 (sz + 3)) 4). 
  pose proof (Z.div_pos (wrap32 (sz + 3)) 4). lia.
Qed.

(** ** The record table and the heap ledger *)

Lemma bytes_app h1 h2 : Heap.bytes (h1 ++ h2) = Heap.bytes h1 + Heap.bytes h2.
Proof. induction h1 as [|b h1 IH]; simpl; [done | rewrite IH; lia]. Qed.

Lemma bytes_perm h1 h2 : h1 ≡ₚ h2 → Heap.bytes h1 = Heap.bytes h2.
Proof. induction 1; simpl; lia. Qed.

Lemma bytes_nonneg h : Forall (λ b, 0 ≤ b.2) h → 0 ≤ Heap.bytes h.
Proof. induction 1; simpl; lia. Qed.

Lemma bytes_elem h p n :
  Forall (λ b, 0 ≤ b.2) h → (p, n) ∈ h → n ≤ Heap.bytes h.
Proof.
  intros Hnn Hin. apply list_elem_of_split in Hin as (h1 & h2 & ->).
  apply Forall_app in Hnn as [H1 H2]. apply Forall_cons in H2 as [_ H2].
  rewrite bytes_app. simpl.
  pose proof (bytes_nonneg _ H1). pose proof (bytes_nonneg _ H2). lia.
Qed.

Lemma live_bytes_pairs bs :
  Mem.live_bytes bs = Heap.bytes (MemRun.live_pairs bs).
Proof.
  induction bs as [|b bs IH]; [done|].
  unfold MemRun.live_pairs in *. rewrite bind_cons, bytes_app, <- IH.
  unfold Mem.live_bytes. destruct (Mem.allocated b) eqn:E; simpl; rewrite E; lia.
Qed.

(** Writing one slot swaps that slot's contribution to the live records. *)
Lemma live_pairs_insert bs i b b' :
  bs !! i = Some b →
  ∃ l1 l2,
    MemRun.live_pairs bs =
      l1 ++ (if Mem.allocated b then [(Mem.ptr b, Mem.size b)] else []) ++ l2
    ∧ MemRun.live_pairs (<[i := b']> bs) =
      l1 ++ (if Mem.allocated b' then [(Mem.ptr b', Mem.size b')] else [])
         ++ l2.
Proof.
  intros Hi.
  exists (MemRun.live_pairs (take i bs)), (MemRun.live_pairs (drop (S i) bs)).
  rewrite insert_take_drop by (by eapply lookup_lt_Some).
  rewrite <- (take_drop_middle bs i b Hi) at 1.
  unfold MemRun.live_pairs. by rewrite !bind_app.
Qed.

Lemma live_pairs_occupy bs i b b' :
  bs !! i = Some b → Mem.allocated b = false → Mem.allocated b' = true →
  MemRun.live_pairs (<[i := b']> bs)
  ≡ₚ (Mem.ptr b', Mem.size b') :: MemRun.live_pairs bs.
Proof.
  intros Hi Hb Hb'.
  destruct (live_pairs_insert bs i b b' Hi) as (l1 & l2 & -> & ->).
  rewrite Hb, Hb'. simpl. by rewrite Permutation_middle.
Qed.

Lemma live_pairs_release bs i b :
  bs !! i = Some b → Mem.allocated b = true →
  MemRun.live_pairs bs
  ≡ₚ (Mem.ptr b, Mem.size b) :: MemRun.live_pairs (<[i := Mem.cleared]> bs).
Proof.
  intros Hi Hb.
  destruct (live_pairs_insert bs i b Mem.cleared Hi) as (l1 & l2 & -> & ->).
  rewrite Hb. simpl. by rewrite Permutation_middle.
Qed.

(** Taking back the one ledger entry of address [p]. *)
Lemma ledger_release (h l : list (Z * Z)) p n :
  h ≡ₚ (p, n) :: l → NoDup h.*1 → filter (λ b, b.1 ≠ p) h ≡ₚ l.
Proof.
  intros Hp Hnd. rewrite Hp in Hnd |- *.
  rewrite fmap_cons in Hnd. apply NoDup_cons in Hnd as [Hnotin _].
  rewrite filter_cons_False by (simpl; tauto).
  assert (Forall (λ b : Z * Z, b.1 ≠ p) l) as Hall.
  { apply Forall_forall. intros [q k] Hin. simpl. intros ->. apply Hnotin.
    apply list_elem_of_fmap. by exists (p, k). }
  clear -Hall. induction Hall as [|b l Hb _ IH]; [done|].
  rewrite filter_cons_True by done. by rewrite IH.
Qed.

(** ** Blocks that do not overlap fit the address range *)

Lemma Forall_filter_keep {A} (P Q : A → Prop) `{∀ x, Decision (Q x)} l :
  Forall P l → Forall P (filter Q l).
Proof.
  rewrite !Forall_forall. intros Hall x [_ Hx]%list_elem_of_filter. eauto.
Qed.

Lemma disjoint_filter (Q : Z * Z → Prop) `{∀ x, Decision (Q x)} h :
  Heap.disjoint h → Heap.disjoint (filter Q h).
Proof.
  induction h as [|b h IH]; [done|]. intros [Hb Hh].
  rewrite filter_cons. destruct (decide (Q b)); [|by apply IH].
  split; [by apply Forall_filter_keep | by apply IH].
Qed.

Lemma within_sizes lo hi h :
  Heap.within lo hi h → Forall (λ b, 0 ≤ b.2) h.
Proof. intros H. eapply Forall_impl; [exact H|]. simpl. tauto. Qed.

Lemma bytes_filter (Q : Z * Z → Prop) `{∀ x, Decision (Q x)} h :
  Heap.bytes h = Heap.bytes (filter Q h) + Heap.bytes (filter (λ b, ¬ Q b) h).
Proof.
  by rewrite <- bytes_app, (bytes_perm _ _ (filter_app_complement Q h)).
Qed.

(** Blocks of [lo .. hi - 1] that do not overlap hold at most [hi - lo]
    bytes: split the others into those below and those above the first. *)
Lemma disjoint_bytes_bound (k : nat) : ∀ h lo hi,
  (length h ≤ k)%nat → lo ≤ hi →
  Heap.within lo hi h → Heap.disjoint h → Heap.bytes h ≤ hi - lo.
Proof.
  induction k as [|k IH]; intros h lo hi Hlen Hlohi Hin Hdis.
  { destruct h; simpl in *; [lia | lia]. }
  destruct h as [|[p n] h]; [simpl; lia|].
  apply Forall_cons in Hin as [(Hlo & Hn & Hhi) Hin]. simpl in *.
  destruct Hdis as [Hap Hdis].
  set (below := λ c : Z * Z, c.1 + c.2 ≤ p).
  rewrite (bytes_filter below h).
  assert (Heap.bytes (filter below h) ≤ p - lo) as Hl.
  { apply IH; [|lia| |by apply disjoint_filter].
    - pose proof (length_filter below h). lia.
    - apply Forall_forall. intros c [Hc Hch]%list_elem_of_filter.
      pose proof (proj1 (Forall_forall _ _) Hin c Hch) as (? & ? & ?).
      unfold below in Hc. by repeat split. }
  destruct (decide (n = 0)) as [-> | Hn0].
  - assert (Heap.bytes (filter (λ c, ¬ below c) h) ≤ hi - p) as Hr.
    { apply IH; [|lia| |by apply disjoint_filter].
      - pose proof (length_filter (λ c, ¬ below c) h). lia.
      - apply Forall_forall. intros c [Hc Hch]%list_elem_of_filter.
        pose proof (proj1 (Forall_forall _ _) Hin c Hch) as (? & ? & ?).
        pose proof (proj1 (Forall_forall _ _) Hap c Hch) as Hpc.
        unfold below, Heap.apart in *. simpl in *. repeat split; lia. }
    lia.
  - assert (Heap.bytes (filter (λ c, ¬ below c) h) ≤ hi - (p + n)) as Hr.
    { apply IH; [|lia| |by apply disjoint_filter].
      - pose proof (length_filter (λ c, ¬ below c) h). lia.
      - apply Forall_forall. intros c [Hc Hch]%list_elem_of_filter.
        pose proof (proj1 (Forall_forall _ _) Hin c Hch) as (? & ? & ?).
        pose proof (proj1 (Forall_forall _ _) Hap c Hch) as Hpc.
        unfold below, Heap.apart in *. simpl in *. repeat split; lia. }
    lia.
Qed.

(** What the heap has handed out is less than [2^32] bytes. *)
Lemma ledger_fits h :
  Heap.within 1 (2 ^ 32) h → Heap.disjoint h → Heap.bytes h < 2 ^ 32.
Proof.
  intros Hin Hdis.
  pose proof (disjoint_bytes_bound (length h) h 1 (2 ^ 32)
                ltac:(lia) ltac:(lia) Hin Hdis). lia.
Qed.

(** ** The accounting invariant *)

Lemma accounted_initial : MemRun.accounted MemRun.initial [].
Proof.
  assert (MemRun.live_pairs (Mem.blocks MemRun.initial) = []) as E
    by reflexivity.
  split; rewrite ?E; simpl; try done; try lia; constructor.
Qed.

Lemma accounted_allocate m h sz t e :
  MemRun.accounted m h →
  Heap.admits h (Mem.allocate m sz t e).2 →
  MemRun.accounted (Mem.allocate m sz t e).1.2
                   (Heap.after h (Mem.allocate m sz t e).2).
Proof.
  intros [Hrec Hnd Hin Hdis Htot Hpk]. unfold Mem.allocate.
  destruct ((sz =? 0) || negb (Mem.memoryMutex m)); [by split|].
  destruct (negb (Mem.lock_ok e)); [by split|].
  destruct (Mem.findFreeBlock m) as [slot|] eqn:Hslot; [|by split].
  destruct (Mem.malloc_ret e =? 0) eqn:Hp.
  { unfold Heap.after. simpl. rewrite Hp. by split. }
  unfold Heap.after. simpl. rewrite Hp. intros (_ & Hok & _).
  destruct Hok as [Hz | (Hpos & Hend & Hfresh & Hapart)]; [lia|].
  unfold Mem.findFreeBlock in Hslot.
  destruct (list_find _ _) as [[i b]|] eqn:Hfind; simplify_eq/=.
  apply list_find_Some in Hfind as (Hi & Hb & _).
  pose proof (align_size_range sz) as Hsz.
  pose proof (bytes_nonneg _ (within_sizes _ _ _ Hin)) as Hh.
  assert (Heap.within 1 (2 ^ 32) ((Mem.malloc_ret e, Mem.align_size sz) :: h))
    as Hin' by (apply Forall_cons; simpl; repeat split; [lia..|done]).
  assert (Heap.disjoint ((Mem.malloc_ret e, Mem.align_size sz) :: h))
    as Hdis' by done.
  pose proof (ledger_fits _ Hin' Hdis') as Hfit. simpl in Hfit.
  rewrite wrap32_small by lia.
  split; simpl; try done.
  - rewrite <- Hrec. by eapply live_pairs_occupy.
  - by apply NoDup_cons.
  - lia.
  - destruct (Z.ltb_spec (Mem.peakAllocated m)
                (Mem.totalAllocated m + Mem.align_size sz)); lia.
Qed.

Lemma accounted_free m h p lock :
  MemRun.accounted m h →
  MemRun.accounted (Mem.free m p lock).1 (Heap.after h (Mem.free m p lock).2).
Proof.
  intros [Hrec Hnd Hin Hdis Htot Hpk]. unfold Mem.free.
  destruct ((p =? 0) || negb (Mem.memoryMutex m)); [by split|].
  destruct (negb lock); [by split|].
  destruct (Mem.findBlockByPtr m p) as [[slot b]|] eqn:Hfind; [|by split].
  apply list_find_Some in Hfind as (Hi & [Hb Hptr] & _).
  pose proof (live_pairs_release _ _ _ Hi Hb) as Hrel. rewrite Hptr in Hrel.
  unfold Heap.after. simpl.
  set (l := MemRun.live_pairs (<[slot := Mem.cleared]> (Mem.blocks m))) in *.
  assert (h ≡ₚ (p, Mem.size b) :: l) as Hh by (by rewrite <- Hrec).
  pose proof (ledger_release h l p (Mem.size b) Hh Hnd) as Hl.
  pose proof (within_sizes _ _ _ Hin) as Hnn.
  assert ((p, Mem.size b) ∈ h) as Hmem by (rewrite Hh; left).
  pose proof (bytes_elem _ _ _ Hnn Hmem) as Hle.
  pose proof (proj1 (Forall_forall _ _) Hnn _ Hmem) as Hge. simpl in Hge.
  assert (Heap.bytes h = Mem.size b + Heap.bytes l) as Hsum
    by (by rewrite (bytes_perm _ _ Hh)).
  pose proof (ledger_fits _ Hin Hdis) as Hfit.
  rewrite wrap32_small by lia.
  split; simpl.
  - by rewrite Hl.
  - rewrite Hl. rewrite Hh, fmap_cons in Hnd. by apply NoDup_cons in Hnd as [_ ?].
  - by apply Forall_filter_keep.
  - by apply disjoint_filter.
  - rewrite (bytes_perm _ _ Hl). lia.
  - lia.
Qed.

Lemma accounted_run m h op :
  MemRun.accounted m h → Heap.admits h (MemRun.run m op).2 →
  MemRun.accounted (MemRun.run m op).1 (Heap.after h (MemRun.run m op).2).
Proof.
  intros Hacc Hadm. destruct op as [sz t e | p lock]; simpl in *.
  - pose proof (accounted_allocate m h sz t e Hacc) as H.
    destruct (Mem.allocate m sz t e) as [[r m'] evs]. by apply H.
  - by apply accounted_free.
Qed.

Lemma accounted_run_all ops : ∀ m h,
  MemRun.accounted m h → MemRun.feasible m h ops →
  MemRun.accounted (MemRun.run_all m h ops).1 (MemRun.run_all m h ops).2.
Proof.
  induction ops as [|op ops IH]; intros m h Hacc Hf; [done|].
  destruct Hf as (_ & Hadm & Hrest). simpl.
  pose proof (accounted_run m h op Hacc Hadm) as Hstep.
  destruct (MemRun.run m op) as [m' evs]. by apply IH.
Qed.

(** In a state the heap accounts for, a tracked record's size is at most
    the counter, so [free] subtracts without wrapping. *)
Lemma accounted_tracked_size m h p slot b :
  MemRun.accounted m h → Mem.findBlockByPtr m p = Some (slot, b) →
  0 ≤ Mem.size b ≤ Mem.totalAllocated m ∧ Mem.totalAllocated m < 2 ^ 32.
Proof.
  intros [Hrec Hnd Hin Hdis Htot Hpk] (Hi & [Hb Hptr] & _)%list_find_Some.
  pose proof (live_pairs_release _ _ _ Hi Hb) as Hrel.
  assert ((Mem.ptr b, Mem.size b) ∈ h) as Hmem
    by (rewrite <- Hrec, Hrel; left).
  pose proof (within_sizes _ _ _ Hin) as Hnn.
  pose proof (bytes_elem _ _ _ Hnn Hmem).
  pose proof (proj1 (Forall_forall _ _) Hnn _ Hmem) as Hge. simpl in Hge.
  pose proof (ledger_fits _ Hin Hdis). lia.
Qed.

(** Whatever the heap answers, the counter is the live total modulo
    [2^32]. *)
Lemma wrap32_add_congr a b c :
  wrap32 a = wrap32 b → wrap32 (wrap32 (a + c)) = wrap32 (b + c).
Proof.
  unfold wrap32. intros H. rewrite Z.mod_mod by lia.
  by rewrite (Z.add_mod a), (Z.add_mod b), H by lia.
Qed.

Lemma total_allocated_mod_run m op :
  wrap32 (Mem.totalAllocated m) = wrap32 (Mem.live_bytes (Mem.blocks m)) →
  wrap32 (Mem.totalAllocated (MemRun.run m op).1)
  = wrap32 (Mem.live_bytes (Mem.blocks (MemRun.run m op).1)).
Proof.
  intros Hinv. destruct op as [sz t e | p lock]; simpl.
  - unfold Mem.allocate.
    destruct ((sz =? 0) || negb (Mem.memoryMutex m)); [done|].
    destruct (negb (Mem.lock_ok e)); [done|].
    destruct (Mem.findFreeBlock m) as [slot|] eqn:Hslot; [|done].
    destruct (Mem.malloc_ret e =? 0); [done|]. simpl.
    unfold Mem.findFreeBlock in Hslot.
    destruct (list_find _ _) as [[i b]|] eqn:Hfind; simplify_eq/=.
    apply list_find_Some in Hfind as (Hi & Hb & _).
    match goal with
    | |- context [<[slot := ?nb]> _] =>
        pose proof (live_pairs_occupy _ _ b nb Hi Hb eq_refl) as Hocc
    end.
    rewrite (live_bytes_pairs (<[_ := _]> _)), (bytes_perm _ _ Hocc).
    simpl. rewrite <- live_bytes_pairs.
    rewrite (Z.add_comm (Mem.align_size sz)). by apply wrap32_add_congr.
  - unfold Mem.free.
    destruct ((p =? 0) || negb (Mem.memoryMutex m)); [done|].
    destruct (negb lock); [done|].
    destruct (Mem.findBlockByPtr m p) as [[slot b]|] eqn:Hfind; [|done].
    apply list_find_Some in Hfind as (Hi & [Hb _] & _). simpl.
    pose proof (bytes_perm _ _ (live_pairs_release _ _ _ Hi Hb)) as Hrel.
    simpl in Hrel. rewrite <- !live_bytes_pairs in Hrel.
    replace (Mem.live_bytes (<[slot:=Mem.cleared]> (Mem.blocks m)))
      with (Mem.live_bytes (Mem.blocks m) + - Mem.size b) by lia.
    replace (Mem.totalAllocated m - Mem.size b)
      with (Mem.totalAllocated m + - Mem.size b) by lia.
    by apply wrap32_add_congr.
Qed.

Lemma total_allocated_mod ops : ∀ m h,
  wrap32 (Mem.totalAllocated m) = wrap32 (Mem.live_bytes (Mem.blocks m)) →
  let m' := (MemRun.run_all m h ops).1 in
  wrap32 (Mem.totalAllocated m') = wrap32 (Mem.live_bytes (Mem.blocks m')).
Proof.
  induction ops as [|op ops IH]; intros m h Hinv; [done|]. simpl.
  pose proof (total_allocated_mod_run m op Hinv) as Hstep.
  destruct (MemRun.run m op) as [m1 evs]. by apply IH.
Qed.

(** ** Claims about the allocator *)

(** C1.  After every sequence of [allocate] and [free] calls on an
    initialized manager (the heap answering as a heap can),
    [totalAllocated] is the sum of the sizes of the live records and does
    not exceed [peakAllocated]. *)
Theorem total_allocated_is_live_sum (ops : list MemRun.Op) :
  MemRun.feasible MemRun.initial [] ops →
  let m := (MemRun.run_all MemRun.initial [] ops).1 in
  Mem.totalAllocated m = Mem.live_bytes (Mem.blocks m)
  ∧ Mem.totalAllocated m ≤ Mem.peakAllocated m.
Proof.
  intros Hf m.
  destruct (accounted_run_all ops _ _ accounted_initial Hf)
    as [Hrec _ _ _ Htot Hpk].
  fold m in Hrec, Htot, Hpk. split; [|done].
  by rewrite Htot, live_bytes_pairs, (bytes_perm _ _ Hrec).
Qed.

(** Evaluate the calls of a concrete run, then check the heap's answers. *)
Ltac eval_calls :=
  repeat match goal with
         | |- context [MemRun.run ?m ?op] =>
             let r := fresh "r" in
             set (r := MemRun.run m op); vm_compute in r; subst r;
             cbn [fst snd]
         | |- context [Heap.after ?h ?evs] =>
             let r := fresh "r" in
             set (r := Heap.after h evs); vm_compute in r; subst r
         end.

Ltac heap_answer :=
  right; split; [lia|]; split; [lia|]; split;
  [ cbn; repeat (apply not_elem_of_cons; split; [lia|]); apply not_elem_of_nil
  | repeat (constructor; [unfold Heap.apart; simpl; lia|]); constructor ].

Lemma sample_calls_feasible : MemRun.feasible MemRun.initial [] Sample.calls.
Proof.
  unfold Sample.calls. cbn [MemRun.feasible MemRun.in_range]. eval_calls.
  cbn [Heap.admits Heap.step].
  repeat split; try lia; heap_answer.
Defined.

Lemma total_allocated_is_live_sum_witness :
  let m := (MemRun.run_all MemRun.initial [] Sample.calls).1 in
  Mem.totalAllocated m = Mem.live_bytes (Mem.blocks m)
  ∧ Mem.totalAllocated m ≤ Mem.peakAllocated m.
Proof.
  exact (total_allocated_is_live_sum Sample.calls sample_calls_feasible).
Defined.

Lemma full_table_no_free_block m :
  Forall (λ b, Mem.allocated b = true) (Mem.blocks m) →
  Mem.findFreeBlock m = None.
Proof.
  intros Hall. unfold Mem.findFreeBlock.
  rewrite (proj2 (list_find_None _ _)); [done|].
  eapply Forall_impl; [exact Hall|]. simpl. intros b Hb. congruence.
Qed.

(** C4.  With all [MAX_MEMORY_BLOCKS] slots live, [allocate] returns null,
    makes no call to [malloc] and leaves the manager (every record and
    every counter) as it was; when it gets as far as the slot search it
    reports the missing slot. *)
Theorem allocate_full_table m sz t e :
  length (Mem.blocks m) = MAX_MEMORY_BLOCKS →
  Forall (λ b, Mem.allocated b = true) (Mem.blocks m) →
  (Mem.allocate m sz t e).1.1 = 0
  ∧ (Mem.allocate m sz t e).1.2 = m
  ∧ Forall (λ ev, is_malloc ev = false) (Mem.allocate m sz t e).2
  ∧ (sz ≠ 0 → Mem.memoryMutex m = true → Mem.lock_ok e = true →
     (Mem.allocate m sz t e).2 =
       [EvTake MemoryMutex LOCK_TIMEOUT; EvGive MemoryMutex;
        EvPrintln (PStr "MemoryManager: No free block slots available")]).
Proof.
  intros _ Hall. unfold Mem.allocate.
  rewrite (full_table_no_free_block m Hall).
  destruct (sz =? 0) eqn:Hsz; simpl.
  { apply Z.eqb_eq in Hsz. repeat split; try done. }
  destruct (Mem.memoryMutex m); simpl; [|by repeat split].
  destruct (Mem.lock_ok e); simpl; repeat split; try done;
    repeat constructor.
Qed.

Lemma allocate_full_table_witness :
  (Mem.allocate Sample.full 24 (Some "late"%string) (Sample.env 12288 99)).1.1
  = 0
  ∧ (Mem.allocate Sample.full 24 (Some "late"%string)
       (Sample.env 12288 99)).1.2 = Sample.full.
Proof.
  assert (length (Mem.blocks Sample.full) = MAX_MEMORY_BLOCKS) as Hlen
    by (vm_compute; reflexivity).
  assert (Forall (λ b, Mem.allocated b = true) (Mem.blocks Sample.full))
    as Hall by (vm_compute; repeat constructor).
  destruct (allocate_full_table Sample.full 24 (Some "late"%string)
              (Sample.env 12288 99) Hlen Hall) as (H1 & H2 & _).
  exact (conj H1 H2).
Defined.

(** ** The lookups find what the tables hold *)

Lemma tracks_find m p slot b :
  Table.tracks m p slot b → Mem.findBlockByPtr m p = Some (slot, b).
Proof.
  intros (Hi & Ha & Hp & Hfirst). apply list_find_Some.
  split; [done|]. split; [done|]. intros j x Hj Hlt.
  exact (Hfirst j x Hj Hlt).
Qed.

Lemma untracked_find m p :
  Table.untracked m p → Mem.findBlockByPtr m p = None.
Proof.
  intros Hun. apply list_find_None, Forall_lookup.
  intros j x Hj [Ha Hp]. by eapply Hun.
Qed.

Lemma lowest_free_find m slot :
  Table.lowest_free m slot → Mem.findFreeBlock m = Some slot.
Proof.
  intros [(x & Hi & Hx) Hfirst]. unfold Mem.findFreeBlock.
  assert (list_find (λ b, Mem.allocated b = false) (Mem.blocks m)
          = Some (slot, x)) as ->; [|done].
  apply list_find_Some. split; [done|]. split; [done|].
  intros j y Hj Hlt. rewrite (Hfirst j y Hj Hlt). discriminate.
Qed.

Lemma full_find m :
  Forall (λ b, Mem.allocated b = true) (Mem.blocks m) →
  Mem.findFreeBlock m = None.
Proof.
  intros Hall. unfold Mem.findFreeBlock.
  assert (list_find (λ b, Mem.allocated b = false) (Mem.blocks m) = None)
    as ->; [|done].
  apply list_find_None. eapply Forall_impl; [exact Hall|].
  intros b Hb. simpl in *. congruence.
Qed.

Lemma stores_find s nm slot t :
  Table.stores s nm slot t → Sched.findTaskByName s nm = Some (slot, t).
Proof.
  intros (Hi & Ha & Hn & Hfirst). apply list_find_Some.
  split; [done|]. split; [done|]. intros j x Hj Hlt.
  exact (Hfirst j x Hj Hlt).
Qed.

Lemma unknown_find s nm :
  Table.unknown s nm → Sched.findTaskByName s nm = None.
Proof.
  intros Hun. apply list_find_None, Forall_lookup.
  intros j x Hj [Ha Hn]. by eapply Hun.
Qed.

Lemma stored_somewhere_find s nm i t :
  Sched.tasks s !! i = Some t → Sched.active t = true → Sched.name t = nm →
  is_Some (Sched.findTaskByName s nm).
Proof.
  intros Hi Ha Hn.
  destruct (Sched.findTaskByName s nm) as [found|] eqn:Hfind; [by eexists|].
  apply list_find_None in Hfind.
  by destruct (proj1 (Forall_lookup _ _) Hfind i t Hi).
Qed.

Lemma full_tasks_find s :
  Forall (λ t, Sched.active t = true) (Sched.tasks s) →
  Sched.findFreeTaskSlot s = None.
Proof.
  intros Hall. apply list_find_None. eapply Forall_impl; [exact Hall|].
  intros t Ht. simpl in *. congruence.
Qed.

(** ** [free] *)

(** C5, as stated, where [free] gives up: the pointer [4096] is tracked in
    slot 0, yet when the semaphore does not arrive it is not released and
    no record or counter changes; and for the null pointer, which no live
    record tracks, nothing is logged. *)
Lemma free_gives_up_silently :
  Table.tracks Sample.two 4096 0
    {| Mem.ptr := 4096; Mem.size := 100; Mem.allocated := true;
       Mem.timestamp := 10; Mem.tag := "buf" |}
  ∧ Mem.free Sample.two 4096 false
    = (Sample.two, [EvTake MemoryMutex LOCK_TIMEOUT])
  ∧ Table.untracked Sample.two 0
  ∧ Mem.free Sample.two 0 true = (Sample.two, []).
Proof.
  split; [|split; [reflexivity|split; [|reflexivity]]].
  - split; [reflexivity|]. split; [reflexivity|]. split; [reflexivity|].
    intros j x _ Hlt. lia.
  - intros j x Hj Ha Hp.
    assert (Forall (λ b, Mem.allocated b = true → Mem.ptr b ≠ 0)
              (Mem.blocks Sample.two)) as Hall
      by (vm_compute; repeat constructor; discriminate).
    exact (proj1 (Forall_lookup _ _) Hall j x Hj Ha Hp).
Qed.

(** C5, amended.  When the pointer is null, the manager has no semaphore or
    the semaphore does not arrive, [free] changes nothing, releases nothing
    and logs nothing.  Otherwise: [free] of a pointer no live record holds
    changes no record and no counter, makes no call to [::free] and logs
    the untracked pointer; [free] of a pointer a live record holds hands
    it to [::free] once, subtracts the record's size from [totalAllocated],
    adds one to [freeCount] (both as [uint32_t]) and clears the slot of
    that record and no other. *)
Theorem free_untracked_and_tracked m p :
  (∀ lock, p = 0 ∨ Mem.memoryMutex m = false ∨ lock = false →
     (Mem.free m p lock).1 = m
     ∧ ((Mem.free m p lock).2 = []
        ∨ (Mem.free m p lock).2 = [EvTake MemoryMutex LOCK_TIMEOUT]))
  ∧ (Table.untracked m p →
     (∀ lock, (Mem.free m p lock).1 = m
              ∧ Forall (λ ev, is_free ev = false) (Mem.free m p lock).2)
     ∧ (p ≠ 0 → Mem.memoryMutex m = true →
        (Mem.free m p true).2 =
          [EvTake MemoryMutex LOCK_TIMEOUT; EvGive MemoryMutex;
           EvPrint
             (PStr "MemoryManager: Attempted to free untracked pointer 0x");
           EvPrintln (PHex p)]))
  ∧ (∀ slot b, Table.tracks m p slot b →
     p ≠ 0 → Mem.memoryMutex m = true →
     let m' := (Mem.free m p true).1 in
     filter (λ ev, is_free ev = true) (Mem.free m p true).2 = [EvFree p]
     ∧ Mem.totalAllocated m' = wrap32 (Mem.totalAllocated m - Mem.size b)
     ∧ (0 ≤ Mem.size b ≤ Mem.totalAllocated m →
        Mem.totalAllocated m < 2 ^ 32 →
        Mem.totalAllocated m' = Mem.totalAllocated m - Mem.size b)
     ∧ Mem.freeCount m' = wrap32 (Mem.freeCount m + 1)
     ∧ Mem.peakAllocated m' = Mem.peakAllocated m
     ∧ Mem.allocationCount m' = Mem.allocationCount m
     ∧ Mem.blocks m' = <[slot := Mem.cleared]> (Mem.blocks m)
     ∧ Mem.blocks m' !! slot = Some Mem.cleared
     ∧ length (Mem.blocks m') = length (Mem.blocks m)
     ∧ ∀ j, j ≠ slot → Mem.blocks m' !! j = Mem.blocks m !! j).
Proof.
  split; [|split].
  - intros lock Hcase. unfold Mem.free.
    destruct (p =? 0) eqn:Hp; [by split; [|left]|].
    destruct (Mem.memoryMutex m) eqn:Hmx; [|by split; [|left]].
    destruct lock; [|by split; [|right]].
    apply Z.eqb_neq in Hp. by destruct Hcase as [?|[?|?]].
  - intros Hun. pose proof (untracked_find m p Hun) as Hfind. split.
    + intros lock. unfold Mem.free. rewrite Hfind.
      destruct ((p =? 0) || negb (Mem.memoryMutex m)); [by split|].
      destruct lock; simpl; split; try done; repeat constructor.
    + intros Hp Hmx. apply Z.eqb_neq in Hp.
      by unfold Mem.free; rewrite Hp, Hmx, Hfind.
  - intros slot b Htr Hp Hmx. pose proof (tracks_find m p slot b Htr) as Hfind.
    destruct Htr as (Hi & _). apply Z.eqb_neq in Hp.
    unfold Mem.free. rewrite Hp, Hmx, Hfind. simpl.
    split; [done|]. split; [done|].
    split; [intros; apply wrap32_small; lia|].
    repeat split; try done.
    + apply list_lookup_insert_eq. by eapply lookup_lt_Some.
    + by rewrite length_insert.
    + intros j Hj. by apply list_lookup_insert_ne.
Qed.

Lemma free_untracked_and_tracked_witness :
  (Mem.free Sample.two 12288 true).1 = Sample.two
  ∧ Mem.totalAllocated (Mem.free Sample.two 8192 true).1 = 100
  ∧ Mem.blocks (Mem.free Sample.two 8192 true).1
    = <[1%nat := Mem.cleared]> (Mem.blocks Sample.two).
Proof.
  assert (Forall (λ b, Mem.allocated b = true → Mem.ptr b ≠ 12288)
            (Mem.blocks Sample.two)) as Hall
    by (vm_compute; repeat constructor; discriminate).
  destruct (free_untracked_and_tracked Sample.two 12288) as (_ & H1 & _).
  destruct (free_untracked_and_tracked Sample.two 8192) as (_ & _ & H2).
  split.
  - apply H1. intros j x Hj Ha.
    exact (proj1 (Forall_lookup _ _) Hall j x Hj Ha).
  - set (b := {| Mem.ptr := 8192; Mem.size := 52; Mem.allocated := true;
                 Mem.timestamp := 20; Mem.tag := "x" |}).
    assert (Table.tracks Sample.two 8192 1 b) as Htr.
    { split; [reflexivity|]. split; [reflexivity|]. split; [reflexivity|].
      intros j x Hj Hlt [_ Hp]. assert (j = 0%nat) as -> by lia.
      vm_compute in Hj. by simplify_eq. }
    destruct (H2 1%nat b Htr ltac:(discriminate) eq_refl)
      as (_ & _ & Htot & _ & _ & _ & Hbl & _).
    split; [|exact Hbl].
    rewrite Htot; [reflexivity | vm_compute; split; discriminate | reflexivity].
Defined.

(** C8.  [reallocate (p, 0)] is [free (p)] followed by returning null, and
    for [n > 0], [reallocate (nullptr, n)] is [allocate (n)] with the default
    tag: same result, same manager afterwards, same external calls. *)
Theorem reallocate_degenerate m p n r :
  0 < n →
  Mem.reallocate m p 0 r =
    Some (0, (Mem.free m p (Mem.sem r 0)).1, (Mem.free m p (Mem.sem r 0)).2)
  ∧ Mem.reallocate m 0 n r =
    Some (Mem.allocate m n (Some "unknown"%string) (Mem.alloc_env r 0)).
Proof.
  intros Hn. unfold Mem.reallocate. split.
  - simpl. by destruct (Mem.free m p (Mem.sem r 0)).
  - destruct (n =? 0) eqn:E; [apply Z.eqb_eq in E; lia | done].
Qed.

Lemma reallocate_degenerate_witness :
  Mem.reallocate Sample.two 4096 0 Sample.renv =
    Some (0, (Mem.free Sample.two 4096 true).1,
          (Mem.free Sample.two 4096 true).2)
  ∧ Mem.reallocate Sample.two 0 8 Sample.renv =
    Some (Mem.allocate Sample.two 8 (Some "unknown"%string)
            (Mem.alloc_env Sample.renv 0)).
Proof.
  exact (reallocate_degenerate Sample.two 4096 8 Sample.renv eq_refl).
Defined.

(** ** Rounding to the alignment *)

Lemma align_size_next_multiple sz :
  0 < sz ≤ 2 ^ 32 - 4 →
  Mem.next_multiple MEMORY_ALIGNMENT sz (Mem.align_size sz).
Proof.
  intros Hsz. rewrite align_size_eq, wrap32_small by lia.
  unfold Mem.next_multiple, MEMORY_ALIGNMENT.
  pose proof (Z.div_mod (sz + 3) 4 ltac:(lia)) as Hdm.
  pose proof (Z.mod_pos_bound (sz + 3) 4 ltac:(lia)) as Hm.
  split; [|lia].
  rewrite Z.mul_comm. apply Z.mod_mul. lia.
Qed.

Lemma findBlockByPtr_head m b bs p :
  Mem.blocks m = b :: bs → Mem.allocated b = true → Mem.ptr b = p →
  Mem.findBlockByPtr m p = Some (0%nat, b).
Proof.
  intros Hbs Ha Hp. unfold Mem.findBlockByPtr. rewrite Hbs.
  apply list_find_Some. split; [done|]. split; [done|]. intros; lia.
Qed.

(** C9, as stated, at the largest [size_t]: the sum wraps, the "rounded"
    size is [0], and zero bytes are requested from [malloc] (whether it
    then answers null or not) and accounted. *)
Lemma align_size_wraps_at_size_max :
  0 < Sample.SIZE_MAX
  ∧ Mem.align_size Sample.SIZE_MAX = 0
  ∧ ¬ Mem.next_multiple MEMORY_ALIGNMENT Sample.SIZE_MAX
        (Mem.align_size Sample.SIZE_MAX)
  ∧ EvMalloc 0 0
    ∈ (Mem.allocate MemRun.initial Sample.SIZE_MAX None (Sample.env 0 0)).2
  ∧ (Mem.allocate MemRun.initial Sample.SIZE_MAX None (Sample.env 4096 0)).1.1
    = 4096
  ∧ EvMalloc 0 4096
    ∈ (Mem.allocate MemRun.initial Sample.SIZE_MAX None (Sample.env 4096 0)).2
  ∧ Mem.totalAllocated
      (Mem.allocate MemRun.initial Sample.SIZE_MAX None
         (Sample.env 4096 0)).1.2 = 0.
Proof.
  split; [done|]. split; [reflexivity|]. split.
  { intros [_ H]. vm_compute in H. destruct H as [H _]. by apply H. }
  split; [vm_compute; right; left|].
  split; [reflexivity|]. split; [|reflexivity].
  vm_compute. right; left.
Qed.

(** C9, amended.  For a request of [1] to [2^32 - 4] bytes, [allocate]
    rounds the size up to the next multiple of [MEMORY_ALIGNMENT]; the
    rounded size is what [malloc] is asked for, what the record holds and
    what is added to [totalAllocated].  [allocate (100, "buf")] followed by
    [allocate (50, "x")] gives [totalAllocated = 152], and freeing the first
    pointer gives [52]. *)
Theorem allocate_rounds_up m sz t e slot (P Q t1 t2 : Z) :
  0 < sz ≤ 2 ^ 32 - 4 →
  Mem.memoryMutex m = true → Mem.lock_ok e = true →
  Mem.findFreeBlock m = Some slot → Mem.malloc_ret e ≠ 0 →
  P ≠ 0 → Q ≠ 0 →
  Mem.next_multiple MEMORY_ALIGNMENT sz (Mem.align_size sz)
  ∧ (let r := Mem.allocate m sz t e in
     r.1.1 = Mem.malloc_ret e
     ∧ EvMalloc (Mem.align_size sz) (Mem.malloc_ret e) ∈ r.2
     ∧ (∃ b, Mem.blocks r.1.2 !! slot = Some b
             ∧ Mem.size b = Mem.align_size sz
             ∧ Mem.ptr b = Mem.malloc_ret e ∧ Mem.allocated b = true)
     ∧ Mem.totalAllocated r.1.2
       = wrap32 (Mem.totalAllocated m + Mem.align_size sz))
  ∧ (let r1 := Mem.allocate MemRun.initial 100 (Some "buf"%string)
                 (Sample.env P t1) in
     let r2 := Mem.allocate r1.1.2 50 (Some "x"%string) (Sample.env Q t2) in
     let m3 := (Mem.free r2.1.2 P true).1 in
     r1.1.1 = P ∧ Mem.totalAllocated r1.1.2 = 100
     ∧ Mem.totalAllocated r2.1.2 = 152
     ∧ Mem.totalAllocated m3 = 52).
Proof.
  intros Hsz Hmx Hlock Hslot Hret HP HQ.
  split; [by apply align_size_next_multiple|]. split.
  - unfold Mem.allocate.
    assert ((sz =? 0) = false) as -> by (apply Z.eqb_neq; lia).
    apply Z.eqb_neq in Hret. rewrite Hmx, Hlock, Hslot, Hret. simpl.
    split; [done|]. split; [right; left|]. split; [|done].
    eexists. split.
    + apply list_lookup_insert_eq. unfold Mem.findFreeBlock in Hslot.
      destruct (list_find _ _) as [[i b]|] eqn:Hfind; simplify_eq/=.
      apply list_find_Some in Hfind as (Hi & _). by eapply lookup_lt_Some.
    + split; [|split]; reflexivity.
  - destruct P as [|pp|pp]; [lia|..]; destruct Q as [|qq|qq]; try lia;
      (split; [reflexivity|]); (split; [reflexivity|]);
      (split; [reflexivity|]); cbv zeta;
      unfold Mem.free;
      erewrite findBlockByPtr_head by reflexivity; reflexivity.
Qed.

Lemma allocate_rounds_up_witness :
  Mem.next_multiple MEMORY_ALIGNMENT 50 (Mem.align_size 50)
  ∧ Mem.totalAllocated
      (Mem.free
         (Mem.allocate
            (Mem.allocate MemRun.initial 100 (Some "buf"%string)
               (Sample.env 4096 10)).1.2
            50 (Some "x"%string) (Sample.env 8192 20)).1.2
         4096 true).1 = 52.
Proof.
  pose proof (allocate_rounds_up MemRun.initial 50 (Some "x"%string)
                (Sample.env 4096 10) 0%nat 4096 8192 10 20
                ltac:(lia) eq_refl eq_refl eq_refl
                ltac:(discriminate) ltac:(discriminate) ltac:(discriminate))
    as (H1 & _ & H3).
  split; [exact H1|]. exact (proj2 (proj2 (proj2 H3))).
Defined.

(** ** The task table *)

Lemma str_take_length n s :
  String.length (str_take n s) = (n `min` String.length s)%nat.
Proof.
  revert s. induction n as [|n IH]; intros [|c s]; simpl; try done.
  by rewrite IH.
Qed.

Lemma str_take_all n s : (String.length s ≤ n)%nat → str_take n s = s.
Proof.
  revert s. induction n as [|n IH]; intros [|c s]; simpl; try done; try lia.
  intros H. rewrite IH; [done | lia].
Qed.

(** What a successful [createTask] went through. *)
Lemma createTask_success s n fn stack params prio lock created s1 evs :
  Sched.createTask s n fn stack params prio lock created = (true, s1, evs) →
  ∃ nm slot old h,
    n = Some nm ∧ fn ≠ 0 ∧ Sched.schedulerMutex s = true ∧ lock = true
    ∧ created = Some h
    ∧ Sched.findTaskByName s nm = None
    ∧ Sched.findFreeTaskSlot s = Some (slot, old)
    ∧ s1 = {| Sched.tasks :=
                <[slot := {| Sched.name := strncpy nm 31; Sched.handle := h;
                             Sched.stackSize := stack;
                             Sched.priority := prio;
                             Sched.state := Sched.eReady;
                             Sched.stackHighWaterMark :=
                               Sched.stackHighWaterMark old;
                             Sched.active := true |}]> (Sched.tasks s);
              Sched.taskCount := wrap16 (Sched.taskCount s + 1);
              Sched.schedulerMutex := Sched.schedulerMutex s |}.
Proof.
  unfold Sched.createTask. destruct n as [nm|]; [|done].
  destruct (fn =? 0) eqn:Hfn; [done|].
  destruct (Sched.schedulerMutex s) eqn:Hmx; [|done]. simpl.
  destruct lock; [|done]. simpl.
  destruct (Sched.findTaskByName s nm) eqn:Hname; [done|].
  destruct (Sched.findFreeTaskSlot s) as [[slot old]|] eqn:Hslot; [|done].
  destruct created as [h|]; [|done].
  intros [= <- _]. apply Z.eqb_neq in Hfn.
  by exists nm, slot, old, h.
Qed.

(** A failed [createTask] leaves the scheduler alone. *)
Lemma createTask_failure s n fn stack params prio lock created :
  (Sched.createTask s n fn stack params prio lock created).1.1 = false →
  (Sched.createTask s n fn stack params prio lock created).1.2 = s.
Proof.
  unfold Sched.createTask. destruct n as [nm|]; [|done].
  destruct ((fn =? 0) || negb (Sched.schedulerMutex s)); [done|].
  destruct (negb lock); [done|].
  destruct (Sched.findTaskByName s nm); [done|].
  destruct (Sched.findFreeTaskSlot s) as [[slot old]|]; [|done].
  by destruct created.
Qed.

Lemma findTaskByName_spec s n i t :
  Sched.findTaskByName s n = Some (i, t) →
  Sched.tasks s !! i = Some t ∧ Sched.active t = true ∧ Sched.name t = n.
Proof.
  intros (Hi & [Ha Hn] & _)%list_find_Some. by repeat split.
Qed.

(** No record can store a name of more than 31 characters, so a longer
    name is never found. *)
Lemma findTaskByName_long s n :
  Sched.names_fit s → (31 < String.length n)%nat →
  Sched.findTaskByName s n = None.
Proof.
  intros Hfit Hlen. apply list_find_None.
  eapply Forall_impl; [exact Hfit|]. simpl. intros t Ht [_ Hn].
  rewrite Hn in Ht. lia.
Qed.

Lemma createTask_names_fit s n fn stack params prio lock created :
  Sched.names_fit s →
  Sched.names_fit
    (Sched.createTask s n fn stack params prio lock created).1.2.
Proof.
  intros Hfit.
  destruct (Sched.createTask s n fn stack params prio lock created)
    as [[[] s1] evs] eqn:Hrun.
  - apply createTask_success in Hrun
      as (nm & slot & old & h & _ & _ & _ & _ & _ & _ & _ & ->).
    simpl. unfold Sched.names_fit. simpl. apply Forall_insert; [done|].
    simpl. unfold strncpy. rewrite str_take_length. lia.
  - pose proof (createTask_failure s n fn stack params prio lock created)
      as H. rewrite Hrun in H. simpl in *. by rewrite H.
Qed.

Lemma fresh_names_fit : Sched.names_fit Sched.fresh.
Proof. unfold Sched.names_fit. vm_compute. repeat constructor. Qed.

Lemma deleteTask_names_fit s n lock :
  Sched.names_fit s → Sched.names_fit (Sched.deleteTask s n lock).1.2.
Proof.
  intros Hfit. unfold Sched.deleteTask. destruct n as [nm|]; [|done].
  destruct (negb (Sched.schedulerMutex s)); [done|].
  destruct (negb lock); [done|].
  destruct (Sched.findTaskByName s nm) as [[slot t]|]; [|done].
  unfold Sched.names_fit. simpl. apply Forall_insert; [done|]. simpl. lia.
Qed.

Lemma set_task_state_names_fit call st s n lock :
  Sched.names_fit s →
  Sched.names_fit (Sched.set_task_state call st s n lock).1.2.
Proof.
  intros Hfit. unfold Sched.set_task_state. destruct n as [nm|]; [|done].
  destruct (negb (Sched.schedulerMutex s)); [done|].
  destruct (negb lock); [done|].
  destruct (Sched.findTaskByName s nm) as [[slot t]|] eqn:Hfind; [|done].
  destruct (Sched.handle t =? 0); [done|].
  apply findTaskByName_spec in Hfind as (Hi & _).
  unfold Sched.names_fit. simpl. apply Forall_insert; [done|]. simpl.
  exact (proj1 (Forall_lookup _ _) Hfit slot t Hi).
Qed.

(** C10.  A successful [createTask] stores the first 31 characters of the
    name and no more; the lookup finds a record only when its stored name
    equals the name asked for; so after a successful [createTask] with a
    name of more than 31 characters, [deleteTask] (and [suspendTask],
    [resumeTask]) with that name fail and leave the table alone. *)
Theorem long_name_is_truncated_and_lost
    s nm fn stack params prio lock created s1 evs :
  Sched.names_fit s →
  Sched.createTask s (Some nm) fn stack params prio lock created
  = (true, s1, evs) →
  (∃ slot old t,
     Sched.findFreeTaskSlot s = Some (slot, old)
     ∧ Sched.tasks s1 !! slot = Some t
     ∧ Sched.active t = true
     ∧ Sched.name t = str_take 31 nm
     ∧ String.length (Sched.name t) = (31 `min` String.length nm)%nat)
  ∧ (∀ n i t, Sched.findTaskByName s1 n = Some (i, t) →
              Sched.tasks s1 !! i = Some t ∧ Sched.active t = true
              ∧ Sched.name t = n)
  ∧ ((31 < String.length nm)%nat →
     Sched.findTaskByName s1 nm = None
     ∧ ∀ lock',
         Sched.deleteTask s1 (Some nm) lock' = 
           (false, s1, (Sched.deleteTask s1 (Some nm) lock').2)
         ∧ (Sched.suspendTask s1 (Some nm) lock').1.1 = false
         ∧ (Sched.resumeTask s1 (Some nm) lock').1.1 = false).
Proof.
  intros Hfit Hrun.
  pose proof (createTask_names_fit s (Some nm) fn stack params prio lock
                created Hfit) as Hfit1.
  rewrite Hrun in Hfit1. simpl in Hfit1.
  apply createTask_success in Hrun
    as (nm' & slot & old & h & [= <-] & _ & _ & _ & _ & _ & Hslot & ->).
  split; [|split].
  - eexists slot, old, _. split; [done|]. split.
    + simpl. apply list_lookup_insert_eq.
      apply list_find_Some in Hslot as (Hi & _). by eapply lookup_lt_Some.
    + split; [done|]. split; [done|]. simpl. apply str_take_length.
  - intros n i t. apply findTaskByName_spec.
  - intros Hlong.
    pose proof (findTaskByName_long _ nm Hfit1 Hlong) as Hnone.
    split; [done|]. intros lock'.
    unfold Sched.suspendTask, Sched.resumeTask, Sched.set_task_state,
      Sched.deleteTask.
    rewrite Hnone. simpl.
    destruct (negb (Sched.schedulerMutex s)); [done|].
    by destruct (negb lock').
Qed.

Lemma long_name_is_truncated_and_lost_witness :
  let s1 := (Sched.createTask Sched.fresh (Some Sample.long_name)
               64 2048 0 5 true (Some 101)).1.2 in
  Sched.findTaskByName s1 Sample.long_name = None
  ∧ (Sched.deleteTask s1 (Some Sample.long_name) true).1.1 = false.
Proof.
  intros s1.
  destruct (long_name_is_truncated_and_lost Sched.fresh Sample.long_name
              64 2048 0 5 true (Some 101) s1 _ fresh_names_fit eq_refl)
    as (_ & _ & H).
  destruct (H ltac:(vm_compute; lia)) as [H1 H2].
  split; [exact H1|]. destruct (H2 true) as [H3 _]. by rewrite H3.
Defined.

(** ** Create, delete, create again *)

Lemma findTaskByName_None_insert s nm i t :
  Sched.findTaskByName s nm = None →
  ¬ (Sched.active t = true ∧ Sched.name t = nm) →
  list_find (λ t, Sched.active t = true ∧ Sched.name t = nm)
            (<[i := t]> (Sched.tasks s)) = None.
Proof.
  intros Hnone Ht. apply list_find_None in Hnone.
  by apply list_find_None, Forall_insert.
Qed.

(** C6, as stated, on the example of the specification: after
    [createTask ("worker", fn, 2048, null, 5)] and [deleteTask ("worker")]
    the slot still holds the stack size, the priority and the state of the
    deleted task. *)
Lemma deleted_slot_keeps_fields :
  let r := Sched.deleteTask Sample.with_worker.1.2 (Some "worker"%string)
             true in
  Sample.with_worker.1.1 = true ∧ r.1.1 = true
  ∧ Sched.tasks r.1.2 !! 0%nat ≠ Some Sched.zeroed
  ∧ (Sched.stackSize <$> Sched.tasks r.1.2 !! 0%nat) = Some 2048
  ∧ (Sched.priority <$> Sched.tasks r.1.2 !! 0%nat) = Some 5
  ∧ (Sched.state <$> Sched.tasks r.1.2 !! 0%nat) = Some Sched.eReady.
Proof.
  vm_compute. repeat split; try reflexivity. intros [=].
Qed.

(** C6, amended.  For a name of at most 31 characters: after a successful
    [createTask] and an immediate [deleteTask] of the same name (the
    semaphore arriving), the slot's [name], [handle] and [active] are zero
    while [stackSize], [priority] and [state] keep what [createTask] wrote
    and [stackHighWaterMark] what the slot held before; the other slots
    are as they were; and a following [createTask] with that name succeeds
    whenever FreeRTOS creates the task. *)
Theorem create_delete_frees_name
    s nm fn stack params prio lock created s1 evs :
  (String.length nm ≤ 31)%nat →
  Sched.createTask s (Some nm) fn stack params prio lock created
  = (true, s1, evs) →
  ∃ slot old,
    Sched.findFreeTaskSlot s = Some (slot, old)
    ∧ let r := Sched.deleteTask s1 (Some nm) true in
      r.1.1 = true
      ∧ Sched.tasks r.1.2 !! slot =
          Some {| Sched.name := EmptyString; Sched.handle := 0;
                  Sched.stackSize := stack; Sched.priority := prio;
                  Sched.state := Sched.eReady;
                  Sched.stackHighWaterMark := Sched.stackHighWaterMark old;
                  Sched.active := false |}
      ∧ (∀ j, j ≠ slot → Sched.tasks r.1.2 !! j = Sched.tasks s !! j)
      ∧ Sched.taskCount r.1.2 = wrap16 (wrap16 (Sched.taskCount s + 1) - 1)
      ∧ ∀ fn' stack' params' prio' h',
          fn' ≠ 0 →
          (Sched.createTask r.1.2 (Some nm) fn' stack' params' prio'
             true (Some h')).1.1 = true.
Proof.
  intros Hlen Hrun.
  apply createTask_success in Hrun
    as (nm' & slot & old & h & [= <-] & _ & Hmx & _ & _ & Hnone & Hslot & ->).
  exists slot, old. split; [done|].
  apply list_find_Some in Hslot as Hfree. destruct Hfree as (Hi & Hold & _).
  pose proof (lookup_lt_Some _ _ _ Hi) as Hlt.
  set (t := {| Sched.name := strncpy nm 31; Sched.handle := h;
               Sched.stackSize := stack; Sched.priority := prio;
               Sched.state := Sched.eReady;
               Sched.stackHighWaterMark := Sched.stackHighWaterMark old;
               Sched.active := true |}).
  set (s1 := {| Sched.tasks := <[slot := t]> (Sched.tasks s);
                Sched.taskCount := wrap16 (Sched.taskCount s + 1);
                Sched.schedulerMutex := Sched.schedulerMutex s |}).
  assert (Sched.findTaskByName s1 nm = Some (slot, t)) as Hfound.
  { apply list_find_Some. split; [by apply list_lookup_insert_eq|].
    split; [split; [done | by apply str_take_all]|].
    intros j y Hj Hjs. simpl in Hj.
    rewrite list_lookup_insert_ne in Hj by lia.
    apply list_find_None in Hnone.
    eapply (proj1 (Forall_lookup _ _) Hnone); eauto. }
  unfold Sched.deleteTask. rewrite Hfound. simpl. rewrite Hmx. simpl.
  rewrite list_insert_insert_eq.
  split; [done|]. split; [by apply list_lookup_insert_eq|].
  split; [by intros j Hj; apply list_lookup_insert_ne|]. split; [done|].
  intros fn' stack' params' prio' h' Hfn'. apply Z.eqb_neq in Hfn'.
  unfold Sched.createTask. simpl. rewrite Hfn', ?Hmx. simpl.
  unfold Sched.findTaskByName. simpl.
  rewrite (findTaskByName_None_insert s nm slot _ Hnone)
    by (simpl; intros [? _]; done).
  unfold Sched.findFreeTaskSlot. simpl.
  destruct (list_find _ _) as [[i y]|] eqn:Hfree2; [done|].
  apply list_find_None in Hfree2.
  pose proof (proj1 (Forall_lookup _ _) Hfree2 slot _
                (list_lookup_insert_eq _ _ _ Hlt)) as Hbad.
  by simpl in Hbad.
Qed.

Lemma create_delete_frees_name_witness :
  ∃ slot old,
    Sched.findFreeTaskSlot Sched.fresh = Some (slot, old)
    ∧ (Sched.deleteTask Sample.with_worker.1.2 (Some "worker"%string)
         true).1.1 = true.
Proof.
  destruct (create_delete_frees_name Sched.fresh "worker" 64 2048 0 5 true
              (Some 101) Sample.with_worker.1.2 Sample.with_worker.2
              ltac:(vm_compute; lia) eq_refl)
    as (slot & old & H1 & H2 & _).
  exists slot, old. split; [exact H1 | exact H2].
Defined.

(** ** Checks made before FreeRTOS is asked for a task *)

(** C3, as stated, for the empty name: [createTask] tests the pointer, not
    the string, so an empty name is accepted and a task is created. *)
Lemma createTask_accepts_empty_name :
  let r := Sched.createTask Sched.fresh (Some EmptyString) 64 2048 0 5
             true (Some 101) in
  r.1.1 = true
  ∧ EvTaskCreate 64 EmptyString 2048 0 5 (Some 101) ∈ r.2
  ∧ Sched.active_names r.1.2 = [EmptyString].
Proof.
  vm_compute. split; [reflexivity|]. split; [right; left | reflexivity].
Qed.

(** C3, amended.  [createTask] fails when the name or the entry point is
    null, when some active record of the table stores the name, or when
    every record of the table is active; in each case the scheduler is
    unchanged and [xTaskCreate] is not called, whatever the semaphore and
    FreeRTOS would answer. *)
Theorem createTask_checks_before_spawn
    s n fn stack params prio lock created :
  n = None ∨ fn = 0
  ∨ (∃ nm i t, n = Some nm ∧ Sched.tasks s !! i = Some t
               ∧ Sched.active t = true ∧ Sched.name t = nm)
  ∨ Forall (λ t, Sched.active t = true) (Sched.tasks s) →
  let r := Sched.createTask s n fn stack params prio lock created in
  r.1.1 = false ∧ r.1.2 = s
  ∧ Forall (λ ev, is_task_create ev = false) r.2.
Proof.
  intros Hcase. unfold Sched.createTask. cbv zeta.
  destruct n as [nm|]; [|by repeat split].
  destruct (fn =? 0) eqn:Hfn; [by repeat split|]. apply Z.eqb_neq in Hfn.
  destruct (Sched.schedulerMutex s); [|by repeat split]. simpl.
  destruct lock; simpl; [|repeat split; try done; repeat constructor].
  destruct (Sched.findTaskByName s nm) as [found|] eqn:Hname;
    [repeat split; try done; repeat constructor|].
  destruct (Sched.findFreeTaskSlot s) as [[slot old]|] eqn:Hslot;
    [|repeat split; try done; repeat constructor].
  exfalso.
  destruct Hcase as [[=] | [Hz | [(nm' & i & t & [= <-] & Hi & Ha & Hn) | Hfull]]].
  - done.
  - destruct (stored_somewhere_find s nm i t Hi Ha Hn) as [found Hf].
    congruence.
  - rewrite (full_tasks_find s Hfull) in Hslot. discriminate.
Qed.

Lemma createTask_checks_before_spawn_witness :
  (Sched.createTask Sample2.pair (Some "logger"%string)
     65 2048 0 1 true (Some 104)).1.1 = false
  ∧ (Sched.createTask Sample2.crowded (Some "q"%string) 65 2048 0 1 true
       (Some 117)).1.2 = Sample2.crowded
  ∧ (Sched.createTask Sample2.pair None 65 2048 0 1 true
       (Some 104)).1.2 = Sample2.pair.
Proof.
  split; [|split].
  - refine (proj1 (createTask_checks_before_spawn Sample2.pair
                     (Some "logger"%string) 65 2048 0 1 true (Some 104) _)).
    right; right; left.
    destruct (Sched.tasks Sample2.pair !! 1%nat) as [t|] eqn:E;
      [|by vm_compute in E].
    exists "logger"%string, 1%nat, t. split; [reflexivity|].
    split; [exact E|]. vm_compute in E. by simplify_eq.
  - refine (proj1 (proj2 (createTask_checks_before_spawn Sample2.crowded
                            (Some "q"%string) 65 2048 0 1 true (Some 117) _))).
    right; right; right. vm_compute. repeat constructor.
  - refine (proj1 (proj2 (createTask_checks_before_spawn
                            Sample2.pair None 65 2048 0 1 true
                            (Some 104) _))).
    by left.
Defined.

(** ** One active record per name *)

(** A name an active record stores is refused and nothing changes. *)
Lemma createTask_duplicate s nm fn stack params prio lock created :
  is_Some (Sched.findTaskByName s nm) →
  (Sched.createTask s (Some nm) fn stack params prio lock created).1.1 = false
  ∧ (Sched.createTask s (Some nm) fn stack params prio lock created).1.2 = s.
Proof.
  intros [found Hdup]. unfold Sched.createTask. rewrite Hdup.
  destruct ((fn =? 0) || negb (Sched.schedulerMutex s)); [done|].
  by destruct (negb lock).
Qed.

(** A name no active record stores cannot be deleted and nothing changes. *)
Lemma deleteTask_unknown s nm lock :
  Sched.findTaskByName s nm = None →
  (Sched.deleteTask s (Some nm) lock).1.1 = false
  ∧ (Sched.deleteTask s (Some nm) lock).1.2 = s.
Proof.
  intros Hnone. unfold Sched.deleteTask. rewrite Hnone.
  destruct (negb (Sched.schedulerMutex s)); [done|]. by destruct (negb lock).
Qed.

Lemma active_names_insert s i t t' :
  Sched.tasks s !! i = Some t →
  ∃ l1 l2,
    Sched.active_names s
    = l1 ++ (if Sched.active t then [Sched.name t] else []) ++ l2
    ∧ ∀ c mx,
        Sched.active_names
          {| Sched.tasks := <[i := t']> (Sched.tasks s);
             Sched.taskCount := c; Sched.schedulerMutex := mx |}
        = l1 ++ (if Sched.active t' then [Sched.name t'] else []) ++ l2.
Proof.
  intros Hi.
  set (names := λ l : list Sched.TaskInfo,
         Sched.name <$> filter (λ t, Sched.active t = true) l).
  assert (∀ x, names [x] = if Sched.active x then [Sched.name x] else [])
    as Hone.
  { intros x. unfold names. rewrite filter_cons, filter_nil.
    destruct (Sched.active x); by case_decide. }
  assert (∀ a x b, names (a ++ x :: b)
                   = names a ++ (if Sched.active x then [Sched.name x] else [])
                     ++ names b) as Hsplit.
  { intros a x b. rewrite <- Hone. unfold names.
    by rewrite (cons_middle x), !filter_app, !fmap_app. }
  exists (names (take i (Sched.tasks s))),
         (names (drop (S i) (Sched.tasks s))).
  split.
  - unfold Sched.active_names. fold (names (Sched.tasks s)).
    by rewrite <- (take_drop_middle _ _ _ Hi) at 1.
  - intros c mx. unfold Sched.active_names. simpl.
    rewrite insert_take_drop by (by eapply lookup_lt_Some). apply Hsplit.
Qed.

Lemma active_names_elem s n :
  n ∈ Sched.active_names s → is_Some (Sched.findTaskByName s n).
Proof.
  unfold Sched.active_names.
  intros (t & -> & [Ha Hin]%list_elem_of_filter)%list_elem_of_fmap.
  by eapply list_find_elem_of.
Qed.

(** While only names of at most 31 characters are created, no two active
    records store the same name. *)
Lemma createTask_keeps_names_distinct
    s nm fn stack params prio lock created :
  (String.length nm ≤ 31)%nat →
  NoDup (Sched.active_names s) →
  NoDup (Sched.active_names
           (Sched.createTask s (Some nm) fn stack params prio lock
              created).1.2).
Proof.
  intros Hlen Hnd.
  destruct (Sched.createTask s (Some nm) fn stack params prio lock created)
    as [[[] s1] evs] eqn:Hrun.
  - apply createTask_success in Hrun
      as (nm' & slot & old & h & [= <-] & _ & _ & _ & _ & Hnone & Hslot & ->).
    apply list_find_Some in Hslot as (Hi & Hold & _).
    destruct (active_names_insert s slot old
                {| Sched.name := strncpy nm 31; Sched.handle := h;
                   Sched.stackSize := stack; Sched.priority := prio;
                   Sched.state := Sched.eReady;
                   Sched.stackHighWaterMark := Sched.stackHighWaterMark old;
                   Sched.active := true |} Hi) as (l1 & l2 & Hbefore & Hafter).
    simpl. rewrite Hafter. simpl in *. rewrite Hold in Hbefore.
    simpl in Hbefore. rewrite Hbefore in Hnd.
    unfold strncpy. rewrite (str_take_all _ _ Hlen).
    apply NoDup_app in Hnd as (H1 & H12 & H2).
    apply NoDup_app. split; [done|]. split.
    + intros x Hx [-> | Hx2]%elem_of_cons.
      * assert (nm ∈ Sched.active_names s) as Hin
          by (rewrite Hbefore; apply elem_of_app; by left).
        apply active_names_elem in Hin as [? Hin]. congruence.
      * by eapply H12.
    + apply NoDup_cons. split; [|done]. intros Hin2.
      assert (nm ∈ Sched.active_names s) as Hin
        by (rewrite Hbefore; apply elem_of_app; by right).
      apply active_names_elem in Hin as [? Hin]. congruence.
  - pose proof (createTask_failure s (Some nm) fn stack params prio lock
                  created) as H. rewrite Hrun in H. simpl in *. by rewrite H.
Qed.

Lemma deleteTask_keeps_names_distinct s n lock :
  NoDup (Sched.active_names s) →
  NoDup (Sched.active_names (Sched.deleteTask s n lock).1.2).
Proof.
  intros Hnd. unfold Sched.deleteTask. destruct n as [nm|]; [|done].
  destruct (negb (Sched.schedulerMutex s)); [done|].
  destruct (negb lock); [done|].
  destruct (Sched.findTaskByName s nm) as [[slot t]|] eqn:Hfind; [|done].
  apply findTaskByName_spec in Hfind as (Hi & Ha & _).
  destruct (active_names_insert s slot t (Sched.clear_slot t) Hi)
    as (l1 & l2 & Hbefore & Hafter).
  simpl. rewrite Hafter. simpl. rewrite Hbefore, Ha in Hnd.
  apply NoDup_app in Hnd as (H1 & H12 & H2).
  apply NoDup_cons in H2 as [_ H2].
  apply NoDup_app. split; [done|]. split; [|done].
  intros x Hx Hx2. apply (H12 x Hx). by right.
Qed.

(** C2, on a name of 40 characters: the duplicate test compares the full
    name with the 31 characters stored, finds nothing, and the second
    [createTask] succeeds; two active records then store the same name. *)
Theorem long_name_registered_twice :
  let r1 := Sched.createTask Sched.fresh (Some Sample.long_name)
              64 2048 0 5 true (Some 101) in
  let r2 := Sched.createTask r1.1.2 (Some Sample.long_name)
              65 2048 0 1 true (Some 102) in
  r1.1.1 = true ∧ r2.1.1 = true
  ∧ Sched.active_names r2.1.2
    = [str_take 31 Sample.long_name; str_take 31 Sample.long_name]
  ∧ (Sched.handle <$> Sched.tasks r2.1.2 !! 0%nat) = Some 101
  ∧ (Sched.handle <$> Sched.tasks r2.1.2 !! 1%nat) = Some 102
  ∧ Sched.taskCount r2.1.2 = 2
  ∧ ¬ NoDup (Sched.active_names r2.1.2).
Proof.
  cbv zeta. do 6 (split; [by vm_compute|]).
  assert (Sched.active_names
            (Sched.createTask
               (Sched.createTask Sched.fresh (Some Sample.long_name)
                  64 2048 0 5 true (Some 101)).1.2 (Some Sample.long_name)
               65 2048 0 1 true (Some 102)).1.2
          = [str_take 31 Sample.long_name; str_take 31 Sample.long_name])
    as -> by (by vm_compute).
  intros [Hin _]%NoDup_cons. apply Hin. left.
Qed.

(** ** The facade and its lock *)

Lemma with_memory_same k m :
  Kern.memoryManager k = Some m → Kern.with_memory k m = k.
Proof. destruct k; simpl; intros ->; reflexivity. Qed.

Lemma allocate_leaves_facade_lock m sz t e :
  Forall (λ ev, is_take SystemMutex ev = false) (Mem.allocate m sz t e).2.
Proof.
  unfold Mem.allocate.
  destruct ((sz =? 0) || negb (Mem.memoryMutex m)); [constructor|].
  destruct (negb (Mem.lock_ok e)); [repeat constructor|].
  destruct (Mem.findFreeBlock m); [|repeat constructor].
  destruct (Mem.malloc_ret e =? 0); repeat constructor.
Qed.

Lemma free_leaves_facade_lock m p lock :
  Forall (λ ev, is_take SystemMutex ev = false) (Mem.free m p lock).2.
Proof.
  unfold Mem.free.
  destruct ((p =? 0) || negb (Mem.memoryMutex m)); [constructor|].
  destruct (negb lock); [repeat constructor|].
  destruct (Mem.findBlockByPtr m p) as [[slot b]|]; repeat constructor.
Qed.

(** C7, as stated, for [allocateMemory] and [freeMemory]: neither asks for
    the facade's semaphore, so the operation is carried out whoever holds
    it. *)
Lemma memory_operations_skip_facade_lock :
  let r := Kern.allocateMemory Kern.booted 100 (Sample.env 4096 10) in
  let f := Kern.freeMemory r.1.2 4096 true in
  Kern.systemMutex Kern.booted = true
  ∧ r.1.1 = 4096
  ∧ (Mem.totalAllocated <$> Kern.memoryManager r.1.2) = Some 100
  ∧ Forall (λ ev, is_take SystemMutex ev = false) r.2
  ∧ (Mem.totalAllocated <$> Kern.memoryManager f.1) = Some 0
  ∧ EvFree 4096 ∈ f.2
  ∧ Forall (λ ev, is_take SystemMutex ev = false) f.2.
Proof.
  vm_compute. split; [reflexivity|]. split; [reflexivity|].
  split; [reflexivity|]. split; [repeat constructor|].
  split; [reflexivity|]. split; [right; left | repeat constructor].
Qed.

(** C7, amended.  On an initialized kernel, [createTask], [deleteTask],
    [suspendTask] and [resumeTask] first ask for the facade's semaphore
    with a timeout of [LOCK_TIMEOUT] ticks, and when it does not arrive
    they do nothing else: the kernel is unchanged and the two [bool]
    operations return [false].  [allocateMemory] and [freeMemory] never ask
    for the facade's semaphore; they ask for the memory manager's own, with
    the same timeout, and when that one does not arrive they change
    nothing and [allocateMemory] returns null. *)
Theorem facade_bounded_wait k s m n fn stack params prio lock created sz e p :
  Kern.initialized k = true → Kern.systemMutex k = true →
  Kern.scheduler k = Some s → Kern.memoryManager k = Some m →
  Mem.memoryMutex m = true → sz ≠ 0 → p ≠ 0 →
  ((∀ sys, ∃ rest,
      (Kern.createTask k n fn stack params prio sys lock created).2
      = EvTake SystemMutex LOCK_TIMEOUT :: rest)
   ∧ Kern.createTask k n fn stack params prio false lock created
     = (false, k, [EvTake SystemMutex LOCK_TIMEOUT]))
  ∧ ((∀ sys, ∃ rest,
        (Kern.deleteTask k n sys lock).2
        = EvTake SystemMutex LOCK_TIMEOUT :: rest)
     ∧ Kern.deleteTask k n false lock
       = (false, k, [EvTake SystemMutex LOCK_TIMEOUT]))
  ∧ ((∀ sys, ∃ rest,
        (Kern.suspendTask k n sys lock).2
        = EvTake SystemMutex LOCK_TIMEOUT :: rest)
     ∧ Kern.suspendTask k n false lock
       = (k, [EvTake SystemMutex LOCK_TIMEOUT]))
  ∧ ((∀ sys, ∃ rest,
        (Kern.resumeTask k n sys lock).2
        = EvTake SystemMutex LOCK_TIMEOUT :: rest)
     ∧ Kern.resumeTask k n false lock
       = (k, [EvTake SystemMutex LOCK_TIMEOUT]))
  ∧ (Forall (λ ev, is_take SystemMutex ev = false)
       (Kern.allocateMemory k sz e).2
     ∧ (∃ rest, (Kern.allocateMemory k sz e).2
                = EvTake MemoryMutex LOCK_TIMEOUT :: rest)
     ∧ (Mem.lock_ok e = false →
        Kern.allocateMemory k sz e
        = (0, k, [EvTake MemoryMutex LOCK_TIMEOUT])))
  ∧ (∀ mem_lock,
       Forall (λ ev, is_take SystemMutex ev = false)
         (Kern.freeMemory k p mem_lock).2
       ∧ ∃ rest, (Kern.freeMemory k p mem_lock).2
                 = EvTake MemoryMutex LOCK_TIMEOUT :: rest)
  ∧ Kern.freeMemory k p false = (k, [EvTake MemoryMutex LOCK_TIMEOUT]).
Proof.
  intros Hini Hsys Hs Hm Hmx Hsz Hp.
  apply Z.eqb_neq in Hsz, Hp.
  unfold Kern.createTask, Kern.deleteTask, Kern.suspendTask, Kern.resumeTask,
    Kern.guarded, Kern.takeMutex.
  rewrite Hini, Hsys, Hs. simpl.
  split; [split; [|done]|].
  { intros []; [|by eexists].
    destruct (Sched.createTask _ _ _ _ _ _ _ _) as [[r s'] evs].
    by eexists. }
  split; [split; [|done]|].
  { intros []; [|by eexists].
    destruct (Sched.deleteTask _ _ _) as [[r s'] evs]. by eexists. }
  split; [split; [|done]|].
  { intros []; [|by eexists].
    destruct (Sched.suspendTask _ _ _) as [[r s'] evs]. by eexists. }
  split; [split; [|done]|].
  { intros []; [|by eexists].
    destruct (Sched.resumeTask _ _ _) as [[r s'] evs]. by eexists. }
  unfold Kern.allocateMemory, Kern.freeMemory. rewrite Hini, Hm, Hp. simpl.
  split; [split; [|split]|split].
  - pose proof (allocate_leaves_facade_lock m sz (Some "unknown"%string) e).
    by destruct (Mem.allocate _ _ _ _) as [[r m'] evs].
  - unfold Mem.allocate. rewrite Hsz, Hmx. simpl.
    destruct (Mem.lock_ok e); simpl; [|by eexists].
    destruct (Mem.findFreeBlock m); [|by eexists].
    destruct (Mem.malloc_ret e =? 0); by eexists.
  - intros Hlock. unfold Mem.allocate. rewrite Hsz, Hmx, Hlock. simpl.
    by rewrite with_memory_same.
  - intros mem_lock. split.
    + pose proof (free_leaves_facade_lock m p mem_lock).
      by destruct (Mem.free _ _ _) as [m' evs].
    + unfold Mem.free. rewrite Hp, Hmx. simpl.
      destruct mem_lock; simpl; [|by eexists].
      destruct (Mem.findBlockByPtr m p) as [[slot b]|]; by eexists.
  - unfold Mem.free. rewrite Hp, Hmx. simpl. by rewrite with_memory_same.
Qed.

Lemma facade_bounded_wait_witness :
  Kern.createTask Kern.booted (Some "worker"%string) 64 2048 0 5
                  false true (Some 101)
  = (false, Kern.booted, [EvTake SystemMutex LOCK_TIMEOUT])
  ∧ Kern.freeMemory Kern.booted 4096 false
    = (Kern.booted, [EvTake MemoryMutex LOCK_TIMEOUT]).
Proof.
  destruct (facade_bounded_wait Kern.booted Sched.fresh MemRun.initial
              (Some "worker"%string) 64 2048 0 5 true (Some 101)
              100 (Sample.env 4096 10) 4096
              eq_refl eq_refl eq_refl eq_refl eq_refl
              ltac:(discriminate) ltac:(discriminate))
    as ((_ & H1) & _ & _ & _ & _ & _ & H2).
  exact (conj H1 H2).
Defined.

(** * Further properties of the allocator *)

#[local] Arguments Mem.align_size : simpl never.

Lemma str_take_take a b s : str_take a (str_take b s) = str_take (a `min` b) s.
Proof.
  revert b s. induction a as [|a IH]; intros [|b] [|c s]; simpl; try done.
  by rewrite IH.
Qed.

(** The heap ledger over a concatenation of calls. *)
Lemma after_app h evs1 evs2 :
  Heap.after h (evs1 ++ evs2) = Heap.after (Heap.after h evs1) evs2.
Proof. apply foldl_app. Qed.

Lemma admits_app h evs1 evs2 :
  Heap.admits h (evs1 ++ evs2)
  ↔ Heap.admits h evs1 ∧ Heap.admits (Heap.after h evs1) evs2.
Proof.
  revert h. induction evs1 as [|e evs1 IH]; intros h; simpl; [tauto|].
  rewrite IH. unfold Heap.after. simpl. tauto.
Qed.

(** A lookup is not disturbed by a write to another slot of a value the
    lookup does not accept. *)
Lemma list_find_insert_other {A} (P : A → Prop) `{∀ x, Decision (P x)}
    (l : list A) i x j y :
  list_find P l = Some (i, x) → j ≠ i → ¬ P y →
  list_find P (<[j := y]> l) = Some (i, x).
Proof.
  intros (Hi & HP & Hlt)%list_find_Some Hne Hy. apply list_find_Some.
  split; [by rewrite list_lookup_insert_ne|]. split; [done|].
  intros k z Hk Hki. destruct (decide (k = j)) as [-> | Hkj].
  - apply list_lookup_insert_Some in Hk as [(_ & <- & _) | [? _]]; done.
  - rewrite list_lookup_insert_ne in Hk by done. eauto.
Qed.

Lemma tidy_initial : MemAdmin.tidy MemRun.initial.
Proof.
  split; [reflexivity|]. simpl. repeat constructor.
Qed.

Lemma tidy_allocate m sz t e :
  MemAdmin.tidy m → MemAdmin.tidy (Mem.allocate m sz t e).1.2.
Proof.
  intros [Hlen Hall]. unfold Mem.allocate.
  destruct ((sz =? 0) || negb (Mem.memoryMutex m)); [by split|].
  destruct (negb (Mem.lock_ok e)); [by split|].
  destruct (Mem.findFreeBlock m) as [slot|]; [|by split].
  destruct (Mem.malloc_ret e =? 0) eqn:Hp; [by split|].
  apply Z.eqb_neq in Hp. split; simpl.
  - by rewrite length_insert.
  - apply Forall_insert; [done|]. simpl. split; [done|].
    unfold strncpy. rewrite str_take_length. lia.
Qed.

Lemma tidy_free m p lock :
  MemAdmin.tidy m → MemAdmin.tidy (Mem.free m p lock).1.
Proof.
  intros [Hlen Hall]. unfold Mem.free.
  destruct ((p =? 0) || negb (Mem.memoryMutex m)); [by split|].
  destruct (negb lock); [by split|].
  destruct (Mem.findBlockByPtr m p) as [[slot b]|]; [|by split].
  split; simpl; [by rewrite length_insert | by apply Forall_insert].
Qed.

(** [allocate] and [free] keep the semaphore. *)
Lemma allocate_mutex m sz t e :
  Mem.memoryMutex (Mem.allocate m sz t e).1.2 = Mem.memoryMutex m.
Proof.
  unfold Mem.allocate.
  destruct ((sz =? 0) || negb (Mem.memoryMutex m)); [done|].
  destruct (negb (Mem.lock_ok e)); [done|].
  destruct (Mem.findFreeBlock m); [|done].
  by destruct (Mem.malloc_ret e =? 0).
Qed.

Lemma free_mutex m p lock :
  Mem.memoryMutex (Mem.free m p lock).1 = Mem.memoryMutex m.
Proof.
  unfold Mem.free.
  destruct ((p =? 0) || negb (Mem.memoryMutex m)); [done|].
  destruct (negb lock); [done|].
  by destruct (Mem.findBlockByPtr m p) as [[slot b]|].
Qed.

(** [reallocate] is one of: a [free], an [allocate], nothing, an
    [allocate] alone, or an [allocate] followed by a [free]. *)
Lemma reallocate_cases m p n r q m' evs :
  Mem.reallocate m p n r = Some (q, m', evs) →
  (∃ lock, m' = (Mem.free m p lock).1 ∧ evs = (Mem.free m p lock).2)
  ∨ (∃ t e, m' = (Mem.allocate m n t e).1.2
            ∧ evs = (Mem.allocate m n t e).2)
  ∨ (m' = m ∧ Forall (λ ev, is_malloc ev = false ∧ is_free ev = false) evs)
  ∨ (∃ t e pre, Forall (λ ev, is_malloc ev = false ∧ is_free ev = false) pre
       ∧ m' = (Mem.allocate m n t e).1.2
       ∧ evs = pre ++ (Mem.allocate m n t e).2)
  ∨ (∃ t e lock pre mid,
       Forall (λ ev, is_malloc ev = false ∧ is_free ev = false) pre
       ∧ Forall (λ ev, is_malloc ev = false ∧ is_free ev = false) mid
       ∧ m' = (Mem.free (Mem.allocate m n t e).1.2 p lock).1
       ∧ evs = pre ++ (Mem.allocate m n t e).2 ++ mid
               ++ (Mem.free (Mem.allocate m n t e).1.2 p lock).2).
Proof.
  unfold Mem.reallocate.
  destruct (n =? 0).
  { destruct (Mem.free m p (Mem.sem r 0)) as [m1 e1] eqn:E.
    intros [= <- <- <-]. left. exists (Mem.sem r 0). by rewrite E. }
  destruct (p =? 0).
  { intros [= Hrun]. right; left. eexists _, _. by rewrite Hrun. }
  destruct (negb (Mem.memoryMutex m)); [done|].
  destruct (negb (Mem.sem r 0)).
  { intros [= <- <- <-]. right; right; left.
    split; [done | repeat constructor]. }
  destruct (Mem.findBlockByPtr m p) as [[slot b]|].
  2:{ intros [= <- <- <-]. right; right; left.
      split; [done | repeat constructor]. }
  destruct (Mem.allocate m n _ (Mem.alloc_env r 1)) as [[q1 m1] evs1] eqn:Ea.
  destruct (q1 =? 0).
  { intros [= <- <- <-]. right; right; right; left.
    eexists _, _, [EvTake MemoryMutex LOCK_TIMEOUT; EvGive MemoryMutex].
    rewrite Ea. simpl. split; [repeat constructor | done]. }
  destruct (Mem.free m1 p (Mem.sem r 2)) as [m2 evs2] eqn:Ef.
  intros [= <- <- <-]. right; right; right; right.
  eexists _, _, (Mem.sem r 2),
    [EvTake MemoryMutex LOCK_TIMEOUT; EvGive MemoryMutex],
    [EvMemcpy q1 p (if Mem.size b <? n then Mem.size b else n)].
  rewrite Ea. simpl. rewrite Ef. simpl.
  split; [repeat constructor|]. split; [repeat constructor|]. done.
Qed.

(** Calls that are neither [malloc] nor [::free] leave the ledger alone. *)
Lemma after_neutral h evs :
  Forall (λ ev, is_malloc ev = false ∧ is_free ev = false) evs →
  Heap.after h evs = h.
Proof.
  induction 1 as [|ev evs [Hm Hf] _ IH]; [done|].
  unfold Heap.after in *. simpl. by destruct ev.
Qed.

Lemma admits_neutral h evs :
  Forall (λ ev, is_malloc ev = false ∧ is_free ev = false) evs →
  Heap.admits h evs.
Proof.
  intros Hall. revert h. induction Hall as [|ev evs [Hm Hf] _ IH]; [done|].
  intros h. simpl. split; [by destruct ev|].
  destruct ev; simpl in *; try done; apply IH.
Qed.

Lemma accounted_reallocate m h p n r q m' evs :
  MemRun.accounted m h → Mem.reallocate m p n r = Some (q, m', evs) →
  Heap.admits h evs → MemRun.accounted m' (Heap.after h evs).
Proof.
  intros Hacc Hrun Hadm.
  destruct (reallocate_cases _ _ _ _ _ _ _ Hrun)
    as [(lock & -> & ->)
       | [(t & e & -> & ->)
         | [(-> & Hn)
           | [(t & e & pre & Hpre & -> & ->)
             | (t & e & lock & pre & mid & Hpre & Hmid & -> & ->)]]]].
  - by apply accounted_free.
  - by apply accounted_allocate.
  - by rewrite after_neutral.
  - apply admits_app in Hadm as [_ Hadm].
    rewrite after_app, (after_neutral h pre) in * by done.
    by apply accounted_allocate.
  - apply admits_app in Hadm as [_ Hadm].
    rewrite (after_neutral h pre) in Hadm by done.
    apply admits_app in Hadm as [Hadm _].
    rewrite !after_app, (after_neutral h pre), (after_neutral _ mid) by done.
    apply accounted_free. by apply accounted_allocate.
Qed.

Lemma tidy_reallocate m p n r q m' evs :
  MemAdmin.tidy m → Mem.reallocate m p n r = Some (q, m', evs) →
  MemAdmin.tidy m'.
Proof.
  intros Ht Hrun.
  destruct (reallocate_cases _ _ _ _ _ _ _ Hrun)
    as [(lock & -> & ->)
       | [(t & e & -> & ->)
         | [(-> & Hn)
           | [(t & e & pre & Hpre & -> & ->)
             | (t & e & lock & pre & mid & Hpre & Hmid & -> & ->)]]]];
    auto using tidy_free, tidy_allocate.
Qed.

Lemma reallocate_mutex m p n r q m' evs :
  Mem.reallocate m p n r = Some (q, m', evs) →
  Mem.memoryMutex m' = Mem.memoryMutex m.
Proof.
  intros Hrun.
  destruct (reallocate_cases _ _ _ _ _ _ _ Hrun)
    as [(lock & -> & ->)
       | [(t & e & -> & ->)
         | [(-> & Hn)
           | [(t & e & pre & Hpre & -> & ->)
             | (t & e & lock & pre & mid & Hpre & Hmid & -> & ->)]]]];
    by rewrite ?free_mutex, ?allocate_mutex.
Qed.

(** On a manager with a semaphore [reallocate] always has a result. *)
Lemma reallocate_defined m p n r :
  Mem.memoryMutex m = true → is_Some (Mem.reallocate m p n r).
Proof.
  intros Hmx. unfold Mem.reallocate. rewrite Hmx. simpl.
  destruct (n =? 0); [by destruct (Mem.free m p (Mem.sem r 0))|].
  destruct (p =? 0); [done|].
  destruct (negb (Mem.sem r 0)); [done|].
  destruct (Mem.findBlockByPtr m p) as [[slot b]|]; [|done].
  destruct (Mem.allocate m n _ _) as [[q1 m1] evs1].
  destruct (q1 =? 0); [done|]. by destruct (Mem.free m1 p (Mem.sem r 2)).
Qed.

(** What a successful [allocate] and a successful [free] do. *)
Lemma allocate_success m sz t e slot :
  sz ≠ 0 → Mem.memoryMutex m = true → Mem.lock_ok e = true →
  Mem.findFreeBlock m = Some slot → Mem.malloc_ret e ≠ 0 →
  Mem.allocate m sz t e =
    (Mem.malloc_ret e,
     {| Mem.blocks :=
          <[slot := {| Mem.ptr := Mem.malloc_ret e;
                       Mem.size := Mem.align_size sz;
                       Mem.allocated := true;
                       Mem.timestamp := Mem.millis e;
                       Mem.tag := strncpy (Mem.tag_or_unknown t) 15 |}]>
            (Mem.blocks m);
        Mem.memoryMutex := true;
        Mem.totalAllocated :=
          wrap32 (Mem.totalAllocated m + Mem.align_size sz);
        Mem.peakAllocated :=
          if Mem.peakAllocated m
             <? wrap32 (Mem.totalAllocated m + Mem.align_size sz)
          then wrap32 (Mem.totalAllocated m + Mem.align_size sz)
          else Mem.peakAllocated m;
        Mem.allocationCount := wrap32 (Mem.allocationCount m + 1);
        Mem.freeCount := Mem.freeCount m |},
     [EvTake MemoryMutex LOCK_TIMEOUT;
      EvMalloc (Mem.align_size sz) (Mem.malloc_ret e);
      EvGive MemoryMutex;
      EvPrint (PStr "MemoryManager: Allocated ");
      EvPrint (PNum (Mem.align_size sz)); EvPrint (PStr " bytes at 0x");
      EvPrint (PHex (Mem.malloc_ret e)); EvPrint (PStr " (tag: ");
      EvPrint (PStr (Mem.tag_or_unknown t)); EvPrintln (PStr ")")]).
Proof.
  intros Hsz Hmx Hlock Hslot Hp. apply Z.eqb_neq in Hsz, Hp.
  unfold Mem.allocate. by rewrite Hsz, Hmx, Hlock, Hslot, Hp.
Qed.

Lemma free_success m p slot b :
  p ≠ 0 → Mem.memoryMutex m = true →
  Mem.findBlockByPtr m p = Some (slot, b) →
  Mem.free m p true =
    ({| Mem.blocks := <[slot := Mem.cleared]> (Mem.blocks m);
        Mem.memoryMutex := true;
        Mem.totalAllocated := wrap32 (Mem.totalAllocated m - Mem.size b);
        Mem.peakAllocated := Mem.peakAllocated m;
        Mem.allocationCount := Mem.allocationCount m;
        Mem.freeCount := wrap32 (Mem.freeCount m + 1) |},
     [EvTake MemoryMutex LOCK_TIMEOUT; EvFree p;
      EvPrint (PStr "MemoryManager: Freed ");
      EvPrint (PNum (Mem.size b)); EvPrint (PStr " bytes at 0x");
      EvPrint (PHex p); EvPrint (PStr " (tag: ");
      EvPrint (PStr (Mem.tag b)); EvPrintln (PStr ")");
      EvGive MemoryMutex]).
Proof.
  intros Hp Hmx Hfind. apply Z.eqb_neq in Hp.
  unfold Mem.free. by rewrite Hp, Hmx, Hfind.
Qed.

(** The old record is still the one found after the new one is written. *)
Lemma findBlockByPtr_after_allocate m p slot b slot' nb c1 c2 c3 c4 :
  Mem.findBlockByPtr m p = Some (slot, b) →
  Mem.findFreeBlock m = Some slot' → Mem.ptr nb ≠ p →
  Mem.findBlockByPtr
    {| Mem.blocks := <[slot' := nb]> (Mem.blocks m); Mem.memoryMutex := true;
       Mem.totalAllocated := c1; Mem.peakAllocated := c2;
       Mem.allocationCount := c3; Mem.freeCount := c4 |} p
  = Some (slot, b).
Proof.
  intros Hfind Hslot Hnb. unfold Mem.findBlockByPtr. simpl.
  apply list_find_insert_other; [done| |tauto].
  unfold Mem.findFreeBlock in Hslot.
  destruct (list_find _ _) as [[i x]|] eqn:Hfree; simplify_eq/=.
  apply list_find_Some in Hfree as (Hi & Hx & _).
  apply list_find_Some in Hfind as (Hs & [Hb _] & _).
  intros ->. congruence.
Qed.

(** X1.  [reallocate] of a pointer a live record holds, with a slot free
    and everything going well: the block is moved, never resized in place.
    [malloc] is asked for the rounded new size, [min (old size, new size)]
    bytes are copied, the old pointer is handed to [::free], in this
    order; the new record takes the lowest free slot and the old tag, the
    slot of the old record is cleared. *)
Theorem reallocate_moves_block m p n r slot b slot' :
  Mem.memoryMutex m = true → p ≠ 0 → n ≠ 0 →
  Mem.sem r 0%nat = true → Mem.sem r 1%nat = true → Mem.sem r 2%nat = true →
  Table.tracks m p slot b →
  Table.lowest_free m slot' →
  Mem.heap_ret r ≠ 0 → Mem.heap_ret r ≠ p →
  ∃ m' evs,
    Mem.reallocate m p n r = Some (Mem.heap_ret r, m', evs)
    ∧ Mem.blocks m' =
        <[slot := Mem.cleared]>
          (<[slot' := {| Mem.ptr := Mem.heap_ret r;
                         Mem.size := Mem.align_size n;
                         Mem.allocated := true;
                         Mem.timestamp := Mem.clock r;
                         Mem.tag := str_take 15 (Mem.tag b) |}]>
             (Mem.blocks m))
    ∧ slot ≠ slot'
    ∧ Mem.totalAllocated m' =
        wrap32 (wrap32 (Mem.totalAllocated m + Mem.align_size n) - Mem.size b)
    ∧ Mem.allocationCount m' = wrap32 (Mem.allocationCount m + 1)
    ∧ Mem.freeCount m' = wrap32 (Mem.freeCount m + 1)
    ∧ filter (λ ev, MemAdmin.heap_call ev = true) evs
      = [EvMalloc (Mem.align_size n) (Mem.heap_ret r);
         EvMemcpy (Mem.heap_ret r) p (Mem.size b `min` n);
         EvFree p].
Proof.
  intros Hmx Hp Hn H0 H1 H2 Hfind%tracks_find Hslot%lowest_free_find Hq Hqp.
  assert (slot ≠ slot') as Hne.
  { unfold Mem.findFreeBlock in Hslot.
    destruct (list_find _ _) as [[i x]|] eqn:Hfree; simplify_eq/=.
    apply list_find_Some in Hfree as (Hi & Hx & _).
    apply list_find_Some in Hfind as Hf. destruct Hf as (Hs & [Hb _] & _).
    intros ->. congruence. }
  unfold Mem.reallocate.
  assert ((n =? 0) = false) as -> by by apply Z.eqb_neq.
  assert ((p =? 0) = false) as -> by by apply Z.eqb_neq.
  rewrite Hmx, H0, Hfind. simpl.
  rewrite (allocate_success m n _ (Mem.alloc_env r 1) slot') by done.
  simpl. assert ((Mem.heap_ret r =? 0) = false) as -> by by apply Z.eqb_neq.
  rewrite H2.
  erewrite free_success;
    [|done|done|by apply findBlockByPtr_after_allocate].
  eexists _, _. split; [reflexivity|]. simpl.
  unfold strncpy. rewrite str_take_take.
  repeat split; try done.
  destruct (Z.ltb_spec (Mem.size b) n); [rewrite Z.min_l | rewrite Z.min_r];
    try lia; reflexivity.
Qed.

Lemma reallocate_moves_block_witness :
  ∃ m' evs,
    Mem.reallocate Sample.two 8192 200 Sample.renv = Some (12288, m', evs)
    ∧ Mem.totalAllocated m' = 300.
Proof.
  assert (Table.tracks Sample.two 8192 1
            {| Mem.ptr := 8192; Mem.size := 52; Mem.allocated := true;
               Mem.timestamp := 20; Mem.tag := "x" |}) as Htr.
  { split; [reflexivity|]. split; [reflexivity|]. split; [reflexivity|].
    intros j x Hj Hlt [_ Hp]. assert (j = 0%nat) as -> by lia.
    vm_compute in Hj. by simplify_eq. }
  assert (Table.lowest_free Sample.two 2) as Hfree.
  { split; [by exists Mem.cleared|]. intros j x Hj Hlt.
    destruct j as [|[|j]]; [| |lia]; vm_compute in Hj; by simplify_eq. }
  destruct (reallocate_moves_block Sample.two 8192 200 Sample.renv 1%nat _
              2%nat eq_refl ltac:(discriminate) ltac:(discriminate)
              eq_refl eq_refl eq_refl Htr Hfree
              ltac:(discriminate) ltac:(discriminate))
    as (m' & evs & Hrun & _ & _ & Htot & _).
  exists m', evs. split; [exact Hrun|]. rewrite Htot. reflexivity.
Defined.

(** X2.  [reallocate] to a non-zero size fails, returning null and leaving
    the manager as it was (nothing is copied and nothing handed to
    [::free]), when no live record holds the pointer, when every record
    of the table is live, when [malloc] returns null, or when the
    semaphore does not arrive for the lookup or for the allocation.  In
    particular a block cannot be moved while the table is full: the new
    record is made before the old one is released. *)
Theorem reallocate_failure_keeps_block m p n r :
  Mem.memoryMutex m = true → p ≠ 0 → n ≠ 0 →
  Table.untracked m p
  ∨ Forall (λ b, Mem.allocated b = true) (Mem.blocks m)
  ∨ Mem.heap_ret r = 0 ∨ Mem.sem r 0%nat = false ∨ Mem.sem r 1%nat = false →
  ∃ evs,
    Mem.reallocate m p n r = Some (0, m, evs)
    ∧ Forall (λ ev, is_free ev = false) evs
    ∧ Forall (λ ev, match ev with EvMemcpy _ _ _ => False | _ => True end)
        evs.
Proof.
  intros Hmx Hp Hn Hcase. apply Z.eqb_neq in Hp, Hn.
  unfold Mem.reallocate. rewrite Hn, Hp, Hmx. simpl.
  destruct (Mem.sem r 0) eqn:H0; simpl;
    [|eexists; split; [done|]; split; repeat constructor].
  destruct (Mem.findBlockByPtr m p) as [[slot b]|] eqn:Hfind;
    [|eexists; split; [done|]; split; repeat constructor].
  unfold Mem.allocate. rewrite Hn, Hmx. simpl.
  destruct (Mem.sem r 1) eqn:H1; simpl;
    [|eexists; split; [done|]; split; repeat constructor].
  destruct (Mem.findFreeBlock m) as [slot'|] eqn:Hslot; simpl;
    [|eexists; split; [done|]; split; repeat constructor].
  destruct (Mem.heap_ret r =? 0) eqn:Hq; simpl;
    [eexists; split; [done|]; split; repeat constructor|].
  apply Z.eqb_neq in Hq. exfalso.
  destruct Hcase as [Hun%untracked_find|[Hfull%full_find|[?|[?|?]]]];
    congruence.
Qed.

Lemma reallocate_failure_keeps_block_witness :
  ∃ evs, Mem.reallocate Sample.full 4096 64 Sample.renv
         = Some (0, Sample.full, evs).
Proof.
  assert (Forall (λ b, Mem.allocated b = true) (Mem.blocks Sample.full))
    as Hall by (vm_compute; repeat constructor).
  destruct (reallocate_failure_keeps_block Sample.full 4096 64 Sample.renv
              eq_refl ltac:(discriminate) ltac:(discriminate)
              (or_intror (or_introl Hall)))
    as (evs & H & _).
  by exists evs.
Defined.

(** X3.  When the new block has been allocated and the data copied but the
    semaphore does not arrive for the final [free], [reallocate] still
    returns the new pointer: the old block stays tracked and allocated,
    next to the new one. *)
Theorem reallocate_keeps_old_block_on_timeout m p n r slot b slot' :
  Mem.memoryMutex m = true → p ≠ 0 → n ≠ 0 →
  Mem.sem r 0%nat = true → Mem.sem r 1%nat = true → Mem.sem r 2%nat = false →
  Mem.findBlockByPtr m p = Some (slot, b) →
  Mem.findFreeBlock m = Some slot' →
  Mem.heap_ret r ≠ 0 → Mem.findBlockByPtr m (Mem.heap_ret r) = None →
  ∃ m' evs,
    Mem.reallocate m p n r = Some (Mem.heap_ret r, m', evs)
    ∧ Mem.findBlockByPtr m' p = Some (slot, b)
    ∧ (∃ nb, Mem.findBlockByPtr m' (Mem.heap_ret r) = Some (slot', nb)
             ∧ Mem.size nb = Mem.align_size n)
    ∧ Mem.totalAllocated m'
      = wrap32 (Mem.totalAllocated m + Mem.align_size n)
    ∧ Mem.freeCount m' = Mem.freeCount m
    ∧ Forall (λ ev, is_free ev = false) evs.
Proof.
  intros Hmx Hp Hn H0 H1 H2 Hfind Hslot Hq Hnew.
  assert (Mem.heap_ret r ≠ p) as Hqp by congruence.
  unfold Mem.reallocate.
  assert ((n =? 0) = false) as -> by by apply Z.eqb_neq.
  assert ((p =? 0) = false) as Hpz by by apply Z.eqb_neq.
  rewrite Hpz, Hmx, H0, Hfind. simpl.
  rewrite (allocate_success m n _ (Mem.alloc_env r 1) slot') by done.
  simpl. assert ((Mem.heap_ret r =? 0) = false) as -> by by apply Z.eqb_neq.
  rewrite H2. unfold Mem.free. simpl. rewrite Hpz. simpl.
  eexists _, _. split; [reflexivity|].
  split; [by apply findBlockByPtr_after_allocate|].
  split; [|repeat split; repeat constructor].
  eexists. split.
  - unfold Mem.findBlockByPtr. simpl. apply list_find_Some.
    unfold Mem.findFreeBlock in Hslot.
    destruct (list_find _ _) as [[i x]|] eqn:Hfree; simplify_eq/=.
    apply list_find_Some in Hfree as (Hi & Hx & Hbefore).
    split; [apply list_lookup_insert_eq; by eapply lookup_lt_Some|].
    split; [done|]. intros j y Hj Hlt [Hy1 Hy2].
    rewrite list_lookup_insert_ne in Hj by lia.
    apply list_find_None in Hnew.
    by apply (proj1 (Forall_lookup _ _) Hnew j y Hj).
  - reflexivity.
Qed.

Lemma reallocate_keeps_old_block_on_timeout_witness :
  ∃ m' evs,
    Mem.reallocate Sample.two 4096 200 Sample2.late = Some (12288, m', evs)
    ∧ Mem.totalAllocated m' = 352.
Proof.
  destruct (reallocate_keeps_old_block_on_timeout Sample.two 4096 200
              Sample2.late 0%nat
              {| Mem.ptr := 4096; Mem.size := 100; Mem.allocated := true;
                 Mem.timestamp := 10; Mem.tag := "buf" |} 2%nat
              eq_refl ltac:(discriminate) ltac:(discriminate)
              eq_refl eq_refl eq_refl eq_refl eq_refl
              ltac:(discriminate) eq_refl)
    as (m' & evs & Hrun & _ & _ & Htot & _).
  exists m', evs. split; [exact Hrun|]. rewrite Htot. reflexivity.
Defined.

(** ** Sequences with [reallocate] *)

Lemma accounted_run3 ops : ∀ m h,
  MemRun.accounted m h → MemAdmin.tidy m → Mem.memoryMutex m = true →
  MemRun3.feasible m h ops →
  ∃ m' h', MemRun3.run_all m h ops = Some (m', h')
           ∧ MemRun.accounted m' h' ∧ MemAdmin.tidy m'
           ∧ Mem.memoryMutex m' = true.
Proof.
  induction ops as [|op ops IH]; intros m h Hacc Ht Hmx Hf.
  { by exists m, h. }
  destruct Hf as [_ Hf]. simpl. destruct op as [sz t e | p lock | p n r].
  - simpl in *.
    pose proof (accounted_allocate m h sz t e Hacc) as Ha.
    pose proof (tidy_allocate m sz t e Ht) as Ht1.
    pose proof (allocate_mutex m sz t e) as Hm1.
    destruct (Mem.allocate m sz t e) as [[q m1] evs]. simpl in *.
    destruct Hf as [Hadm Hrest]. apply IH; auto. congruence.
  - simpl in *.
    pose proof (accounted_free m h p lock Hacc) as Ha.
    pose proof (tidy_free m p lock Ht) as Ht1.
    pose proof (free_mutex m p lock) as Hm1.
    destruct (Mem.free m p lock) as [m1 evs]. simpl in *.
    destruct Hf as [Hadm Hrest]. apply IH; auto. congruence.
  - simpl in *.
    destruct (reallocate_defined m p n r Hmx) as [[[q m1] evs] Hrun].
    rewrite Hrun in *. destruct Hf as [Hadm Hrest].
    apply IH; eauto using accounted_reallocate, tidy_reallocate.
    rewrite (reallocate_mutex _ _ _ _ _ _ _ Hrun). done.
Qed.

(** X4.  The counters stay right when blocks are moved: after every
    sequence of [allocate], [free] and [reallocate] calls on an
    initialized manager (the heap answering as a heap can), every call
    has a defined result, [totalAllocated] is the sum of the sizes of the
    live records and [peakAllocated] is not below it. *)
Theorem total_is_live_sum_with_reallocate (ops : list MemRun3.Op) :
  MemRun3.feasible MemRun.initial [] ops →
  ∃ m h,
    MemRun3.run_all MemRun.initial [] ops = Some (m, h)
    ∧ Mem.totalAllocated m = Mem.live_bytes (Mem.blocks m)
    ∧ Mem.totalAllocated m ≤ Mem.peakAllocated m.
Proof.
  intros Hf.
  destruct (accounted_run3 ops _ _ accounted_initial tidy_initial eq_refl Hf)
    as (m & h & Hrun & [Hrec _ _ _ Htot Hpk] & _ & _).
  exists m, h. split; [done|]. split; [|done].
  by rewrite Htot, live_bytes_pairs, (bytes_perm _ _ Hrec).
Qed.

Ltac eval_calls3 :=
  repeat match goal with
         | |- context [MemRun3.run ?m ?op] =>
             let r := fresh "r" in
             set (r := MemRun3.run m op); vm_compute in r; subst r;
             cbv beta iota
         | |- context [Heap.after ?h ?evs] =>
             let r := fresh "r" in
             set (r := Heap.after h evs); vm_compute in r; subst r
         end.

Lemma sample2_calls_feasible :
  MemRun3.feasible MemRun.initial [] Sample2.calls.
Proof.
  unfold Sample2.calls.
  cbn [MemRun3.feasible MemRun3.in_range]. eval_calls3.
  cbn [MemRun3.feasible MemRun3.in_range]. eval_calls3.
  cbn [MemRun3.feasible MemRun3.in_range]. eval_calls3.
  cbn [Heap.admits Heap.step].
  repeat split; try lia; heap_answer.
Defined.

Lemma total_is_live_sum_with_reallocate_witness :
  ∃ m h,
    MemRun3.run_all MemRun.initial [] Sample2.calls = Some (m, h)
    ∧ Mem.totalAllocated m = Mem.live_bytes (Mem.blocks m)
    ∧ Mem.totalAllocated m ≤ Mem.peakAllocated m.
Proof.
  exact (total_is_live_sum_with_reallocate Sample2.calls
           sample2_calls_feasible).
Defined.

Lemma live_pairs_pointers bs :
  (MemRun.live_pairs bs).*1 = Mem.ptr <$> MemAdmin.live bs.
Proof.
  induction bs as [|b bs IH]; [done|].
  unfold MemRun.live_pairs, MemAdmin.live in *.
  rewrite bind_cons, fmap_app, IH, filter_cons.
  destruct (Mem.allocated b) eqn:E; by case_decide.
Qed.

(** X5.  No two live records share a pointer, no live record holds the
    null pointer, and the table keeps its [MAX_MEMORY_BLOCKS] slots, after
    every sequence of [allocate], [free] and [reallocate] calls on an
    initialized manager (the heap answering as a heap can). *)
Theorem live_pointers_distinct (ops : list MemRun3.Op) :
  MemRun3.feasible MemRun.initial [] ops →
  ∃ m h,
    MemRun3.run_all MemRun.initial [] ops = Some (m, h)
    ∧ NoDup (Mem.ptr <$> MemAdmin.live (Mem.blocks m))
    ∧ Forall (λ b, Mem.ptr b ≠ 0) (MemAdmin.live (Mem.blocks m))
    ∧ length (Mem.blocks m) = MAX_MEMORY_BLOCKS
    ∧ (length (MemAdmin.live (Mem.blocks m)) ≤ MAX_MEMORY_BLOCKS)%nat.
Proof.
  intros Hf.
  destruct (accounted_run3 ops _ _ accounted_initial tidy_initial eq_refl Hf)
    as (m & h & Hrun & [Hrec Hnd _ _ _ _] & [Hlen Hall] & _).
  exists m, h. split; [done|]. split; [|split; [|split; [done|]]].
  - rewrite <- live_pairs_pointers. by rewrite Hrec.
  - apply Forall_forall. intros b [Hb Hin]%list_elem_of_filter.
    pose proof (proj1 (Forall_forall _ _) Hall b Hin) as H.
    simpl in H. rewrite Hb in H. tauto.
  - rewrite <- Hlen. apply length_filter.
Qed.

Lemma live_pointers_distinct_witness :
  ∃ m h,
    MemRun3.run_all MemRun.initial [] Sample2.calls = Some (m, h)
    ∧ NoDup (Mem.ptr <$> MemAdmin.live (Mem.blocks m)).
Proof.
  destruct (live_pointers_distinct Sample2.calls sample2_calls_feasible)
    as (m & h & H1 & H2 & _).
  by exists m, h.
Defined.

(** ** Counting the live records *)

Lemma live_length_pairs bs :
  length (MemAdmin.live bs) = length (MemRun.live_pairs bs).
Proof.
  rewrite <- (length_fmap fst (MemRun.live_pairs bs)), live_pairs_pointers.
  by rewrite length_fmap.
Qed.

Lemma live_length_occupy bs i b b' :
  bs !! i = Some b → Mem.allocated b = false → Mem.allocated b' = true →
  length (MemAdmin.live (<[i := b']> bs)) = S (length (MemAdmin.live bs)).
Proof.
  intros Hi Hb Hb'. rewrite !live_length_pairs.
  by rewrite (live_pairs_occupy bs i b b' Hi Hb Hb').
Qed.

Lemma live_length_release bs i b :
  bs !! i = Some b → Mem.allocated b = true →
  length (MemAdmin.live bs)
  = S (length (MemAdmin.live (<[i := Mem.cleared]> bs))).
Proof.
  intros Hi Hb. rewrite !live_length_pairs.
  by rewrite (live_pairs_release bs i b Hi Hb).
Qed.

Lemma wrap32_sub_congr a b c :
  wrap32 (wrap32 a - b) = wrap32 (a - b)
  ∧ wrap32 (a - wrap32 b) = wrap32 (a - b)
  ∧ (wrap32 (a - b) = c → wrap32 (a + 1 - b) = wrap32 (c + 1))
  ∧ (wrap32 (a - b) = c → wrap32 (a - (b + 1)) = wrap32 (c - 1)).
Proof.
  unfold wrap32. repeat split.
  - apply Zminus_mod_idemp_l.
  - apply Zminus_mod_idemp_r.
  - intros <-. rewrite Zplus_mod_idemp_l. f_equal. lia.
  - intros <-. rewrite Zminus_mod_idemp_l. f_equal. lia.
Qed.

Lemma live_small bs :
  length bs = MAX_MEMORY_BLOCKS →
  0 ≤ Z.of_nat (length (MemAdmin.live bs)) < 2 ^ 32.
Proof.
  intros Hlen. pose proof (length_filter (λ b, Mem.allocated b = true) bs).
  unfold MemAdmin.live. unfold MAX_MEMORY_BLOCKS in Hlen. lia.
Qed.

Lemma counts_live_allocate m sz t e :
  MemAdmin.counts_live m → MemAdmin.counts_live (Mem.allocate m sz t e).1.2.
Proof.
  intros [Hlen Hc]. unfold Mem.allocate.
  destruct ((sz =? 0) || negb (Mem.memoryMutex m)); [by split|].
  destruct (negb (Mem.lock_ok e)); [by split|].
  destruct (Mem.findFreeBlock m) as [slot|] eqn:Hslot; [|by split].
  destruct (Mem.malloc_ret e =? 0); [by split|].
  unfold Mem.findFreeBlock in Hslot.
  destruct (list_find _ _) as [[i b]|] eqn:Hfind; simplify_eq/=.
  apply list_find_Some in Hfind as (Hi & Hb & _).
  split; simpl; [by rewrite length_insert|].
  match goal with
  | |- context [<[slot := ?nb]> _] =>
      rewrite (live_length_occupy _ _ b nb Hi Hb eq_refl)
  end.
  destruct (wrap32_sub_congr (Mem.allocationCount m + 1) (Mem.freeCount m) 0)
    as (-> & _).
  destruct (wrap32_sub_congr (Mem.allocationCount m) (Mem.freeCount m)
              (Z.of_nat (length (MemAdmin.live (Mem.blocks m)))))
    as (_ & _ & -> & _); [|done].
  assert (0 ≤ Z.of_nat (S (length (MemAdmin.live (Mem.blocks m)))) < 2 ^ 32)
    as Hs.
  { rewrite <- (live_length_occupy _ slot b
                  {| Mem.ptr := 0; Mem.size := 0; Mem.allocated := true;
                     Mem.timestamp := 0; Mem.tag := EmptyString |} Hi Hb
                  eq_refl).
    apply live_small. by rewrite length_insert. }
  rewrite wrap32_small; lia.
Qed.

Lemma counts_live_free m p lock :
  MemAdmin.counts_live m → MemAdmin.counts_live (Mem.free m p lock).1.
Proof.
  intros [Hlen Hc]. unfold Mem.free.
  destruct ((p =? 0) || negb (Mem.memoryMutex m)); [by split|].
  destruct (negb lock); [by split|].
  destruct (Mem.findBlockByPtr m p) as [[slot b]|] eqn:Hfind; [|by split].
  apply list_find_Some in Hfind as (Hi & [Hb _] & _).
  split; simpl; [by rewrite length_insert|].
  pose proof (live_length_release _ _ _ Hi Hb) as Hrel.
  destruct (wrap32_sub_congr (Mem.allocationCount m) (Mem.freeCount m + 1) 0)
    as (_ & -> & _).
  destruct (wrap32_sub_congr (Mem.allocationCount m) (Mem.freeCount m)
              (Z.of_nat (length (MemAdmin.live (Mem.blocks m)))))
    as (_ & _ & _ & ->); [|done].
  pose proof (live_small (<[slot:=Mem.cleared]> (Mem.blocks m))
                ltac:(by rewrite length_insert)).
  rewrite wrap32_small; lia.
Qed.

Lemma counts_live_run3 ops : ∀ m h,
  MemAdmin.counts_live m → Mem.memoryMutex m = true →
  ∃ m' h', MemRun3.run_all m h ops = Some (m', h') ∧ MemAdmin.counts_live m'
           ∧ Mem.memoryMutex m' = true.
Proof.
  induction ops as [|op ops IH]; intros m h Hc Hmx; [by exists m, h|].
  simpl. destruct op as [sz t e | p lock | p n r]; simpl.
  - pose proof (counts_live_allocate m sz t e Hc) as H1.
    pose proof (allocate_mutex m sz t e) as H2.
    destruct (Mem.allocate m sz t e) as [[q m1] evs]. simpl in *.
    apply IH; [done | congruence].
  - pose proof (counts_live_free m p lock Hc) as H1.
    pose proof (free_mutex m p lock) as H2.
    destruct (Mem.free m p lock) as [m1 evs]. simpl in *.
    apply IH; [done | congruence].
  - destruct (reallocate_defined m p n r Hmx) as [[[q m1] evs] Hrun].
    rewrite Hrun. apply IH.
    + destruct (reallocate_cases _ _ _ _ _ _ _ Hrun)
        as [(lock & -> & ->)
           | [(t & e & -> & ->)
             | [(-> & Hn)
               | [(t & e & pre & Hpre & -> & ->)
                 | (t & e & lock & pre & mid & Hpre & Hmid & -> & ->)]]]];
        auto using counts_live_allocate, counts_live_free.
    + by rewrite (reallocate_mutex _ _ _ _ _ _ _ Hrun).
Qed.

(** X6.  Whatever the semaphore and [malloc] answer, after every sequence
    of [allocate], [free] and [reallocate] calls on an initialized manager
    the number of live records is [allocationCount - freeCount] (in
    [uint32_t] arithmetic), and it is at most [MAX_MEMORY_BLOCKS]. *)
Theorem counters_count_live_records (ops : list MemRun3.Op) :
  ∃ m h,
    MemRun3.run_all MemRun.initial [] ops = Some (m, h)
    ∧ wrap32 (Mem.allocationCount m - Mem.freeCount m)
      = Z.of_nat (length (MemAdmin.live (Mem.blocks m)))
    ∧ (length (MemAdmin.live (Mem.blocks m)) ≤ MAX_MEMORY_BLOCKS)%nat.
Proof.
  destruct (counts_live_run3 ops MemRun.initial [])
    as (m & h & Hrun & [Hlen Hc] & _); [by split | done |].
  exists m, h. split; [done|]. split; [done|].
  rewrite <- Hlen. apply length_filter.
Qed.

(** ** [allocate] then [free] *)

(** X7.  Allocating a block and freeing it again gives back the record
    table and [totalAllocated] as they were; the two call counters have
    each advanced by one. *)
Theorem allocate_free_round_trip m sz t e slot :
  MemAdmin.tidy m → Mem.memoryMutex m = true →
  0 ≤ Mem.totalAllocated m < 2 ^ 32 →
  sz ≠ 0 → Mem.lock_ok e = true → Mem.findFreeBlock m = Some slot →
  Mem.malloc_ret e ≠ 0 → Mem.findBlockByPtr m (Mem.malloc_ret e) = None →
  let m1 := (Mem.allocate m sz t e).1.2 in
  let m2 := (Mem.free m1 (Mem.malloc_ret e) true).1 in
  (Mem.allocate m sz t e).1.1 = Mem.malloc_ret e
  ∧ Mem.blocks m2 = Mem.blocks m
  ∧ Mem.totalAllocated m2 = Mem.totalAllocated m
  ∧ Mem.allocationCount m2 = wrap32 (Mem.allocationCount m + 1)
  ∧ Mem.freeCount m2 = wrap32 (Mem.freeCount m + 1)
  ∧ Mem.peakAllocated m ≤ Mem.peakAllocated m2.
Proof.
  intros [Hlen Hall] Hmx Htot Hsz Hlock Hslot Hp Hnew. cbv zeta.
  rewrite (allocate_success m sz t e slot) by done. simpl.
  unfold Mem.findFreeBlock in Hslot.
  destruct (list_find _ _) as [[i b]|] eqn:Hfree; simplify_eq/=.
  apply list_find_Some in Hfree as (Hi & Hb & _).
  pose proof (proj1 (Forall_lookup _ _) Hall slot b Hi) as Hclr.
  simpl in Hclr. rewrite Hb in Hclr. subst b.
  erewrite free_success; [|done|done|].
  2:{ unfold Mem.findBlockByPtr. simpl. apply list_find_Some.
      split; [apply list_lookup_insert_eq; by eapply lookup_lt_Some|].
      split; [done|]. intros j y Hj Hlt.
      rewrite list_lookup_insert_ne in Hj by lia.
      apply list_find_None in Hnew.
      exact (proj1 (Forall_lookup _ _) Hnew j y Hj). }
  simpl. split; [done|]. split.
  { rewrite list_insert_insert_eq. by apply list_insert_id. }
  split.
  { destruct (wrap32_sub_congr (Mem.totalAllocated m + Mem.align_size sz)
                (Mem.align_size sz) 0) as (-> & _).
    rewrite wrap32_small; lia. }
  split; [done|]. split; [done|].
  destruct (Z.ltb_spec (Mem.peakAllocated m)
              (wrap32 (Mem.totalAllocated m + Mem.align_size sz))); lia.
Qed.

Lemma allocate_free_round_trip_witness :
  Mem.blocks
    (Mem.free (Mem.allocate Sample.two 24 None (Sample.env 12288 30)).1.2
       12288 true).1
  = Mem.blocks Sample.two.
Proof.
  assert (MemAdmin.tidy Sample.two) as Ht
    by (split; [reflexivity | vm_compute; repeat constructor;
                try discriminate; lia]).
  exact (proj1 (proj2 (allocate_free_round_trip Sample.two 24 None
                         (Sample.env 12288 30) 2%nat Ht eq_refl
                         ltac:(vm_compute; split;
                               [discriminate | reflexivity])
                         ltac:(discriminate) eq_refl eq_refl
                         ltac:(discriminate) eq_refl))).
Defined.

(** ** The high-water mark *)

Lemma peak_allocate m sz t e :
  Mem.peakAllocated m ≤ Mem.peakAllocated (Mem.allocate m sz t e).1.2.
Proof.
  unfold Mem.allocate.
  destruct ((sz =? 0) || negb (Mem.memoryMutex m)); [done|].
  destruct (negb (Mem.lock_ok e)); [done|].
  destruct (Mem.findFreeBlock m); [|done].
  destruct (Mem.malloc_ret e =? 0); [done|]. simpl.
  destruct (Z.ltb_spec (Mem.peakAllocated m)
              (wrap32 (Mem.totalAllocated m + Mem.align_size sz))); lia.
Qed.

Lemma peak_free m p lock :
  Mem.peakAllocated (Mem.free m p lock).1 = Mem.peakAllocated m.
Proof.
  unfold Mem.free.
  destruct ((p =? 0) || negb (Mem.memoryMutex m)); [done|].
  destruct (negb lock); [done|].
  by destruct (Mem.findBlockByPtr m p) as [[slot b]|].
Qed.

(** X8.  [peakAllocated] never goes down: over any sequence of [allocate],
    [free] and [reallocate] calls, whatever the semaphore and [malloc]
    answer, it is at least what it was before. *)
Theorem peak_never_decreases (ops : list MemRun3.Op) : ∀ m h m' h',
  MemRun3.run_all m h ops = Some (m', h') →
  Mem.peakAllocated m ≤ Mem.peakAllocated m'.
Proof.
  induction ops as [|op ops IH]; intros m h m' h' Hrun.
  { simpl in Hrun. by simplify_eq. }
  simpl in Hrun. destruct op as [sz t e | p lock | p n r]; simpl in Hrun.
  - pose proof (peak_allocate m sz t e) as H.
    destruct (Mem.allocate m sz t e) as [[q m1] evs]. simpl in *.
    apply IH in Hrun. lia.
  - pose proof (peak_free m p lock) as H.
    destruct (Mem.free m p lock) as [m1 evs]. simpl in *.
    apply IH in Hrun. lia.
  - destruct (Mem.reallocate m p n r) as [[[q m1] evs]|] eqn:Hre; [|done].
    apply IH in Hrun.
    enough (Mem.peakAllocated m ≤ Mem.peakAllocated m1) by lia.
    destruct (reallocate_cases _ _ _ _ _ _ _ Hre)
      as [(lock & -> & ->)
         | [(t & e & -> & ->)
           | [(-> & Hn)
             | [(t & e & pre & Hpre & -> & ->)
               | (t & e & lock & pre & mid & Hpre & Hmid & -> & ->)]]]];
      rewrite ?peak_free; auto using peak_allocate; lia.
Qed.

Lemma peak_never_decreases_witness :
  Mem.peakAllocated MemRun.initial ≤ 252.
Proof.
  exact (peak_never_decreases Sample2.calls MemRun.initial [] _ _ eq_refl).
Defined.

(** ** [MemoryManager::shutdown] *)

Lemma release_one b :
  (if Mem.allocated b
   then Mem.ptr b ≠ 0 ∧ (String.length (Mem.tag b) ≤ 15)%nat
   else b = Mem.cleared) →
  (MemAdmin.release b).2
  = (if Mem.allocated b then [EvFree (Mem.ptr b)] else [])
  ∧ Mem.allocated (MemAdmin.release b).1 = false.
Proof.
  unfold MemAdmin.release. destruct (Mem.allocated b) eqn:Ha; simpl.
  - intros [Hp _]. apply Z.eqb_neq in Hp. by rewrite Hp.
  - done.
Qed.

Lemma release_all bs :
  Forall (λ b, if Mem.allocated b
               then Mem.ptr b ≠ 0 ∧ (String.length (Mem.tag b) ≤ 15)%nat
               else b = Mem.cleared) bs →
  mjoin (MemAdmin.release <$> bs).*2
  = EvFree <$> (Mem.ptr <$> MemAdmin.live bs)
  ∧ MemAdmin.live (MemAdmin.release <$> bs).*1 = []
  ∧ Mem.live_bytes (MemAdmin.release <$> bs).*1 = 0.
Proof.
  unfold MemAdmin.live.
  induction 1 as [|b bs Hb _ (IH1 & IH2 & IH3)]; [done|].
  destruct (release_one b Hb) as [He Hoff].
  rewrite !fmap_cons.
  change (mjoin ((MemAdmin.release b).2 :: (MemAdmin.release <$> bs).*2))
    with ((MemAdmin.release b).2 ++ mjoin (MemAdmin.release <$> bs).*2).
  rewrite He, IH1. split; [|split].
  - rewrite filter_cons.
    destruct (Mem.allocated b);
      [by rewrite decide_True | by rewrite decide_False].
  - by rewrite filter_cons, decide_False by congruence.
  - unfold Mem.live_bytes in *. cbn [foldr]. by rewrite Hoff.
Qed.

Lemma memory_shutdown_events m :
  MemAdmin.tidy m → Mem.memoryMutex m = true →
  (MemAdmin.shutdown m).2
  = [EvTake MemoryMutex MemAdmin.PORT_MAX_DELAY]
    ++ (EvFree <$> (Mem.ptr <$> MemAdmin.live (Mem.blocks m)))
    ++ [EvGive MemoryMutex]
  ∧ MemAdmin.live (Mem.blocks (MemAdmin.shutdown m).1) = [].
Proof.
  intros [Hlen Hall] Hmx. unfold MemAdmin.shutdown. rewrite Hmx. simpl.
  destruct (release_all _ Hall) as (H1 & H2 & H3). by rewrite H1.
Qed.

(** X9.  [shutdown] of an initialized manager hands every live block to
    [::free] once, in slot order, under the semaphore; afterwards no
    record is live, and the manager has no semaphore, so [allocate],
    [free] and a second [shutdown] do nothing.  The counters are not
    reset: [totalAllocated] still has the value it had. *)
Theorem memory_shutdown_releases_all m :
  MemAdmin.tidy m → Mem.memoryMutex m = true →
  let r := MemAdmin.shutdown m in
  r.2 = [EvTake MemoryMutex MemAdmin.PORT_MAX_DELAY]
        ++ (EvFree <$> (Mem.ptr <$> MemAdmin.live (Mem.blocks m)))
        ++ [EvGive MemoryMutex]
  ∧ MemAdmin.live (Mem.blocks r.1) = []
  ∧ Mem.live_bytes (Mem.blocks r.1) = 0
  ∧ length (Mem.blocks r.1) = MAX_MEMORY_BLOCKS
  ∧ Mem.totalAllocated r.1 = Mem.totalAllocated m
  ∧ Mem.allocationCount r.1 = Mem.allocationCount m
  ∧ Mem.freeCount r.1 = Mem.freeCount m
  ∧ (∀ sz t e, Mem.allocate r.1 sz t e = (0, r.1, []))
  ∧ (∀ p lock, Mem.free r.1 p lock = (r.1, []))
  ∧ MemAdmin.shutdown r.1 = (r.1, []).
Proof.
  intros [Hlen Hall] Hmx. unfold MemAdmin.shutdown. rewrite Hmx. simpl.
  destruct (release_all _ Hall) as (H1 & H2 & H3).
  rewrite H1. repeat split; try done.
  - by rewrite !length_fmap.
  - intros sz t e. unfold Mem.allocate. simpl. by rewrite orb_true_r.
  - intros p lock. unfold Mem.free. simpl. by rewrite orb_true_r.
Qed.

Lemma memory_shutdown_releases_all_witness :
  (MemAdmin.shutdown Sample.two).2
  = [EvTake MemoryMutex MemAdmin.PORT_MAX_DELAY; EvFree 4096; EvFree 8192;
     EvGive MemoryMutex]
  ∧ Mem.totalAllocated (MemAdmin.shutdown Sample.two).1 = 152.
Proof.
  assert (MemAdmin.tidy Sample.two) as Ht
    by (split; [reflexivity | vm_compute; repeat constructor;
                try discriminate; lia]).
  destruct (memory_shutdown_releases_all Sample.two Ht eq_refl)
    as (H1 & _ & _ & _ & H2 & _).
  split; [exact H1 | exact H2].
Defined.

(** * Further properties of the task registry *)

Lemma active_length s :
  length (SchedAdmin.active_tasks s) = length (Sched.active_names s).
Proof. unfold Sched.active_names. by rewrite length_fmap. Qed.

Lemma active_length_bound s :
  length (Sched.tasks s) = MAX_TASKS →
  0 ≤ Z.of_nat (length (SchedAdmin.active_tasks s)) ≤ 16.
Proof.
  intros Hlen. pose proof (length_filter (λ t, Sched.active t = true)
                             (Sched.tasks s)) as H.
  unfold SchedAdmin.active_tasks. unfold MAX_TASKS in Hlen. lia.
Qed.

Lemma wrap16_small z : 0 ≤ z < 2 ^ 16 → wrap16 z = z.
Proof. intros. unfold wrap16. by apply Z.mod_small. Qed.

Lemma counted_fresh : SchedAdmin.counted Sched.fresh.
Proof. split; reflexivity. Qed.

Lemma counted_createTask s n fn stack params prio lock created :
  SchedAdmin.counted s →
  SchedAdmin.counted
    (Sched.createTask s n fn stack params prio lock created).1.2.
Proof.
  intros [Hlen Hc].
  destruct (Sched.createTask s n fn stack params prio lock created)
    as [[[] s1] evs] eqn:Hrun.
  - apply createTask_success in Hrun
      as (nm & slot & old & h & _ & _ & _ & _ & _ & _ & Hslot & ->).
    apply list_find_Some in Hslot as (Hi & Hold & _). simpl.
    set (t := {| Sched.name := strncpy nm 31; Sched.handle := h;
                 Sched.stackSize := stack; Sched.priority := prio;
                 Sched.state := Sched.eReady;
                 Sched.stackHighWaterMark := Sched.stackHighWaterMark old;
                 Sched.active := true |}).
    destruct (active_names_insert s slot old t Hi)
      as (l1 & l2 & Hbefore & Hafter).
    assert (length (<[slot := t]> (Sched.tasks s)) = MAX_TASKS) as Hlen'
      by (by rewrite length_insert).
    split; [done|]. simpl. rewrite active_length, Hafter.
    pose proof (active_length_bound
                  {| Sched.tasks := <[slot := t]> (Sched.tasks s);
                     Sched.taskCount := 0; Sched.schedulerMutex := true |}
                  Hlen') as Hb.
    rewrite active_length, Hafter in Hb.
    rewrite Hc, active_length, Hbefore, Hold in *. simpl in *.
    rewrite !length_app in *. simpl in *. rewrite wrap16_small; lia.
  - pose proof (createTask_failure s n fn stack params prio lock created)
      as H. rewrite Hrun in H. simpl in *. by rewrite H.
Qed.

Lemma counted_deleteTask s n lock :
  SchedAdmin.counted s → SchedAdmin.counted (Sched.deleteTask s n lock).1.2.
Proof.
  intros [Hlen Hc]. unfold Sched.deleteTask. destruct n as [nm|]; [|by split].
  destruct (negb (Sched.schedulerMutex s)); [by split|].
  destruct (negb lock); [by split|].
  destruct (Sched.findTaskByName s nm) as [[slot t]|] eqn:Hfind; [|by split].
  apply findTaskByName_spec in Hfind as (Hi & Ha & _).
  destruct (active_names_insert s slot t (Sched.clear_slot t) Hi)
    as (l1 & l2 & Hbefore & Hafter).
  pose proof (active_length_bound s Hlen) as Hb.
  split; simpl; [by rewrite length_insert|].
  rewrite active_length, Hafter. simpl.
  rewrite Hc, active_length, Hbefore, Ha in *. simpl in *.
  rewrite !length_app in *. simpl in *. rewrite wrap16_small; lia.
Qed.

(** [suspendTask] and [resumeTask] write the cached state only. *)
Lemma set_task_state_same call st s n lock :
  let s' := (Sched.set_task_state call st s n lock).1.2 in
  Forall2 SchedAdmin.same_task (Sched.tasks s) (Sched.tasks s')
  ∧ Sched.taskCount s' = Sched.taskCount s
  ∧ Sched.schedulerMutex s' = Sched.schedulerMutex s.
Proof.
  assert (Forall2 SchedAdmin.same_task (Sched.tasks s) (Sched.tasks s))
    as Hrefl by (apply Forall_Forall2_diag, Forall_forall; by intros).
  unfold Sched.set_task_state. destruct n as [nm|]; [|done].
  destruct (negb (Sched.schedulerMutex s)); [done|].
  destruct (negb lock); [done|].
  destruct (Sched.findTaskByName s nm) as [[slot t]|] eqn:Hfind; [|done].
  destruct (Sched.handle t =? 0); [done|]. simpl.
  apply findTaskByName_spec in Hfind as (Hi & _).
  split; [|done].
  rewrite <- (list_insert_id (Sched.tasks s) slot t Hi) at 1.
  by apply Forall2_insert.
Qed.

Lemma same_task_active ts ts' :
  Forall2 SchedAdmin.same_task ts ts' →
  Sched.name <$> filter (λ t, Sched.active t = true) ts'
  = Sched.name <$> filter (λ t, Sched.active t = true) ts.
Proof.
  induction 1 as [|t t' ts ts' (Hn & _ & _ & _ & Ha) _ IH]; [done|].
  rewrite !filter_cons, Ha.
  destruct (decide (Sched.active t = true));
    by rewrite ?fmap_cons, ?Hn, IH.
Qed.

Lemma same_task_counted s s' :
  Forall2 SchedAdmin.same_task (Sched.tasks s) (Sched.tasks s') →
  Sched.taskCount s' = Sched.taskCount s →
  SchedAdmin.counted s → SchedAdmin.counted s'.
Proof.
  intros Hsame Hcount [Hlen Hc]. split.
  - by rewrite <- (Forall2_length _ _ _ Hsame).
  - rewrite Hcount, Hc, !active_length. unfold Sched.active_names.
    by rewrite (same_task_active _ _ Hsame).
Qed.

Lemma listTasks_same s lock q :
  let s' := (SchedAdmin.listTasks s lock q).1 in
  Forall2 SchedAdmin.same_task (Sched.tasks s) (Sched.tasks s')
  ∧ Sched.taskCount s' = Sched.taskCount s
  ∧ Sched.schedulerMutex s' = Sched.schedulerMutex s.
Proof.
  assert (Forall2 SchedAdmin.same_task (Sched.tasks s) (Sched.tasks s))
    as Hrefl by (apply Forall_Forall2_diag, Forall_forall; by intros).
  unfold SchedAdmin.listTasks.
  destruct (negb (Sched.schedulerMutex s)); [done|].
  destruct (negb lock); [done|]. simpl. split; [|done].
  apply Forall2_fmap_r, Forall_Forall2_diag, Forall_forall.
  intros t _. unfold SchedAdmin.refresh, SchedAdmin.same_task. simpl.
  by destruct (Sched.active t && negb (Sched.handle t =? 0)).
Qed.

Lemma counted_run s op :
  SchedAdmin.counted s → SchedAdmin.counted (SchedRun.run s op).
Proof.
  intros Hc. destruct op; simpl.
  - by apply counted_createTask.
  - by apply counted_deleteTask.
  - destruct (set_task_state_same EvTaskSuspend Sched.eSuspended s n lock)
      as (H1 & H2 & _). by eapply same_task_counted.
  - destruct (set_task_state_same EvTaskResume Sched.eReady s n lock)
      as (H1 & H2 & _). by eapply same_task_counted.
  - destruct (listTasks_same s lock q) as (H1 & H2 & _).
    by eapply same_task_counted.
Qed.

Lemma active_inactive_length (ts : list Sched.TaskInfo) :
  (length (filter (λ t, Sched.active t = true) ts)
   + length (filter (λ t, Sched.active t = false) ts) = length ts)%nat.
Proof.
  induction ts as [|t ts IH]; [done|]. rewrite !filter_cons.
  destruct (Sched.active t); simpl;
    repeat case_decide; simpl; try done; lia.
Qed.

(** X10.  After every sequence of [createTask], [deleteTask],
    [suspendTask], [resumeTask] and [listTasks] calls on an initialized
    scheduler, whatever the environment answers, the table has
    [MAX_TASKS] slots, [taskCount] is the number of active records, and
    the "Free Task Slots" figure of [printTaskStats] is the number of
    slots that are not active. *)
Theorem task_count_is_active_count (ops : list SchedRun.Op) :
  let s := SchedRun.run_all Sched.fresh ops in
  length (Sched.tasks s) = MAX_TASKS
  ∧ Sched.taskCount s = Z.of_nat (length (SchedAdmin.active_tasks s))
  ∧ SchedAdmin.printTaskStats s
    = [EvPrint (PStr "Total Tasks: ");
       EvPrintln (PNum (Z.of_nat (length (SchedAdmin.active_tasks s))));
       EvPrint (PStr "Free Task Slots: ");
       EvPrintln
         (PNum (Z.of_nat
                  (length (filter (λ t, Sched.active t = false)
                             (Sched.tasks s)))))].
Proof.
  cbv zeta. unfold SchedRun.run_all.
  assert (SchedAdmin.counted (foldl SchedRun.run Sched.fresh ops))
    as [Hlen Hc].
  { generalize counted_fresh. generalize Sched.fresh.
    induction ops as [|op ops IH]; intros s Hs; [done|].
    simpl. by apply IH, counted_run. }
  split; [done|]. split; [done|].
  unfold SchedAdmin.printTaskStats. rewrite Hc.
  pose proof (active_inactive_length
                (Sched.tasks (foldl SchedRun.run Sched.fresh ops))) as Hsum.
  unfold SchedAdmin.active_tasks. rewrite Hlen in Hsum.
  repeat f_equal. lia.
Qed.

(** ** A full table *)

(** X11.  With every slot active, [createTask] fails whatever its
    arguments and the environment, changes nothing and does not call
    [xTaskCreate].  After one successful [deleteTask], a [createTask] with
    a name no active record stores succeeds (FreeRTOS creating the task),
    takes the slot just vacated, and fills the table again. *)
Theorem full_table_refuses_until_delete s :
  Forall (λ t, Sched.active t = true) (Sched.tasks s) →
  (∀ n fn stack params prio lock created,
     let r := Sched.createTask s n fn stack params prio lock created in
     r.1.1 = false ∧ r.1.2 = s
     ∧ Forall (λ ev, is_task_create ev = false) r.2)
  ∧ (∀ nd s1 evs1 nm fn stack params prio h,
       Sched.deleteTask s (Some nd) true = (true, s1, evs1) →
       Sched.findTaskByName s1 nm = None → fn ≠ 0 →
       ∃ slot gone,
         Sched.findTaskByName s nd = Some (slot, gone)
         ∧ let r := Sched.createTask s1 (Some nm) fn stack params prio
                      true (Some h) in
           r.1.1 = true
           ∧ Forall (λ t, Sched.active t = true) (Sched.tasks r.1.2)
           ∧ (Sched.name <$> Sched.tasks r.1.2 !! slot)
             = Some (str_take 31 nm)).
Proof.
  intros Hfull. split.
  - intros n fn stack params prio lock created. cbv zeta.
    assert (Sched.findFreeTaskSlot s = None) as Hnone.
    { apply list_find_None. eapply Forall_impl; [exact Hfull|].
      simpl. congruence. }
    unfold Sched.createTask. rewrite Hnone.
    destruct n as [nm|]; [|by repeat split].
    destruct ((fn =? 0) || negb (Sched.schedulerMutex s));
      [by repeat split|].
    destruct (negb lock); [repeat split; try done; repeat constructor|].
    destruct (Sched.findTaskByName s nm);
      repeat split; try done; repeat constructor.
  - intros nd s1 evs1 nm fn stack params prio h Hdel Hfree Hfn.
    unfold Sched.deleteTask in Hdel.
    destruct (Sched.schedulerMutex s) eqn:Hmx; [|done]. simpl in Hdel.
    destruct (Sched.findTaskByName s nd) as [[slot t]|] eqn:Hfind; [|done].
    injection Hdel as <- _. exists slot, t. split; [done|].
    apply findTaskByName_spec in Hfind as (Hi & Ha & _).
    pose proof (lookup_lt_Some _ _ _ Hi) as Hlt.
    assert (Sched.findFreeTaskSlot
              {| Sched.tasks := <[slot := Sched.clear_slot t]> (Sched.tasks s);
                 Sched.taskCount := wrap16 (Sched.taskCount s - 1);
                 Sched.schedulerMutex := true |}
            = Some (slot, Sched.clear_slot t)) as Hslot.
    { apply list_find_Some. simpl.
      split; [by apply list_lookup_insert_eq|]. split; [done|].
      intros j y Hj Hjs. rewrite list_lookup_insert_ne in Hj by lia.
      pose proof (proj1 (Forall_lookup _ _) Hfull j y Hj) as Hy.
      simpl in Hy. congruence. }
    apply Z.eqb_neq in Hfn. cbv zeta. unfold Sched.createTask.
    rewrite Hfn, Hfree, Hslot. simpl.
    rewrite list_insert_insert_eq.
    split; [done|]. split; [by apply Forall_insert|].
    by rewrite list_lookup_insert_eq.
Qed.

Lemma full_table_refuses_until_delete_witness :
  (Sched.createTask Sample2.crowded (Some "q"%string) 64 2048 0 5 true
     (Some 117)).1.1 = false
  ∧ (Sched.createTask
       (Sched.deleteTask Sample2.crowded (Some "d"%string) true).1.2
       (Some "q"%string) 64 2048 0 5 true (Some 117)).1.1 = true.
Proof.
  assert (Forall (λ t, Sched.active t = true) (Sched.tasks Sample2.crowded))
    as Hfull by (vm_compute; repeat constructor).
  destruct (full_table_refuses_until_delete Sample2.crowded Hfull)
    as [H1 H2].
  split; [exact (proj1 (H1 _ _ _ _ _ _ _))|].
  destruct (Sched.deleteTask Sample2.crowded (Some "d"%string) true)
    as [[ok s1] evs1] eqn:Hdel.
  assert (ok = true) as -> by (by vm_compute in Hdel; simplify_eq).
  assert (Sched.findTaskByName s1 "q" = None) as Hq
    by (by vm_compute in Hdel; simplify_eq; vm_compute).
  destruct (H2 "d"%string s1 evs1 "q"%string 64 2048 0 5 117 Hdel Hq
              ltac:(discriminate)) as (slot & gone & _ & H & _).
  exact H.
Defined.

(** ** [suspendTask] and [resumeTask] *)

(** X12.  On an initialized scheduler, with the semaphore arriving:
    [suspendTask] and [resumeTask] of a name no active record stores
    return [false], change nothing and make no FreeRTOS call.  For a name
    an active record with a handle stores they call [vTaskSuspend] /
    [vTaskResume] on that handle and write only the cached state of that
    record's slot; suspending and then resuming leaves the slot [Ready]
    and everything else as it was, so a task that was [Ready] gets back
    the scheduler it started from. *)
Theorem suspend_then_resume s nm :
  Sched.schedulerMutex s = true →
  (Table.unknown s nm →
   Sched.suspendTask s (Some nm) true
   = (false, s, [EvTake SchedulerMutex LOCK_TIMEOUT;
                 EvGive SchedulerMutex])
   ∧ Sched.resumeTask s (Some nm) true
     = (false, s, [EvTake SchedulerMutex LOCK_TIMEOUT;
                   EvGive SchedulerMutex]))
  ∧ (∀ slot t, Table.stores s nm slot t → Sched.handle t ≠ 0 →
     let r1 := Sched.suspendTask s (Some nm) true in
     let r2 := Sched.resumeTask r1.1.2 (Some nm) true in
     r1.1.1 = true
     ∧ r1.2 = [EvTake SchedulerMutex LOCK_TIMEOUT;
               EvTaskSuspend (Sched.handle t); EvGive SchedulerMutex]
     ∧ Sched.tasks r1.1.2
       = <[slot := Sched.with_state t Sched.eSuspended]> (Sched.tasks s)
     ∧ Sched.active_names r1.1.2 = Sched.active_names s
     ∧ Sched.taskCount r1.1.2 = Sched.taskCount s
     ∧ r2.1.1 = true
     ∧ r2.2 = [EvTake SchedulerMutex LOCK_TIMEOUT;
               EvTaskResume (Sched.handle t); EvGive SchedulerMutex]
     ∧ Sched.tasks r2.1.2
       = <[slot := Sched.with_state t Sched.eReady]> (Sched.tasks s)
     ∧ (Sched.state t = Sched.eReady → r2.1.2 = s)).
Proof.
  intros Hmx. split.
  { intros Hfind%unknown_find.
    unfold Sched.suspendTask, Sched.resumeTask, Sched.set_task_state.
    by rewrite Hmx, Hfind. }
  intros slot t Hfind%stores_find Hh. apply Z.eqb_neq in Hh.
  apply findTaskByName_spec in Hfind as Hspec.
  destruct Hspec as (Hi & Ha & Hn).
  pose proof (lookup_lt_Some _ _ _ Hi) as Hlt.
  assert (Sched.suspendTask s (Some nm) true
          = (true,
             {| Sched.tasks :=
                  <[slot := Sched.with_state t Sched.eSuspended]>
                    (Sched.tasks s);
                Sched.taskCount := Sched.taskCount s;
                Sched.schedulerMutex := true |},
             [EvTake SchedulerMutex LOCK_TIMEOUT;
              EvTaskSuspend (Sched.handle t); EvGive SchedulerMutex]))
    as Hsus.
  { unfold Sched.suspendTask, Sched.set_task_state.
    by rewrite Hmx, Hfind, Hh. }
  cbv zeta. rewrite Hsus. simpl.
  assert (Sched.findTaskByName
            {| Sched.tasks :=
                 <[slot := Sched.with_state t Sched.eSuspended]>
                   (Sched.tasks s);
               Sched.taskCount := Sched.taskCount s;
               Sched.schedulerMutex := true |} nm
          = Some (slot, Sched.with_state t Sched.eSuspended)) as Hfind2.
  { apply list_find_Some. simpl.
    split; [by apply list_lookup_insert_eq|]. split; [done|].
    intros j y Hj Hjs. rewrite list_lookup_insert_ne in Hj by lia.
    apply list_find_Some in Hfind as (_ & _ & Hfirst). eauto. }
  unfold Sched.resumeTask, Sched.set_task_state. rewrite Hfind2. simpl.
  rewrite Hh. simpl. rewrite list_insert_insert_eq.
  split; [done|]. split; [done|]. split; [done|]. split.
  { destruct (active_names_insert s slot t
                (Sched.with_state t Sched.eSuspended) Hi)
      as (l1 & l2 & Hb & Hafter).
    by rewrite Hafter, Hb. }
  split; [done|]. split; [done|]. split; [done|]. split; [done|].
  intros Hst. destruct s as [ts c mx]. simpl in *. subst mx. f_equal.
  apply list_insert_id. rewrite Hi. f_equal.
  destruct t; simpl in *. by subst.
Qed.

Lemma suspend_then_resume_witness :
  (Sched.resumeTask
     (Sched.suspendTask Sample2.pair (Some "logger"%string) true).1.2
     (Some "logger"%string) true).1.2 = Sample2.pair
  ∧ (Sched.suspendTask Sample2.pair (Some "idle"%string) true).1.1 = false.
Proof.
  destruct (suspend_then_resume Sample2.pair "logger" eq_refl) as [_ H1].
  destruct (suspend_then_resume Sample2.pair "idle" eq_refl) as [H2 _].
  assert (Forall (λ t, Sched.active t = true →
                       Sched.name t ≠ "idle"%string
                       ∧ (Sched.name t = "logger"%string →
                          Sched.handle t = 103 ∧ Sched.state t = Sched.eReady))
            (Sched.tasks Sample2.pair)) as Hall.
  { vm_compute. repeat constructor; try discriminate.
    all: intros [=]. }
  split.
  - destruct (Sched.tasks Sample2.pair !! 1%nat) as [t|] eqn:E;
      [|by vm_compute in E].
    assert (Sched.active t = true ∧ Sched.name t = "logger"%string) as [Ha Hn]
      by (vm_compute in E; by simplify_eq).
    destruct (proj2 (proj1 (Forall_lookup _ _) Hall 1%nat t E Ha) Hn)
      as [Hh Hst].
    assert (Table.stores Sample2.pair "logger" 1 t) as Hst'.
    { split; [exact E|]. split; [done|]. split; [done|].
      intros j x Hj Hlt [_ Hx]. assert (j = 0%nat) as -> by lia.
      vm_compute in Hj. by simplify_eq. }
    exact (proj2 (proj2 (proj2 (proj2 (proj2 (proj2 (proj2 (proj2
             (H1 1%nat t Hst' ltac:(rewrite Hh; discriminate)))))))))
             Hst).
  - destruct H2 as [H _]; [|by rewrite H].
    intros j x Hj Ha.
    exact (proj1 (proj1 (Forall_lookup _ _) Hall j x Hj Ha)).
Defined.

(** ** [listTasks] *)

Lemma same_task_find ts ts' n :
  Forall2 SchedAdmin.same_task ts ts' →
  fst <$> list_find (λ t, Sched.active t = true ∧ Sched.name t = n) ts'
  = fst <$> list_find (λ t, Sched.active t = true ∧ Sched.name t = n) ts.
Proof.
  induction 1 as [|t t' ts ts' (Hn & _ & _ & _ & Ha) _ IH]; [done|].
  cbn [list_find]. rewrite Ha, Hn.
  destruct (decide (Sched.active t = true ∧ Sched.name t = n)); [done|].
  rewrite <- !option_fmap_compose.
  destruct (list_find _ ts') as [[i x]|], (list_find _ ts) as [[j y]|];
    simpl in *; congruence.
Qed.

Lemma rows_count ts :
  length (filter (λ o, SchedAdmin.is_row o = true) (ts ≫= SchedAdmin.row))
  = length (filter (λ t, Sched.active t = true) ts).
Proof.
  induction ts as [|t ts IH]; [done|].
  rewrite bind_cons, filter_app, length_app, IH, filter_cons.
  unfold SchedAdmin.row. destruct (Sched.active t); by case_decide.
Qed.

(** X13.  [listTasks] never changes which tasks exist: every slot keeps
    its name, handle, stack size, priority and [active] flag, so
    [taskCount] and every lookup by name are as before.  When it gets the
    semaphore it refreshes the cached state and stack high-water mark of
    every active task with a handle from FreeRTOS and prints one row per
    active task; when it does not, it prints no row. *)
Theorem listTasks_refreshes_cache s lock q :
  let r := SchedAdmin.listTasks s lock q in
  Forall2 SchedAdmin.same_task (Sched.tasks s) (Sched.tasks r.1)
  ∧ Sched.taskCount r.1 = Sched.taskCount s
  ∧ Sched.active_names r.1 = Sched.active_names s
  ∧ (∀ n, fst <$> Sched.findTaskByName r.1 n
          = fst <$> Sched.findTaskByName s n)
  ∧ (Sched.schedulerMutex s = true → lock = true →
     Forall (λ t, Sched.active t = true → Sched.handle t ≠ 0 →
                  Sched.state t = SchedAdmin.task_state q (Sched.handle t)
                  ∧ Sched.stackHighWaterMark t
                    = SchedAdmin.high_water q (Sched.handle t))
       (Sched.tasks r.1)
     ∧ length (filter (λ o, SchedAdmin.is_row o = true) r.2)
       = length (SchedAdmin.active_tasks s))
  ∧ (lock = false → filter (λ o, SchedAdmin.is_row o = true) r.2 = []).
Proof.
  cbv zeta. destruct (listTasks_same s lock q) as (Hsame & Hc & Hmx).
  split; [done|]. split; [done|].
  split; [by apply same_task_active|].
  split; [intros n; by apply same_task_find|]. split.
  - intros Hm ->. unfold SchedAdmin.listTasks. rewrite Hm. simpl. split.
    + apply Forall_fmap, Forall_forall. intros t _. simpl.
      unfold SchedAdmin.refresh.
      destruct (Sched.active t) eqn:Ha, (Sched.handle t =? 0) eqn:Hh;
        simpl; try done; rewrite ?Ha; try done.
      apply Z.eqb_eq in Hh. intros _ ?. done.
    + rewrite !(filter_cons_False _ (Ev _)) by (simpl; discriminate).
      rewrite filter_app, length_app, rows_count.
      rewrite filter_cons_False, filter_nil by (simpl; discriminate).
      simpl. unfold SchedAdmin.active_tasks.
      pose proof (same_task_active _ _
                    (proj1 (listTasks_same s true q))) as Hnames.
      unfold SchedAdmin.listTasks in Hnames. rewrite Hm in Hnames.
      simpl in Hnames.
      apply (f_equal length) in Hnames. rewrite !length_fmap in Hnames.
      rewrite Hnames. lia.
  - intros ->. unfold SchedAdmin.listTasks.
    by destruct (negb (Sched.schedulerMutex s)).
Qed.

Lemma listTasks_refreshes_cache_witness :
  (Sched.state <$> Sched.tasks
     (SchedAdmin.listTasks Sample2.one true Sample2.probe).1 !! 0%nat)
  = Some Sched.eBlocked.
Proof.
  destruct (listTasks_refreshes_cache Sample2.one true Sample2.probe)
    as (_ & _ & _ & _ & H & _).
  destruct (H eq_refl eq_refl) as [Hall _].
  destruct (Sched.tasks (SchedAdmin.listTasks Sample2.one true
                           Sample2.probe).1 !! 0%nat) as [t|] eqn:E;
    [|by vm_compute in E].
  pose proof (proj1 (Forall_lookup _ _) Hall 0%nat t E) as Ht.
  assert (Sched.active t = true ∧ Sched.handle t ≠ 0) as [Ha Hh]
    by (vm_compute in E; simplify_eq; split; [reflexivity | discriminate]).
  destruct (Ht Ha Hh) as [Hst _]. simpl. by rewrite Hst.
Defined.

(** ** [Scheduler::shutdown] *)

Lemma no_active ts :
  Forall (λ t, Sched.active t = false) ts →
  filter (λ t, Sched.active t = true) ts = [].
Proof.
  induction 1 as [|t ts Ht _ IH]; [done|].
  by rewrite filter_cons, decide_False by congruence.
Qed.

Lemma stop_one t :
  (Sched.active t = true → Sched.handle t ≠ 0) →
  (SchedAdmin.stop t).2
  = (if Sched.active t then [EvTaskDelete (Sched.handle t)] else [])
  ∧ Sched.active (SchedAdmin.stop t).1 = false
  ∧ Sched.name (SchedAdmin.stop t).1 = Sched.name t.
Proof.
  unfold SchedAdmin.stop. destruct (Sched.active t) eqn:Ha; simpl.
  - intros Hh. specialize (Hh eq_refl). apply Z.eqb_neq in Hh.
    by rewrite Hh.
  - done.
Qed.

Lemma stop_all ts :
  Forall (λ t, Sched.active t = true → Sched.handle t ≠ 0) ts →
  mjoin (SchedAdmin.stop <$> ts).*2
  = EvTaskDelete <$> (Sched.handle <$> filter (λ t, Sched.active t = true) ts)
  ∧ Forall (λ t, Sched.active t = false) (SchedAdmin.stop <$> ts).*1
  ∧ Sched.name <$> (SchedAdmin.stop <$> ts).*1 = Sched.name <$> ts.
Proof.
  induction 1 as [|t ts Ht _ (IH1 & IH2 & IH3)]; [done|].
  destruct (stop_one t Ht) as (He & Hoff & Hname).
  rewrite !fmap_cons.
  change (mjoin ((SchedAdmin.stop t).2 :: (SchedAdmin.stop <$> ts).*2))
    with ((SchedAdmin.stop t).2 ++ mjoin (SchedAdmin.stop <$> ts).*2).
  rewrite He, IH1, IH3, Hname, filter_cons. split; [|split; [|done]].
  - destruct (Sched.active t);
      [by rewrite decide_True | by rewrite decide_False].
  - by constructor.
Qed.

(** X14.  [shutdown] of a scheduler whose active records all have a
    handle deletes every active task once, in slot order, takes no
    semaphore, leaves no record active and sets [taskCount] to zero; the
    names stay in the slots.  Afterwards the scheduler has no semaphore
    and [createTask], [deleteTask], [suspendTask], [resumeTask] and
    [listTasks] do nothing.  After a new [init()] any name can be created
    again, the stale names notwithstanding. *)
Theorem scheduler_shutdown_deletes_all s :
  SchedAdmin.handled s → length (Sched.tasks s) = MAX_TASKS →
  let r := SchedAdmin.shutdown s in
  r.2 = EvTaskDelete <$> (Sched.handle <$> SchedAdmin.active_tasks s)
  ∧ SchedAdmin.active_tasks r.1 = []
  ∧ Sched.taskCount r.1 = 0
  ∧ Sched.name <$> Sched.tasks r.1 = Sched.name <$> Sched.tasks s
  ∧ (∀ n fn stack params prio lock created,
       Sched.createTask r.1 n fn stack params prio lock created
       = (false, r.1, []))
  ∧ (∀ n lock, Sched.deleteTask r.1 n lock = (false, r.1, [])
               ∧ Sched.suspendTask r.1 n lock = (false, r.1, [])
               ∧ Sched.resumeTask r.1 n lock = (false, r.1, []))
  ∧ (∀ lock q, SchedAdmin.listTasks r.1 lock q = (r.1, []))
  ∧ (∀ nm fn stack params prio h, fn ≠ 0 →
       (Sched.createTask (Sched.init r.1 true).1.2 (Some nm) fn stack params
          prio true (Some h)).1.1 = true).
Proof.
  intros Hh Hlen. cbv zeta. unfold SchedAdmin.shutdown. simpl.
  destruct (stop_all _ Hh) as (H1 & H2 & H3).
  split; [done|]. split.
  { unfold SchedAdmin.active_tasks. simpl. by apply no_active. }
  split; [done|]. split; [done|]. split.
  { intros n fn stack params prio lock created. unfold Sched.createTask.
    simpl. rewrite orb_true_r. by destruct n. }
  split.
  { intros n lock.
    unfold Sched.deleteTask, Sched.suspendTask, Sched.resumeTask,
      Sched.set_task_state. simpl. by destruct n. }
  split; [done|].
  intros nm fn stack params prio h Hfn. apply Z.eqb_neq in Hfn.
  unfold Sched.createTask, Sched.findTaskByName, Sched.findFreeTaskSlot.
  simpl. rewrite Hfn. simpl.
  rewrite (proj2 (list_find_None _ _)).
  2:{ eapply Forall_impl; [exact H2|]. simpl. intros t Ht [Ha _]. congruence. }
  destruct (list_find _ _) as [[slot old]|] eqn:Hfree; [done|].
  apply list_find_None in Hfree.
  destruct ((SchedAdmin.stop <$> Sched.tasks s).*1) as [|t ts] eqn:E.
  { apply (f_equal length) in E. rewrite !length_fmap, Hlen in E. done. }
  apply Forall_cons in H2 as [Ht _]. apply Forall_cons in Hfree as [Hf _].
  done.
Qed.

Lemma scheduler_shutdown_deletes_all_witness :
  (SchedAdmin.shutdown Sample2.one).2 = [EvTaskDelete 101]
  ∧ Sched.taskCount (SchedAdmin.shutdown Sample2.one).1 = 0.
Proof.
  assert (SchedAdmin.handled Sample2.one) as Hh.
  { unfold SchedAdmin.handled. vm_compute. repeat constructor; discriminate. }
  destruct (scheduler_shutdown_deletes_all Sample2.one Hh eq_refl)
    as (H1 & _ & H2 & _).
  split; [exact H1 | exact H2].
Defined.

(** ** Distinct names *)

Lemma names_distinct_run s op :
  SchedRun.short_name op →
  NoDup (Sched.active_names s) → NoDup (Sched.active_names (SchedRun.run s op)).
Proof.
  intros Hshort Hnd. destruct op; simpl in *.
  - destruct n as [nm|]; [by apply createTask_keeps_names_distinct|done].
  - by apply deleteTask_keeps_names_distinct.
  - destruct (set_task_state_same EvTaskSuspend Sched.eSuspended s n lock)
      as (H1 & _). unfold Sched.active_names, Sched.suspendTask.
    by rewrite (same_task_active _ _ H1).
  - destruct (set_task_state_same EvTaskResume Sched.eReady s n lock)
      as (H1 & _). unfold Sched.active_names, Sched.resumeTask.
    by rewrite (same_task_active _ _ H1).
  - destruct (listTasks_same s lock q) as (H1 & _).
    unfold Sched.active_names. by rewrite (same_task_active _ _ H1).
Qed.

(** X15.  As long as every name given to [createTask] has at most 31
    characters, no two active records store the same name, after every
    sequence of [createTask], [deleteTask], [suspendTask], [resumeTask]
    and [listTasks] calls on an initialized scheduler, whatever the
    environment answers. *)
Theorem short_names_stay_distinct (ops : list SchedRun.Op) :
  Forall SchedRun.short_name ops →
  NoDup (Sched.active_names (SchedRun.run_all Sched.fresh ops)).
Proof.
  unfold SchedRun.run_all.
  assert (NoDup (Sched.active_names Sched.fresh)) as Hnd by constructor.
  revert Hnd. generalize Sched.fresh.
  induction ops as [|op ops IH]; intros s Hnd Hall; [done|].
  apply Forall_cons in Hall as [Hop Hall]. simpl.
  by apply IH; [apply names_distinct_run|].
Qed.

Lemma short_names_stay_distinct_witness :
  NoDup (Sched.active_names (SchedRun.run_all Sched.fresh Sample2.sched_calls)).
Proof.
  apply (short_names_stay_distinct Sample2.sched_calls).
  unfold Sample2.sched_calls. repeat constructor; simpl; lia.
Defined.

(** * Further properties of the facade *)

Lemma deleteTask_result s n lock :
  let r := Sched.deleteTask s n lock in
  if r.1.1 then Sched.taskCount r.1.2 = wrap16 (Sched.taskCount s - 1)
  else r.1.2 = s.
Proof.
  unfold Sched.deleteTask. destruct n as [nm|]; [|done].
  destruct (negb (Sched.schedulerMutex s)); [done|].
  destruct (negb lock); [done|].
  by destruct (Sched.findTaskByName s nm) as [[slot t]|].
Qed.

Lemma createTask_result s n fn stack params prio lock created :
  let r := Sched.createTask s n fn stack params prio lock created in
  if r.1.1 then Sched.taskCount r.1.2 = wrap16 (Sched.taskCount s + 1)
  else r.1.2 = s.
Proof.
  cbv zeta.
  destruct (Sched.createTask s n fn stack params prio lock created)
    as [[[] s1] evs] eqn:Hrun; simpl.
  - by apply createTask_success in Hrun
      as (nm & slot & old & h & _ & _ & _ & _ & _ & _ & _ & ->).
  - pose proof (createTask_failure s n fn stack params prio lock created)
      as H. rewrite Hrun in H. by apply H.
Qed.

(** The facade's count mirrors the scheduler's. *)
Lemma mirrored_run k op :
  (Kern.initialized k = true
   ∧ ∃ s, Kern.scheduler k = Some s ∧ SchedAdmin.counted s
          ∧ Kern.totalTasks k = Sched.taskCount s) →
  Kern.initialized (KernAdmin.run k op) = true
  ∧ ∃ s, Kern.scheduler (KernAdmin.run k op) = Some s ∧ SchedAdmin.counted s
         ∧ Kern.totalTasks (KernAdmin.run k op) = Sched.taskCount s.
Proof.
  intros (Hini & s & Hs & Hc & Htt).
  pose proof (active_length_bound s (SchedAdmin.counted_length s Hc)) as Hb.
  pose proof (SchedAdmin.counted_tasks s Hc) as Hcount.
  destruct op as [n fn stack params prio sys lock created | n sys lock
                 | n sys lock | n sys lock]; simpl.
  - unfold Kern.createTask, Kern.takeMutex. rewrite Hini, Hs. simpl.
    destruct (Kern.systemMutex k); simpl; [|eauto 10].
    destruct sys; [|eauto 10].
    pose proof (counted_createTask s n fn stack params prio lock created Hc)
      as Hc'.
    pose proof (createTask_result s n fn stack params prio lock created)
      as Hr.
    destruct (Sched.createTask s n fn stack params prio lock created)
      as [[ok s'] evs]. simpl in *. split; [done|].
    exists s'. split; [done|]. split; [done|].
    destruct ok; [|by subst].
    rewrite Htt, Hr. rewrite Hcount in *.
    rewrite wrap32_small, wrap16_small; lia.
  - unfold Kern.deleteTask, Kern.takeMutex. rewrite Hini, Hs. simpl.
    destruct (Kern.systemMutex k); simpl; [|eauto 10].
    destruct sys; [|eauto 10].
    pose proof (counted_deleteTask s n lock Hc) as Hc'.
    pose proof (deleteTask_result s n lock) as Hr.
    destruct (Sched.deleteTask s n lock) as [[ok s'] evs]. simpl in *.
    split; [done|]. exists s'. split; [done|]. split; [done|].
    destruct ok; [|by subst].
    pose proof (active_length_bound s' (SchedAdmin.counted_length s' Hc'))
      as Hb'.
    rewrite <- (SchedAdmin.counted_tasks s' Hc'), Hr in Hb'.
    rewrite Htt, Hr. rewrite Hcount in *.
    destruct (decide (length (SchedAdmin.active_tasks s) = 0%nat)) as [E|E].
    { rewrite E in Hb'. vm_compute in Hb'. destruct Hb' as [_ Hb'].
      by destruct Hb'. }
    rewrite wrap32_small, wrap16_small; lia.
  - unfold Kern.suspendTask, Kern.guarded, Kern.takeMutex.
    rewrite Hini, Hs. simpl.
    destruct (Kern.systemMutex k); simpl; [|eauto 10].
    destruct sys; [|eauto 10].
    destruct (set_task_state_same EvTaskSuspend Sched.eSuspended s n lock)
      as (H1 & H2 & _). fold Sched.suspendTask in H1, H2.
    destruct (Sched.suspendTask s n lock) as [[ok s'] evs]. simpl in *.
    split; [done|]. exists s'. split; [done|].
    split; [by eapply same_task_counted | congruence].
  - unfold Kern.resumeTask, Kern.guarded, Kern.takeMutex.
    rewrite Hini, Hs. simpl.
    destruct (Kern.systemMutex k); simpl; [|eauto 10].
    destruct sys; [|eauto 10].
    destruct (set_task_state_same EvTaskResume Sched.eReady s n lock)
      as (H1 & H2 & _). fold Sched.resumeTask in H1, H2.
    destruct (Sched.resumeTask s n lock) as [[ok s'] evs]. simpl in *.
    split; [done|]. exists s'. split; [done|].
    split; [by eapply same_task_counted | congruence].
Qed.

(** X16.  After every sequence of the facade's [createTask],
    [deleteTask], [suspendTask] and [resumeTask] calls on a booted kernel,
    whatever the environment answers, [totalTasks] equals the scheduler's
    [taskCount] and the number of active task records, and is at most
    [MAX_TASKS]. *)
Theorem total_tasks_mirrors_scheduler (ops : list KernAdmin.Op) :
  let k := KernAdmin.run_all Kern.booted ops in
  ∃ s, Kern.scheduler k = Some s
       ∧ Kern.totalTasks k = Sched.taskCount s
       ∧ Kern.totalTasks k = Z.of_nat (length (SchedAdmin.active_tasks s))
       ∧ Kern.totalTasks k ≤ Z.of_nat MAX_TASKS.
Proof.
  cbv zeta. unfold KernAdmin.run_all.
  assert (Kern.initialized (foldl KernAdmin.run Kern.booted ops) = true
          ∧ ∃ s, Kern.scheduler (foldl KernAdmin.run Kern.booted ops) = Some s
                 ∧ SchedAdmin.counted s
                 ∧ Kern.totalTasks (foldl KernAdmin.run Kern.booted ops)
                   = Sched.taskCount s) as (_ & s & Hs & Hc & Htt).
  { assert (Kern.initialized Kern.booted = true
            ∧ ∃ s, Kern.scheduler Kern.booted = Some s ∧ SchedAdmin.counted s
                   ∧ Kern.totalTasks Kern.booted = Sched.taskCount s) as H0
      by (split; [done|]; exists Sched.fresh; split; [done|];
          split; [apply counted_fresh | done]).
    revert H0. generalize Kern.booted.
    induction ops as [|op ops IH]; intros k Hk; [done|].
    simpl. by apply IH, mirrored_run. }
  exists s. split; [done|]. split; [done|].
  pose proof (active_length_bound s (SchedAdmin.counted_length s Hc)) as Hb.
  rewrite Htt, (SchedAdmin.counted_tasks s Hc). unfold MAX_TASKS. lia.
Qed.

(** ** [Kernel::init] *)

(** X17.  [init] on a kernel that is not initialized succeeds exactly
    when the three semaphores are created.  On success the kernel is
    initialized and healthy, the boot time is the clock reading, the
    registries are new and initialized, and a second [init] changes
    nothing.  On failure the kernel stays uninitialized and the six
    facade operations do nothing and make no external call. *)
Theorem kernel_init_outcomes k a b c prior now :
  Kern.initialized k = false →
  let r := Kern.init k a b c prior now in
  r.1.1 = a && b && c
  ∧ Kern.initialized r.1.2 = r.1.1
  ∧ (r.1.1 = true →
     Kern.healthy r.1.2 = true ∧ Kern.bootTime r.1.2 = now
     ∧ Kern.systemMutex r.1.2 = true
     ∧ Kern.memoryManager r.1.2 = Some MemRun.initial
     ∧ Kern.scheduler r.1.2
       = Some (Sched.init (Sched.construct prior) true).1.2
     ∧ Kern.totalTasks r.1.2 = Kern.totalTasks k
     ∧ ∀ a' b' c' prior' now',
         Kern.init r.1.2 a' b' c' prior' now' = (true, r.1.2, []))
  ∧ (r.1.1 = false →
     (∀ n fn stack params prio sys lock created,
        Kern.createTask r.1.2 n fn stack params prio sys lock created
        = (false, r.1.2, []))
     ∧ (∀ n sys lock,
          Kern.deleteTask r.1.2 n sys lock = (false, r.1.2, [])
          ∧ Kern.suspendTask r.1.2 n sys lock = (r.1.2, [])
          ∧ Kern.resumeTask r.1.2 n sys lock = (r.1.2, []))
     ∧ (∀ sz e, Kern.allocateMemory r.1.2 sz e = (0, r.1.2, []))
     ∧ (∀ p lock, Kern.freeMemory r.1.2 p lock = (r.1.2, []))).
Proof.
  intros Hini. cbv zeta. unfold Kern.init. rewrite Hini.
  assert (∀ k', Kern.initialized k' = false →
            (∀ n fn stack params prio sys lock created,
               Kern.createTask k' n fn stack params prio sys lock created
               = (false, k', []))
            ∧ (∀ n sys lock,
                 Kern.deleteTask k' n sys lock = (false, k', [])
                 ∧ Kern.suspendTask k' n sys lock = (k', [])
                 ∧ Kern.resumeTask k' n sys lock = (k', []))
            ∧ (∀ sz e, Kern.allocateMemory k' sz e = (0, k', []))
            ∧ (∀ p lock, Kern.freeMemory k' p lock = (k', []))) as Hoff.
  { intros k' Hk'.
    unfold Kern.createTask, Kern.deleteTask, Kern.suspendTask,
      Kern.resumeTask, Kern.guarded, Kern.allocateMemory, Kern.freeMemory.
    rewrite Hk'. by repeat split. }
  destruct a; simpl;
    [|split; [done|]; split; [done|]; split; [intros [=]|];
      intros _; by apply Hoff].
  destruct b; simpl;
    [|split; [done|]; split; [done|]; split; [intros [=]|];
      intros _; by apply Hoff].
  destruct c; simpl;
    [|split; [done|]; split; [done|]; split; [intros [=]|];
      intros _; by apply Hoff].
  split; [done|]. split; [done|]. split; [|intros [=]].
  intros _. repeat split; reflexivity.
Qed.

Lemma kernel_init_outcomes_witness :
  (Kern.init Kern.construct true false true (λ _, Sched.zeroed) 40).1.1
  = false
  ∧ Kern.bootTime
      (Kern.init Kern.construct true true true (λ _, Sched.zeroed) 40).1.2
    = 40.
Proof.
  split.
  - exact (proj1 (kernel_init_outcomes Kern.construct true false true
                    (λ _, Sched.zeroed) 40 eq_refl)).
  - destruct (kernel_init_outcomes Kern.construct true true true
                (λ _, Sched.zeroed) 40 eq_refl) as (_ & _ & H & _).
    exact (proj1 (proj2 (H eq_refl))).
Defined.

(** ** [Kernel::updateSystemStats] *)

(** X18.  [updateSystemStats] on an initialized kernel reports the whole
    seconds since boot, also when the 32-bit millisecond clock has rolled
    over once since then; so [uptime] does not go backwards while less
    than [2^32] ms have passed.  It marks the kernel healthy exactly when
    at least 10240 bytes of heap are free, and prints the warning
    exactly when it is not.  The task count and the registries are not
    touched. *)
Theorem uptime_counts_seconds_since_boot k elapsed later heap_free heap_min :
  Kern.initialized k = true →
  0 ≤ Kern.bootTime k < 2 ^ 32 → 0 ≤ elapsed ≤ later → later < 2 ^ 32 →
  let at_ ms := KernAdmin.updateSystemStats k
                  (wrap32 (Kern.bootTime k + ms)) heap_free heap_min in
  Kern.uptime (at_ elapsed).1 = elapsed / 1000
  ∧ Kern.uptime (at_ elapsed).1 ≤ Kern.uptime (at_ later).1
  ∧ (Kern.healthy (at_ elapsed).1 = true ↔ 10240 ≤ heap_free)
  ∧ ((at_ elapsed).2
     = if Kern.healthy (at_ elapsed).1 then []
       else [EvPrintln (PStr "WARNING: Low memory condition detected")])
  ∧ Kern.freeMem (at_ elapsed).1 = heap_free
  ∧ Kern.minFreeMem (at_ elapsed).1 = heap_min
  ∧ Kern.totalTasks (at_ elapsed).1 = Kern.totalTasks k
  ∧ Kern.scheduler (at_ elapsed).1 = Kern.scheduler k
  ∧ Kern.memoryManager (at_ elapsed).1 = Kern.memoryManager k.
Proof.
  intros Hini Hboot Hel Hlater. cbv zeta.
  assert (∀ ms, 0 ≤ ms < 2 ^ 32 →
            wrap32 (wrap32 (Kern.bootTime k + ms) - Kern.bootTime k) = ms)
    as Hwrap.
  { intros ms Hms. destruct (wrap32_sub_congr (Kern.bootTime k + ms)
                               (Kern.bootTime k) 0) as (-> & _).
    rewrite wrap32_small; lia. }
  unfold KernAdmin.updateSystemStats, KernAdmin.getFreeMemory,
    KernAdmin.getMinFreeMemory. rewrite Hini. simpl.
  rewrite !Hwrap by lia.
  split; [done|]. split; [apply Z.div_le_mono; lia|].
  destruct (Z.ltb_spec heap_free 10240); simpl; repeat split; try done; lia.
Qed.

Lemma uptime_counts_seconds_since_boot_witness :
  Kern.uptime
    (KernAdmin.updateSystemStats
       (Kern.init Kern.construct true true true (λ _, Sched.zeroed)
          4294960000).1.2
       (wrap32 (4294960000 + 10000)) 20000 15000).1 = 10.
Proof.
  exact (proj1 (uptime_counts_seconds_since_boot
                  (Kern.init Kern.construct true true true
                     (λ _, Sched.zeroed) 4294960000).1.2
                  10000 10000 20000 15000 eq_refl
                  ltac:(vm_compute; split; [discriminate | reflexivity])
                  ltac:(lia) ltac:(lia))).
Defined.

(** ** [Kernel::shutdown] *)

(** X19.  [shutdown] of an initialized kernel deletes every active task,
    then hands every live block to [::free], and leaves the kernel
    uninitialized, unhealthy and without registries; a second [shutdown]
    does nothing.  [totalTasks] is not reset: after a following [init] the
    scheduler is new and counts no task, but [totalTasks] still holds the
    count from before the shutdown. *)
Theorem kernel_shutdown_then_init k s m prior now :
  Kern.initialized k = true →
  Kern.scheduler k = Some s → Kern.memoryManager k = Some m →
  SchedAdmin.handled s → MemAdmin.tidy m → Mem.memoryMutex m = true →
  let r := KernAdmin.shutdown k in
  let r2 := Kern.init r.1 true true true prior now in
  r.2 = (EvTaskDelete <$> (Sched.handle <$> SchedAdmin.active_tasks s))
        ++ [EvTake MemoryMutex MemAdmin.PORT_MAX_DELAY]
        ++ (EvFree <$> (Mem.ptr <$> MemAdmin.live (Mem.blocks m)))
        ++ [EvGive MemoryMutex]
  ∧ Kern.initialized r.1 = false ∧ Kern.healthy r.1 = false
  ∧ Kern.scheduler r.1 = None ∧ Kern.memoryManager r.1 = None
  ∧ Kern.systemMutex r.1 = false
  ∧ KernAdmin.shutdown r.1 = (r.1, [])
  ∧ r2.1.1 = true
  ∧ (Sched.taskCount <$> Kern.scheduler r2.1.2) = Some 0
  ∧ Kern.memoryManager r2.1.2 = Some MemRun.initial
  ∧ Kern.totalTasks r2.1.2 = Kern.totalTasks k.
Proof.
  intros Hini Hs Hm Hh Ht Hmx. cbv zeta.
  unfold KernAdmin.shutdown. rewrite Hini, Hs, Hm. simpl.
  destruct (stop_all _ Hh) as (H1 & _).
  pose proof (proj1 (memory_shutdown_events m Ht Hmx)) as H2.
  unfold SchedAdmin.shutdown. simpl. rewrite H1, H2.
  by repeat split.
Qed.

Lemma kernel_shutdown_then_init_witness :
  (KernAdmin.shutdown Sample2.busy).2
  = [EvTaskDelete 101; EvTake MemoryMutex MemAdmin.PORT_MAX_DELAY;
     EvFree 4096; EvGive MemoryMutex]
  ∧ Kern.totalTasks
      (Kern.init (KernAdmin.shutdown Sample2.busy).1 true true true
         (λ _, Sched.zeroed) 50).1.2 = 1.
Proof.
  destruct (Kern.scheduler Sample2.busy) as [s|] eqn:Es;
    [|by vm_compute in Es].
  destruct (Kern.memoryManager Sample2.busy) as [m|] eqn:Em;
    [|by vm_compute in Em].
  assert (SchedAdmin.handled s) as Hh.
  { vm_compute in Es. simplify_eq. unfold SchedAdmin.handled. simpl.
    repeat constructor; discriminate. }
  assert (MemAdmin.tidy m ∧ Mem.memoryMutex m = true) as [Ht Hmx].
  { vm_compute in Em. simplify_eq. split; [|reflexivity].
    split; [reflexivity|]. simpl.
    repeat constructor; try discriminate; simpl; lia. }
  destruct (kernel_shutdown_then_init Sample2.busy s m (λ _, Sched.zeroed) 50
              eq_refl Es Em Hh Ht Hmx)
    as (H1 & _ & _ & _ & _ & _ & _ & _ & _ & _ & H2).
  split.
  - rewrite H1. vm_compute in Es, Em. by simplify_eq.
  - rewrite H2. reflexivity.
Defined.

(** * Properties of the command table *)

Lemma find_command_listed i n d cmd :
  Cmd.commandList !! i = Some (n, d) → Cmd.lower cmd = n →
  Cmd.find_command cmd = Some (i, (n, d)).
Proof.
  intros Hi Hn. unfold Cmd.find_command, Cmd.strcasecmp_eq.
  do 14 (destruct i as [|i];
    [simpl in Hi; injection Hi as <- <-; rewrite Hn; reflexivity|]).
  done.
Qed.

Lemma find_command_unlisted cmd :
  Cmd.lower cmd ∉ Cmd.commandList.*1 → Cmd.find_command cmd = None.
Proof.
  intros Hn. apply list_find_None.
  unfold Cmd.commandList, Cmd.strcasecmp_eq.
  repeat (constructor;
    [intros H%String.eqb_eq; apply Hn; rewrite H;
     apply list_elem_of_In; simpl; tauto|]).
  constructor.
Qed.

(** X20.  The three lookups in the command table agree and ignore letter
    case: a word that is a listed name up to case makes [execute] call
    the handler of that entry with the arguments unchanged and return
    true, is valid, and has that entry's description; any other word
    calls nothing, is invalid, and has no description.  A null pointer is
    refused by all three. *)
Theorem command_lookup_ignores_case cmd args :
  (∀ i n d, Cmd.commandList !! i = Some (n, d) → Cmd.lower cmd = n →
     Cmd.execute (Some cmd) args = (true, [Handler i args])
     ∧ Cmd.isValidCommand (Some cmd) = true
     ∧ Cmd.getCommandDescription (Some cmd) = Some d)
  ∧ (Cmd.lower cmd ∉ Cmd.commandList.*1 →
     Cmd.execute (Some cmd) args = (false, [])
     ∧ Cmd.isValidCommand (Some cmd) = false
     ∧ Cmd.getCommandDescription (Some cmd) = None)
  ∧ Cmd.execute None args = (false, [])
  ∧ Cmd.isValidCommand None = false
  ∧ Cmd.getCommandDescription None = None.
Proof.
  split; [|split; [|done]].
  - intros i n d Hi Hn.
    unfold Cmd.execute, Cmd.isValidCommand, Cmd.getCommandDescription.
    by rewrite (find_command_listed i n d cmd Hi Hn).
  - intros Hn.
    unfold Cmd.execute, Cmd.isValidCommand, Cmd.getCommandDescription.
    by rewrite (find_command_unlisted cmd Hn).
Qed.

Lemma command_lookup_ignores_case_witness :
  Cmd.execute (Some "TaSkS"%string) ["now"%string]
  = (true, [Handler 7 ["now"%string]])
  ∧ Cmd.isValidCommand (Some "dir"%string) = false.
Proof.
  destruct (command_lookup_ignores_case "TaSkS" ["now"%string])
    as (H1 & _).
  destruct (command_lookup_ignores_case "dir" []) as (_ & H2 & _).
  split.
  - by apply (H1 7%nat "tasks"%string "Show task information"%string).
  - apply H2. vm_compute. intros H%list_elem_of_In. simpl in H.
    repeat (destruct H as [H|H]; [discriminate H|]). done.
Defined.

(** X21.  [formatTime] writes nothing into a buffer of fewer than 32
    bytes or a null buffer.  Otherwise it hands [snprintf] hours below
    24, minutes below 60 and seconds below 60 that, with the days, add up
    to the input; the days are part of the output only when there is at
    least one. *)
Theorem formatTime_fields seconds size :
  0 ≤ seconds →
  (size < 32 → Cmd.formatTime seconds true size = None)
  ∧ Cmd.formatTime seconds false size = None
  ∧ (32 ≤ size →
     ∃ d h m s,
       seconds = d * 86400 + h * 3600 + m * 60 + s
       ∧ 0 ≤ d ∧ 0 ≤ h < 24 ∧ 0 ≤ m < 60 ∧ 0 ≤ s < 60
       ∧ Cmd.formatTime seconds true size
         = Some (if 0 <? d
                 then ("%lu days, %02lu:%02lu:%02lu"%string,
                       [AInt d; AInt h; AInt m; AInt s])
                 else ("%02lu:%02lu:%02lu"%string,
                       [AInt h; AInt m; AInt s]))).
Proof.
  intros Hs. unfold Cmd.formatTime. split; [|split; [done|]].
  - intros H. simpl. by rewrite (proj2 (Z.ltb_lt size 32)) by done.
  - intros H. simpl. rewrite (proj2 (Z.ltb_ge size 32)) by done.
    exists (seconds / 86400), (seconds mod 86400 / 3600),
      ((seconds mod 86400) mod 3600 / 60),
      (((seconds mod 86400) mod 3600) mod 60).
    pose proof (Z.div_mod seconds 86400 ltac:(lia)).
    pose proof (Z.mod_pos_bound seconds 86400 ltac:(lia)).
    pose proof (Z.div_mod (seconds mod 86400) 3600 ltac:(lia)).
    pose proof (Z.mod_pos_bound (seconds mod 86400) 3600 ltac:(lia)).
    pose proof (Z.div_mod ((seconds mod 86400) mod 3600) 60 ltac:(lia)).
    pose proof (Z.mod_pos_bound ((seconds mod 86400) mod 3600) 60 ltac:(lia)).
    pose proof (Z.div_pos seconds 86400 Hs ltac:(lia)).
    assert (seconds mod 86400 / 3600 < 24)
      by (apply Z.div_lt_upper_bound; lia).
    assert (0 ≤ seconds mod 86400 / 3600) by (apply Z.div_pos; lia).
    assert ((seconds mod 86400) mod 3600 / 60 < 60)
      by (apply Z.div_lt_upper_bound; lia).
    assert (0 ≤ (seconds mod 86400) mod 3600 / 60) by (apply Z.div_pos; lia).
    repeat split; try lia.
    by destruct (0 <? seconds / 86400).
Qed.

Lemma formatTime_fields_witness :
  Cmd.formatTime 93784 true 32
  = Some ("%lu days, %02lu:%02lu:%02lu"%string,
          [AInt 1; AInt 2; AInt 3; AInt 4])
  ∧ Cmd.formatTime 93784 true 31 = None.
Proof.
  destruct (formatTime_fields 93784 31 ltac:(lia)) as (H & _).
  split; [reflexivity | apply H; lia].
Defined.

(** * Properties of the command line parser *)

Lemma str_app_cons c a b : String c a +:+ b = String c (a +:+ b).
Proof. reflexivity. Qed.

Lemma str_app_nil_l b : EmptyString +:+ b = b.
Proof. reflexivity. Qed.

Lemma str_app_length a b :
  String.length (a +:+ b) = (String.length a + String.length b)%nat.
Proof.
  induction a as [|c a IH]; [done|].
  rewrite str_app_cons. simpl. by rewrite IH.
Qed.

Lemma str_app_assoc a b c : (a +:+ b) +:+ c = a +:+ (b +:+ c).
Proof.
  induction a as [|x a IH]; [done|]. rewrite !str_app_cons. by rewrite IH.
Qed.

Lemma str_app_nil_r a : a +:+ EmptyString = a.
Proof.
  induction a as [|x a IH]; [done|]. rewrite str_app_cons. by rewrite IH.
Qed.

Lemma take_word_length n s :
  (String.length (Shell.take_word n s).1 ≤ n)%nat.
Proof.
  revert s. induction n as [|n IH]; intros [|c s]; simpl; try lia.
  destruct (Shell.is_blank c); simpl; [lia|].
  specialize (IH s). destruct (Shell.take_word n s). simpl in *. lia.
Qed.

Lemma take_quoted_length n s :
  (String.length (Shell.take_quoted n s).1 ≤ n)%nat.
Proof.
  revert s. induction n as [|n IH]; intros [|c s]; simpl; try lia.
  destruct (c =? Shell.QUOTE)%char; simpl; [lia|].
  specialize (IH s). destruct (Shell.take_quoted n s). simpl in *. lia.
Qed.

Lemma parse_args_cons k c s :
  Shell.parse_args (S k) (String c s)
  = (if (c =? Shell.QUOTE)%char then Shell.take_quoted 31 s
     else Shell.take_word 31 (String c s)).1
    :: Shell.parse_args k
         (Shell.skip_blank
            (if (c =? Shell.QUOTE)%char then Shell.take_quoted 31 s
             else Shell.take_word 31 (String c s)).2).
Proof.
  cbn [Shell.parse_args].
  by destruct (if (c =? Shell.QUOTE)%char then Shell.take_quoted 31 s
               else Shell.take_word 31 (String c s)).
Qed.

Lemma parse_args_bounds k s :
  (length (Shell.parse_args k s) ≤ k)%nat
  ∧ Forall (λ a, (String.length a ≤ 31)%nat) (Shell.parse_args k s).
Proof.
  revert s. induction k as [|k IH]; intros [|c s];
    try (split; [simpl; lia | constructor]).
  rewrite parse_args_cons.
  pose proof (take_quoted_length 31 s) as Hq.
  pose proof (take_word_length 31 (String c s)) as Hw.
  destruct (c =? Shell.QUOTE)%char.
  - destruct (IH (Shell.skip_blank (Shell.take_quoted 31 s).2)) as [H1 H2].
    split; [rewrite length_cons; lia | by constructor].
  - destruct (IH (Shell.skip_blank (Shell.take_word 31 (String c s)).2))
      as [H1 H2].
    split; [rewrite length_cons; lia | by constructor].
Qed.

(** X22.  Whatever the line, [parseCommand] writes a command of at most
    31 characters and at most [SHELL_MAX_ARGS] arguments of at most 31
    characters each: the [char[32]] buffers of the caller are never
    overrun. *)
Theorem parseCommand_stays_in_bounds cmdLine :
  (String.length (Shell.parseCommand cmdLine).1 ≤ 31)%nat
  ∧ (length (Shell.parseCommand cmdLine).2 ≤ Shell.SHELL_MAX_ARGS)%nat
  ∧ Forall (λ a, (String.length a ≤ 31)%nat) (Shell.parseCommand cmdLine).2.
Proof.
  unfold Shell.parseCommand.
  pose proof (take_word_length 31 cmdLine) as Hw.
  destruct (Shell.take_word 31 cmdLine) as [cmd rest].
  destruct (parse_args_bounds Shell.SHELL_MAX_ARGS (Shell.skip_blank rest)).
  by simpl in *.
Qed.

Lemma take_word_plain n w r :
  Shell.no_blank w = true → (String.length w ≤ n)%nat →
  match r with
  | EmptyString => True
  | String c _ => Shell.is_blank c = true
  end →
  Shell.take_word n (w +:+ r) = (w, r).
Proof.
  revert n. induction w as [|a w IH]; intros n Hb Hl Hr.
  - rewrite str_app_nil_l. destruct n, r as [|c r]; try done.
    simpl. by rewrite Hr.
  - destruct n as [|n]; simpl in Hl; [lia|].
    simpl in Hb. apply andb_prop in Hb as [Ha Hb].
    rewrite str_app_cons. simpl. apply negb_true_iff in Ha. rewrite Ha.
    by rewrite (IH n Hb ltac:(lia) Hr).
Qed.

Lemma spaced_start ws :
  match Shell.spaced ws with
  | EmptyString => True
  | String c _ => Shell.is_blank c = true
  end.
Proof. by destruct ws. Qed.

Lemma skip_blank_word w r :
  w ≠ EmptyString → Shell.no_blank w = true →
  Shell.skip_blank (w +:+ r) = w +:+ r.
Proof.
  destruct w as [|c w]; [done|]. intros _ Hb. rewrite str_app_cons.
  simpl in *. apply andb_prop in Hb as [Ha _]. apply negb_true_iff in Ha.
  by rewrite Ha.
Qed.

Lemma parse_args_spaced k ws :
  (length ws ≤ k)%nat → Forall Shell.plain ws →
  Shell.parse_args k (Shell.skip_blank (Shell.spaced ws)) = ws.
Proof.
  revert k. induction ws as [|w ws IH]; intros k Hk Hp.
  - by destruct k.
  - destruct k as [|k]; simpl in Hk; [lia|].
    apply Forall_cons in Hp as [(Hne & Hl & Hb & Hq) Hp].
    change (Shell.spaced (w :: ws)) with (String " " (w +:+ Shell.spaced ws)).
    change (Shell.skip_blank (String " " (w +:+ Shell.spaced ws)))
      with (Shell.skip_blank (w +:+ Shell.spaced ws)).
    rewrite skip_blank_word by done.
    pose proof (take_word_plain 31 w (Shell.spaced ws) Hb Hl (spaced_start ws))
      as Ht.
    destruct w as [|c w]; [done|].
    simpl in Hq. apply andb_prop in Hq as [Hc _].
    apply negb_true_iff in Hc.
    rewrite str_app_cons in *.
    rewrite parse_args_cons, Hc, Ht. simpl.
    by rewrite (IH k ltac:(lia) Hp).
Qed.

Lemma parseCommand_spaced cmd ws :
  Shell.no_blank cmd = true → (String.length cmd ≤ 31)%nat →
  (length ws ≤ Shell.SHELL_MAX_ARGS)%nat → Forall Shell.plain ws →
  Shell.parseCommand (cmd +:+ Shell.spaced ws) = (cmd, ws).
Proof.
  intros Hb Hl Hk Hp. unfold Shell.parseCommand.
  rewrite (take_word_plain 31 cmd (Shell.spaced ws) Hb Hl (spaced_start ws)).
  by rewrite parse_args_spaced.
Qed.

(** X23.  A command word of at most 31 characters followed by at most
    [SHELL_MAX_ARGS] words of 1 to 31 characters, none with a blank or a
    double quote in it and each after one space, is read back as that
    command and those arguments. *)
Theorem parseCommand_reads_words_back cmd ws :
  Shell.no_blank cmd = true → (String.length cmd ≤ 31)%nat →
  (length ws ≤ Shell.SHELL_MAX_ARGS)%nat → Forall Shell.plain ws →
  Shell.parseCommand (cmd +:+ Shell.spaced ws) = (cmd, ws).
Proof. apply parseCommand_spaced. Qed.

Lemma parseCommand_reads_words_back_witness :
  Shell.parseCommand "led toggle now"%string
  = ("led"%string, ["toggle"; "now"]%string).
Proof.
  apply (parseCommand_reads_words_back "led" ["toggle"; "now"]%string).
  - reflexivity.
  - simpl. lia.
  - simpl. unfold Shell.SHELL_MAX_ARGS. lia.
  - repeat constructor; try done; simpl; lia.
Defined.

Lemma take_quoted_closed n b r :
  Shell.no_quote b = true → (String.length b < n)%nat →
  Shell.take_quoted n (b +:+ String Shell.QUOTE r) = (b, r).
Proof.
  revert n. induction b as [|a b IH]; intros n Hq Hl.
  - rewrite str_app_nil_l. destruct n; [simpl in Hl; lia | done].
  - destruct n as [|n]; simpl in Hl; [lia|].
    simpl in Hq. apply andb_prop in Hq as [Ha Hq].
    rewrite str_app_cons. simpl. apply negb_true_iff in Ha. rewrite Ha.
    by rewrite (IH n Hq ltac:(lia)).
Qed.

Lemma take_quoted_full n b r :
  Shell.no_quote b = true → String.length b = n →
  Shell.take_quoted n (b +:+ r) = (b, r).
Proof.
  revert n. induction b as [|a b IH]; intros n Hq Hl.
  - rewrite str_app_nil_l. by subst n.
  - destruct n as [|n]; simpl in Hl; [lia|].
    simpl in Hq. apply andb_prop in Hq as [Ha Hq].
    rewrite str_app_cons. simpl. apply negb_true_iff in Ha. rewrite Ha.
    by rewrite (IH n Hq ltac:(lia)).
Qed.

(** X24.  A double-quoted argument keeps its blanks.  With up to 30
    characters between the quotes it is read as one argument.  With
    exactly 31 the closing quote is not stepped over when the room runs
    out: it opens a second, empty argument. *)
Theorem quoted_argument cmd body :
  Shell.no_blank cmd = true → (String.length cmd ≤ 31)%nat →
  Shell.no_quote body = true →
  let line :=
    cmd +:+ String " " (String Shell.QUOTE
                          (body +:+ String Shell.QUOTE EmptyString)) in
  ((String.length body ≤ 30)%nat →
   Shell.parseCommand line = (cmd, [body]))
  ∧ (String.length body = 31%nat →
     Shell.parseCommand line = (cmd, [body; EmptyString])).
Proof.
  intros Hb Hl Hq line. subst line. unfold Shell.parseCommand.
  rewrite (take_word_plain 31 cmd (String " " _) Hb Hl eq_refl).
  change (Shell.skip_blank (String " " ?r)) with (Shell.skip_blank r).
  change (Shell.skip_blank (String Shell.QUOTE ?r)) with (String Shell.QUOTE r).
  unfold Shell.SHELL_MAX_ARGS. rewrite parse_args_cons.
  change (Shell.QUOTE =? Shell.QUOTE)%char with true. cbv iota.
  split; intros Hn.
  - rewrite (take_quoted_closed 31 body EmptyString Hq ltac:(lia)). done.
  - rewrite (take_quoted_full 31 body _ Hq Hn). done.
Qed.

Lemma quoted_argument_witness :
  Shell.parseCommand
    ("echo " +:+ String Shell.QUOTE ("a  b" +:+ String Shell.QUOTE EmptyString))
  = ("echo"%string, ["a  b"%string]).
Proof.
  by apply (quoted_argument "echo" "a  b" eq_refl ltac:(simpl; lia) eq_refl);
    simpl; lia.
Defined.

Lemma take_word_split n s :
  Shell.no_blank s = true →
  (Shell.take_word n s).1 = str_take n s
  ∧ (Shell.take_word n s).1 +:+ (Shell.take_word n s).2 = s
  ∧ Shell.no_blank (Shell.take_word n s).2 = true
  ∧ (Shell.no_quote s = true → Shell.no_quote (Shell.take_word n s).2 = true).
Proof.
  revert s. induction n as [|n IH]; intros [|c s] Hb; try done.
  simpl in Hb. apply andb_prop in Hb as [Ha Hb].
  destruct (IH s Hb) as (H1 & H2 & H3 & H4).
  apply negb_true_iff in Ha.
  assert (Shell.take_word (S n) (String c s)
          = (String c (Shell.take_word n s).1, (Shell.take_word n s).2)) as ->.
  { simpl. rewrite Ha. by destruct (Shell.take_word n s). }
  cbn [fst snd str_take]. rewrite str_app_cons, H2, H1.
  repeat split; try done.
  simpl. intros [_ Hq]%andb_prop. by apply H4.
Qed.

Lemma skip_blank_none s : Shell.no_blank s = true → Shell.skip_blank s = s.
Proof.
  destruct s as [|c s]; [done|]. simpl. intros [Ha _]%andb_prop.
  apply negb_true_iff in Ha. by rewrite Ha.
Qed.

Lemma parse_args_pieces k s :
  Shell.no_blank s = true → Shell.no_quote s = true →
  (String.length s ≤ 31 * k)%nat →
  Shell.str_concat (Shell.parse_args k s) = s.
Proof.
  revert s. induction k as [|k IH]; intros [|c s] Hb Hq Hl; try done.
  - simpl in Hl. lia.
  - rewrite parse_args_cons.
    pose proof Hq as Hq'. simpl in Hq'. apply andb_prop in Hq' as [Hc _].
    apply negb_true_iff in Hc. rewrite Hc.
    destruct (take_word_split 31 (String c s) Hb) as (H1 & H2 & H3 & H4).
    rewrite (skip_blank_none _ H3).
    cbn [Shell.str_concat]. rewrite IH; [done | done | by apply H4 |].
    assert (String.length (String c s)
            = (String.length (Shell.take_word 31 (String c s)).1
               + String.length (Shell.take_word 31 (String c s)).2)%nat) as He
      by (by rewrite <- str_app_length, H2).
    rewrite H1, str_take_length in He.
    destruct (Nat.min_spec 31 (String.length (String c s))) as [[? Hm]|[? Hm]];
      rewrite Hm in He; lia.
Qed.

(** X25.  A word without blanks or quotes that is longer than a buffer is
    not refused but cut: the command is its first 31 characters, and the
    characters after them become arguments, in order.  Up to 31 * 17
    characters nothing is lost. *)
Theorem long_word_is_cut_into_arguments w :
  Shell.no_blank w = true → Shell.no_quote w = true →
  (String.length w ≤ 527)%nat →
  (Shell.parseCommand w).1 = str_take 31 w
  ∧ (Shell.parseCommand w).1
    +:+ Shell.str_concat (Shell.parseCommand w).2 = w
  ∧ ((31 < String.length w)%nat → (Shell.parseCommand w).2 ≠ []).
Proof.
  intros Hb Hq Hl. unfold Shell.parseCommand.
  destruct (take_word_split 31 w Hb) as (H1 & H2 & H3 & H4).
  assert (String.length w
          = (String.length (Shell.take_word 31 w).1
             + String.length (Shell.take_word 31 w).2)%nat) as He
    by (by rewrite <- str_app_length, H2).
  rewrite H1, str_take_length in He.
  destruct (Shell.take_word 31 w) as [cmd rest]. cbn [fst snd] in *.
  rewrite (skip_blank_none _ H3). split; [done|]. split.
  - rewrite parse_args_pieces; [done | done | by apply H4 |].
    unfold Shell.SHELL_MAX_ARGS.
    destruct (Nat.min_spec 31 (String.length w)) as [[? Hm]|[? Hm]];
      rewrite Hm in He; lia.
  - intros Hlong. destruct rest as [|c rest].
    + rewrite Nat.min_l in He by lia.
      change (String.length EmptyString) with 0%nat in He. lia.
    + unfold Shell.SHELL_MAX_ARGS. by rewrite parse_args_cons.
Qed.

Lemma long_word_is_cut_into_arguments_witness :
  (Shell.parseCommand "abcdefghijklmnopqrstuvwxyz0123456789").1
  = "abcdefghijklmnopqrstuvwxyz01234"%string
  ∧ (Shell.parseCommand "abcdefghijklmnopqrstuvwxyz0123456789").2
    = ["56789"%string].
Proof.
  destruct (long_word_is_cut_into_arguments
              "abcdefghijklmnopqrstuvwxyz0123456789"
              eq_refl eq_refl ltac:(simpl; lia)) as (H1 & _ & _).
  split; [by rewrite H1 | reflexivity].
Defined.

(** * Properties of the input buffer *)

Lemma c_str_push buf i c :
  String.length (Shell.c_str buf) = i → (S i < length buf)%nat →
  c ≠ Shell.NUL →
  Shell.c_str (<[S i := Shell.NUL]> (<[i := c]> buf))
  = Shell.c_str buf +:+ String c EmptyString.
Proof.
  revert i. induction buf as [|b buf IH]; intros i Hi Hl Hc.
  - simpl in Hl. lia.
  - simpl in Hi. destruct (b =? Shell.NUL)%char eqn:Eb.
    + simpl in Hi. subst i. destruct buf as [|x buf]; [simpl in Hl; lia|].
      simpl. rewrite Eb. apply Ascii.eqb_neq in Hc. by rewrite Hc.
    + simpl in Hi. subst i. simpl. rewrite Eb, str_app_cons.
      rewrite (IH _ eq_refl); [done | simpl in Hl; lia | done].
Qed.

Lemma c_str_pop buf i :
  String.length (Shell.c_str buf) = S i →
  Shell.c_str (<[i := Shell.NUL]> buf) = str_take i (Shell.c_str buf).
Proof.
  revert i. induction buf as [|b buf IH]; intros i Hi; [done|].
  simpl in Hi. destruct (b =? Shell.NUL)%char eqn:Eb; [done|].
  simpl in Hi. destruct i as [|i]; [done|].
  simpl. rewrite Eb. simpl. rewrite IH; [done | lia].
Qed.

Lemma str_take_app_exact a b :
  str_take (String.length a) (a +:+ b) = a.
Proof.
  induction a as [|c a IH]; [by destruct b|].
  rewrite str_app_cons. simpl. by rewrite IH.
Qed.

Lemma printable_not_nul c : Shell.printable c = true → c ≠ Shell.NUL.
Proof. by intros H ->. Qed.

Lemma handleChar_room s c :
  Shell.tidy s → Shell.bufferPos s < 255 → c ≠ Shell.NUL →
  Shell.tidy (Shell.handleChar s c).1
  ∧ Shell.c_str (Shell.inputBuffer (Shell.handleChar s c).1)
    = Shell.c_str (Shell.inputBuffer s) +:+ String c EmptyString
  ∧ Shell.bufferPos (Shell.handleChar s c).1 = Shell.bufferPos s + 1
  ∧ Shell.echoEnabled (Shell.handleChar s c).1 = Shell.echoEnabled s
  ∧ Shell.commands (Shell.handleChar s c).1 = Shell.commands s
  ∧ (Shell.handleChar s c).2
    = (if Shell.echoEnabled s then [Shell.print_char c] else []).
Proof.
  intros [Hlen Hpos Hstr] Hroom Hc. unfold Shell.handleChar.
  change (Z.of_nat Shell.SHELL_BUFFER_SIZE - 1) with 255 in *.
  change (Z.of_nat Shell.SHELL_BUFFER_SIZE) with 256 in *.
  rewrite (proj2 (Z.ltb_lt _ _) Hroom). cbn [fst snd].
  rewrite wrap16_small by lia.
  assert (Z.to_nat (Shell.bufferPos s + 1) = S (Z.to_nat (Shell.bufferPos s)))
    as Hs by lia.
  assert (Shell.c_str
            (<[Z.to_nat (Shell.bufferPos s + 1) := Shell.NUL]>
               (<[Z.to_nat (Shell.bufferPos s) := c]> (Shell.inputBuffer s)))
          = Shell.c_str (Shell.inputBuffer s) +:+ String c EmptyString) as He.
  { rewrite Hs. apply c_str_push; [done | | done].
    rewrite Hlen. unfold Shell.SHELL_BUFFER_SIZE. lia. }
  repeat split; cbn [Shell.inputBuffer Shell.bufferPos]; try done.
  - by rewrite !length_insert.
  - change (Z.of_nat Shell.SHELL_BUFFER_SIZE) with 256. lia.
  - change (Z.of_nat Shell.SHELL_BUFFER_SIZE) with 256. lia.
  - rewrite He, str_app_length, Hstr. simpl. lia.
Qed.

Lemma handleChar_full s c :
  Shell.bufferPos s = 255 →
  Shell.handleChar s c
  = (s, if Shell.echoEnabled s then [Shell.print_char Shell.BEL] else []).
Proof. intros H. unfold Shell.handleChar. by rewrite H. Qed.

Lemma handleBackspace_some s :
  Shell.tidy s → 0 < Shell.bufferPos s →
  Shell.tidy (Shell.handleBackspace s).1
  ∧ Shell.c_str (Shell.inputBuffer (Shell.handleBackspace s).1)
    = str_take (Z.to_nat (Shell.bufferPos s - 1))
        (Shell.c_str (Shell.inputBuffer s))
  ∧ Shell.bufferPos (Shell.handleBackspace s).1 = Shell.bufferPos s - 1.
Proof.
  intros [Hlen Hpos Hstr] Hp. unfold Shell.handleBackspace.
  change (Z.of_nat Shell.SHELL_BUFFER_SIZE) with 256 in *.
  rewrite (proj2 (Z.ltb_lt _ _) Hp). cbn [fst snd].
  rewrite wrap16_small by lia.
  assert (Shell.c_str
            (<[Z.to_nat (Shell.bufferPos s - 1) := Shell.NUL]>
               (Shell.inputBuffer s))
          = str_take (Z.to_nat (Shell.bufferPos s - 1))
              (Shell.c_str (Shell.inputBuffer s))) as He.
  { apply c_str_pop. rewrite Hstr. lia. }
  repeat split; cbn [Shell.inputBuffer Shell.bufferPos]; try done.
  - by rewrite length_insert.
  - lia.
  - change (Z.of_nat Shell.SHELL_BUFFER_SIZE) with 256. lia.
  - rewrite He, str_take_length, Hstr. lia.
Qed.

Lemma processInput_typing cs s :
  Shell.tidy s →
  Forall (λ c, c ≠ Shell.CR ∧ c ≠ Shell.LF ∧ c ≠ Shell.DEL ∧ c ≠ Shell.BS) cs →
  ∃ s',
    Shell.processInput s cs
    = (Some s',
       if Shell.echoEnabled s then
         (Shell.print_char
            <$> take (255 - Z.to_nat (Shell.bufferPos s))
                  (filter (λ c, Shell.printable c = true) cs))
         ++ replicate
              (length (filter (λ c, Shell.printable c = true) cs)
               - (255 - Z.to_nat (Shell.bufferPos s)))
              (Shell.print_char Shell.BEL)
       else [])
    ∧ Shell.tidy s'
    ∧ Shell.c_str (Shell.inputBuffer s')
      = str_take 255
          (Shell.c_str (Shell.inputBuffer s)
           +:+ string_of_list_ascii
                 (filter (λ c, Shell.printable c = true) cs))
    ∧ Shell.echoEnabled s' = Shell.echoEnabled s
    ∧ Shell.commands s' = Shell.commands s.
Proof.
  revert s. induction cs as [|c cs IH]; intros s Ht Hcs.
  - exists s. cbn [Shell.processInput]. rewrite filter_nil.
    cbn [string_of_list_ascii]. rewrite str_app_nil_r.
    rewrite str_take_all
      by (destruct Ht as [_ Hp Hs]; rewrite Hs;
          change (Z.of_nat Shell.SHELL_BUFFER_SIZE) with 256 in Hp; lia).
    split_and!; try done. rewrite take_nil. by destruct (Shell.echoEnabled s).
  - apply Forall_cons in Hcs as [(H1 & H2 & H3 & H4) Hcs].
    apply Ascii.eqb_neq in H1, H2, H3, H4.
    cbn [Shell.processInput]. unfold Shell.dispatch.
    rewrite H1, H2, H3, H4. cbn [orb].
    destruct (Shell.printable c) eqn:Hp.
    + rewrite filter_cons_True by done.
      destruct (decide (Shell.bufferPos s < 255)) as [Hroom|Hfull].
      * destruct (handleChar_room s c Ht Hroom (printable_not_nul c Hp))
          as (Ht1 & Hc1 & Hp1 & He1 & Hm1 & Hev).
        destruct (IH _ Ht1 Hcs) as (s' & Hrun & Ht' & Hc' & He' & Hm').
        exists s'. rewrite Hrun, Hev, He1, Hc', Hc1, Hp1, He', Hm'.
        rewrite str_app_assoc, str_app_cons, str_app_nil_l.
        split_and!; try done. f_equal.
        destruct Ht as [_ Hpos _].
        destruct (Shell.echoEnabled s); [|done].
        replace (255 - Z.to_nat (Shell.bufferPos s))%nat
          with (S (255 - Z.to_nat (Shell.bufferPos s + 1)))%nat by lia.
        by rewrite firstn_cons, fmap_cons, length_cons.
      * assert (Shell.bufferPos s = 255) as Hf.
        { destruct Ht as [_ Hpos _].
          change (Z.of_nat Shell.SHELL_BUFFER_SIZE) with 256 in Hpos. lia. }
        rewrite (handleChar_full s c Hf). cbn [fst snd].
        destruct (IH _ Ht Hcs) as (s' & Hrun & Ht' & Hc' & He' & Hm').
        exists s'. rewrite Hrun, Hc'.
        assert (String.length (Shell.c_str (Shell.inputBuffer s)) = 255%nat)
          as Hl by (destruct Ht as [_ _ Hs]; rewrite Hs, Hf; lia).
        assert (∀ x, str_take 255 (Shell.c_str (Shell.inputBuffer s) +:+ x)
                     = Shell.c_str (Shell.inputBuffer s)) as Hx
          by (intros x; rewrite <- Hl; apply str_take_app_exact).
        rewrite !Hx.
        split_and!; try done. f_equal.
        destruct (Shell.echoEnabled s); [|done].
        rewrite Hf. change (255 - Z.to_nat 255)%nat with 0%nat.
        by rewrite !take_0, !fmap_nil, !Nat.sub_0_r, length_cons.
    + rewrite filter_cons_False by (by rewrite Hp).
      destruct (IH _ Ht Hcs) as (s' & Hrun & Ht' & Hc' & He' & Hm').
      exists s'. by rewrite Hrun.
Qed.

(** X26.  Fed characters other than Enter and Backspace, [processInput]
    drops the ones that are not printable and appends the others to the
    line until it has 255 characters; what comes after is dropped.  With
    the echo on, every character taken is echoed, and every character
    dropped for want of room rings the bell. *)
Theorem typed_characters_fill_the_buffer cs s :
  Shell.tidy s →
  Forall (λ c, c ≠ Shell.CR ∧ c ≠ Shell.LF ∧ c ≠ Shell.DEL ∧ c ≠ Shell.BS) cs →
  ∃ s',
    Shell.processInput s cs
    = (Some s',
       if Shell.echoEnabled s then
         (Shell.print_char
            <$> take (255 - Z.to_nat (Shell.bufferPos s))
                  (filter (λ c, Shell.printable c = true) cs))
         ++ replicate
              (length (filter (λ c, Shell.printable c = true) cs)
               - (255 - Z.to_nat (Shell.bufferPos s)))
              (Shell.print_char Shell.BEL)
       else [])
    ∧ Shell.tidy s'
    ∧ Shell.c_str (Shell.inputBuffer s')
      = str_take 255
          (Shell.c_str (Shell.inputBuffer s)
           +:+ string_of_list_ascii
                 (filter (λ c, Shell.printable c = true) cs)).
Proof.
  intros Ht Hcs.
  destruct (processInput_typing cs s Ht Hcs) as (s' & H1 & H2 & H3 & _).
  by exists s'.
Qed.

Lemma tidy_ready : Shell.tidy Sample2.ready.
Proof.
  split; [reflexivity | | reflexivity].
  change (Z.of_nat Shell.SHELL_BUFFER_SIZE) with 256. simpl. lia.
Qed.

Lemma typed_characters_fill_the_buffer_witness :
  ∃ s',
    Shell.processInput Sample2.ready ["h"; "007"; "i"]%char
    = (Some s', [Shell.print_char "h"; Shell.print_char "i"])
    ∧ Shell.c_str (Shell.inputBuffer s') = "hi"%string.
Proof.
  destruct (typed_characters_fill_the_buffer ["h"; "007"; "i"]%char
              Sample2.ready tidy_ready
              ltac:(repeat constructor; discriminate))
    as (s' & H1 & _ & H3).
  exists s'. split; [exact H1 | by rewrite H3].
Defined.

(** X27.  Backspace removes the last character of the line, so it undoes
    the character typed just before it; on an empty line it does
    nothing and prints nothing. *)
Theorem backspace_removes_last_character s :
  Shell.tidy s →
  (0 < Shell.bufferPos s →
   Shell.tidy (Shell.handleBackspace s).1
   ∧ Shell.c_str (Shell.inputBuffer (Shell.handleBackspace s).1)
     = str_take (Z.to_nat (Shell.bufferPos s - 1))
         (Shell.c_str (Shell.inputBuffer s)))
  ∧ (Shell.bufferPos s = 0 → Shell.handleBackspace s = (s, []))
  ∧ (∀ c, c ≠ Shell.NUL → Shell.bufferPos s < 255 →
     Shell.c_str
       (Shell.inputBuffer
          (Shell.handleBackspace (Shell.handleChar s c).1).1)
     = Shell.c_str (Shell.inputBuffer s)
     ∧ Shell.bufferPos (Shell.handleBackspace (Shell.handleChar s c).1).1
       = Shell.bufferPos s).
Proof.
  intros Ht. split_and!.
  - intros Hp. by destruct (handleBackspace_some s Ht Hp) as (H1 & H2 & _).
  - intros Hp. unfold Shell.handleBackspace. by rewrite Hp.
  - intros c Hc Hroom.
    destruct (handleChar_room s c Ht Hroom Hc) as (Ht1 & Hc1 & Hp1 & _).
    destruct Ht as [_ Hpos Hstr].
    destruct (handleBackspace_some _ Ht1 ltac:(lia)) as (_ & Hc2 & Hp2).
    rewrite Hc2, Hp2, Hc1, Hp1. split; [|lia].
    replace (Z.to_nat (Shell.bufferPos s + 1 - 1))
      with (String.length (Shell.c_str (Shell.inputBuffer s))) by lia.
    apply str_take_app_exact.
Qed.

Lemma backspace_removes_last_character_witness :
  Shell.handleBackspace Sample2.ready = (Sample2.ready, [])
  ∧ Shell.c_str
      (Shell.inputBuffer
         (Shell.handleBackspace (Shell.handleChar Sample2.ready "x").1).1)
    = EmptyString.
Proof.
  destruct (backspace_removes_last_character Sample2.ready tidy_ready)
    as (_ & H1 & H2).
  split; [by apply H1|].
  by apply (H2 "x"%char).
Defined.

(** * From a typed line to the handler *)

Lemma processInput_app s a b s1 e1 :
  Shell.processInput s a = (Some s1, e1) →
  Shell.processInput s (a ++ b)
  = ((Shell.processInput s1 b).1, e1 ++ (Shell.processInput s1 b).2).
Proof.
  revert s e1. induction a as [|c a IH]; intros s e1.
  - intros [= <- <-]. cbn [app]. by destruct (Shell.processInput s b).
  - cbn [Shell.processInput app].
    destruct (Shell.dispatch s c) as [[s'|] e]; [|done].
    destruct (Shell.processInput s' a) as [o e'] eqn:E.
    intros [= -> <-]. rewrite (IH _ _ E).
    by rewrite (assoc_L (++)).
Qed.

Lemma chars_length w : length (list_ascii_of_string w) = String.length w.
Proof. induction w as [|c w IH]; simpl; [done | by rewrite IH]. Qed.

Lemma chars_printable w :
  Shell.all_printable w = true →
  filter (λ c, Shell.printable c = true) (list_ascii_of_string w)
  = list_ascii_of_string w
  ∧ Forall (λ c, c ≠ Shell.CR ∧ c ≠ Shell.LF ∧ c ≠ Shell.DEL ∧ c ≠ Shell.BS)
      (list_ascii_of_string w).
Proof.
  induction w as [|c w IH]; [done|].
  simpl. intros [Hc Hw]%andb_prop. destruct (IH Hw) as [H1 H2].
  rewrite filter_cons_True by done. rewrite H1. split; [done|].
  constructor; [|done]. by split_and!; intros ->.
Qed.

Lemma processCommand_line s l :
  Shell.commands s = true → l ≠ EmptyString → Shell.skip_blank l = l →
  Shell.processCommand s (Some l)
  = if (Cmd.execute (Some (Shell.parseCommand l).1)
          (Shell.parseCommand l).2).1
    then (Cmd.execute (Some (Shell.parseCommand l).1)
            (Shell.parseCommand l).2).2
    else (Cmd.execute (Some (Shell.parseCommand l).1)
            (Shell.parseCommand l).2).2
         ++ Shell.unknown_command (Shell.parseCommand l).1.
Proof.
  intros Hc Hl Hs. unfold Shell.processCommand. rewrite Hc, Hs. cbn [negb].
  destruct l as [|c l]; [done|].
  destruct (Shell.parseCommand (String c l)) as [cmd args]. cbn [fst snd].
  by destruct (Cmd.execute (Some cmd) args).
Qed.

Lemma typed_line cmd ws :
  cmd ≠ EmptyString → Shell.no_blank cmd = true →
  (String.length cmd ≤ 31)%nat →
  (length ws ≤ Shell.SHELL_MAX_ARGS)%nat → Forall Shell.plain ws →
  Shell.all_printable (cmd +:+ Shell.spaced ws) = true →
  (String.length (cmd +:+ Shell.spaced ws) ≤ 255)%nat →
  Shell.processInput Sample2.ready
    (list_ascii_of_string (cmd +:+ Shell.spaced ws) ++ [Shell.CR])
  = let run :=
      if (Cmd.execute (Some cmd) ws).1 then (Cmd.execute (Some cmd) ws).2
      else (Cmd.execute (Some cmd) ws).2 ++ Shell.unknown_command cmd in
    let echo :=
      (Shell.print_char <$> list_ascii_of_string (cmd +:+ Shell.spaced ws))
      ++ [Serial (EvPrintln (PStr EmptyString))] in
    if Shell.halted run then (None, echo ++ run)
    else (Some Sample2.ready,
          echo ++ run ++ [Serial (EvPrint (PStr Shell.SHELL_PROMPT))]).
Proof.
  intros Hne Hb Hl Hk Hp Hpr Hlen.
  destruct (chars_printable _ Hpr) as [Hf Hno].
  destruct (processInput_typing _ _ tidy_ready Hno)
    as (s1 & Hrun & Ht1 & Hc1 & He1 & Hm1).
  rewrite Hf, string_of_list_ascii_of_string in Hc1.
  change (Shell.c_str (Shell.inputBuffer Sample2.ready)) with EmptyString
    in Hc1.
  rewrite str_app_nil_l, str_take_all in Hc1 by done.
  rewrite Hf in Hrun.
  change (Shell.echoEnabled Sample2.ready) with true in *.
  change (Shell.commands Sample2.ready) with true in *.
  change (Z.to_nat (Shell.bufferPos Sample2.ready)) with 0%nat in Hrun.
  rewrite Nat.sub_0_r, take_ge in Hrun by (rewrite chars_length; lia).
  replace (length (list_ascii_of_string (cmd +:+ Shell.spaced ws)) - 255)%nat
    with 0%nat in Hrun by (rewrite chars_length; lia).
  cbn [replicate] in Hrun. rewrite (right_id_L [] (++)) in Hrun.
  rewrite (processInput_app _ _ [Shell.CR] _ _ Hrun).
  assert (0 < Shell.bufferPos s1) as Hpos.
  { destruct Ht1 as [_ Hp1 Hs1]. rewrite Hc1, str_app_length in Hs1.
    destruct cmd; [done|]. simpl in Hs1. lia. }
  cbn [Shell.processInput]. unfold Shell.dispatch.
  change (Shell.CR =? Shell.CR)%char with true. cbn [orb].
  unfold Shell.handleEnter.
  rewrite He1, (proj2 (Z.ltb_lt _ _) Hpos), Hc1.
  rewrite processCommand_line;
    [| done | by destruct cmd | by apply skip_blank_word].
  rewrite parseCommand_spaced by done. cbn [fst snd]. cbv zeta.
  destruct (Shell.halted _); cbn [fst snd].
  - by rewrite (assoc_L (++)).
  - rewrite (right_id_L [] (++)), !(assoc_L (++)).
    do 2 f_equal. unfold Shell.clearBuffer. by rewrite He1, Hm1.
Qed.

(** X28.  From a ready shell, a typed line of a command word and plain
    arguments, ended by Enter, is echoed and then acted on.  If the word
    is a listed name up to letter case, other than [reboot], the handler
    of that entry gets the arguments, the prompt is printed, and the
    shell is as before the line.  For [reboot] the handler is called and
    nothing follows.  For any other word the shell reports an unknown
    command, prints the prompt and is as before. *)
Theorem typed_line_runs_command cmd ws :
  cmd ≠ EmptyString → Shell.no_blank cmd = true →
  (String.length cmd ≤ 31)%nat →
  (length ws ≤ Shell.SHELL_MAX_ARGS)%nat → Forall Shell.plain ws →
  Shell.all_printable (cmd +:+ Shell.spaced ws) = true →
  (String.length (cmd +:+ Shell.spaced ws) ≤ 255)%nat →
  let keys := list_ascii_of_string (cmd +:+ Shell.spaced ws) ++ [Shell.CR] in
  let echo :=
    (Shell.print_char <$> list_ascii_of_string (cmd +:+ Shell.spaced ws))
    ++ [Serial (EvPrintln (PStr EmptyString))] in
  let prompt := Serial (EvPrint (PStr Shell.SHELL_PROMPT)) in
  (∀ i n d, Cmd.commandList !! i = Some (n, d) → Cmd.lower cmd = n →
     Shell.processInput Sample2.ready keys
     = if Nat.eqb i Cmd.REBOOT then (None, echo ++ [Handler i ws])
       else (Some Sample2.ready, echo ++ [Handler i ws; prompt]))
  ∧ (Cmd.lower cmd ∉ Cmd.commandList.*1 →
     Shell.processInput Sample2.ready keys
     = (Some Sample2.ready,
        echo ++ Shell.unknown_command cmd ++ [prompt])).
Proof.
  intros Hne Hb Hl Hk Hp Hpr Hlen keys echo prompt.
  subst keys echo prompt.
  rewrite (typed_line cmd ws Hne Hb Hl Hk Hp Hpr Hlen). cbv zeta.
  unfold Cmd.execute. split.
  - intros i n d Hi Hn. rewrite (find_command_listed i n d cmd Hi Hn).
    cbn [fst snd Shell.halted existsb orb].
    rewrite orb_false_r. by destruct (Nat.eqb i Cmd.REBOOT).
  - intros Hn. by rewrite (find_command_unlisted cmd Hn).
Qed.

Lemma typed_line_runs_command_witness :
  Shell.processInput Sample2.ready
    (list_ascii_of_string "LED on" ++ [Shell.CR])
  = (Some Sample2.ready,
     ((Shell.print_char <$> list_ascii_of_string "LED on")
      ++ [Serial (EvPrintln (PStr EmptyString))])
     ++ [Handler 12 ["on"%string];
         Serial (EvPrint (PStr Shell.SHELL_PROMPT))]).
Proof.
  destruct (typed_line_runs_command "LED" ["on"%string]
              ltac:(discriminate) eq_refl ltac:(simpl; lia)
              ltac:(unfold Shell.SHELL_MAX_ARGS; simpl; lia)
              ltac:(repeat constructor; try done; simpl; lia)
              eq_refl ltac:(vm_compute; lia)) as [H _].
  exact (H 12%nat "led"%string "Control built-in LED"%string eq_refl eq_refl).
Defined.
